(** * Xenobot IPC shim: event-stream ingestion and request lifecycle

    A shallow embedding of the streaming part of
    [crates/web/frontend/public/shim.js]: the record framer and decoder of
    [consumeSseResponse], the key normaliser [toCamelDeep], the aggregators
    of [llmApi.chatStream] and [agentApi.runStream], and the registry
    [activeAgentRequests] with [agentApi.abort].

    JavaScript strings are sequences of UTF-16 code units, response bodies
    are sequences of byte chunks, and the platform services the shim calls
    ([TextDecoder], [JSON.parse], [Set], [Map], [fetch]) are modelled next to
    the functions that use them. *)

From Stdlib Require Import NArith ZArith Ascii String Lia Bool.
From Stdlib.Strings Require Import Byte.
From Equations Require Import Equations.
From stdpp Require Import base option list gmap.

Set Default Proof Using "Type".
Local Open Scope N_scope.

(** ** JavaScript strings *)

Module JsString.

(** A string value is the list of its UTF-16 code units. *)
Abbreviation code_unit := N (only parsing).
Abbreviation jsstring := (list N) (only parsing).

Definition LF : N := 10.
Definition CR : N := 13.
Definition QUOTE : N := 34.

(** Literals are written as Rocq strings, with an apostrophe standing for
    the double quote of the JavaScript text. *)
Definition unit_of_ascii (a : ascii) : N :=
  if Ascii.eqb a "'"%char then QUOTE else N_of_ascii a.

Definition js (s : string) : jsstring :=
  List.map unit_of_ascii (list_ascii_of_string s).

(** [String.prototype.startsWith]. *)
Fixpoint startsWith (s p : jsstring) {struct p} : bool :=
  match p, s with
  | [], _ => true
  | _ :: _, [] => false
  | x :: p', y :: s' => (x =? y) && startsWith s' p'
  end.

(** [String.prototype.indexOf]: the least position at which [p] occurs,
    [None] standing for the result -1. *)
Fixpoint indexOf (s p : jsstring) : option nat :=
  if startsWith s p then Some 0%nat
  else match s with
       | [] => None
       | _ :: s' => S <$> indexOf s' p
       end.

(** [s.slice(a)] and [s.slice(0, b)] for indices inside the string. *)
Definition slice_from (a : nat) (s : jsstring) : jsstring := drop a s.
Definition slice_to (b : nat) (s : jsstring) : jsstring := take b s.

(** White space and line terminators of ECMAScript, the characters removed
    by [trim] and [trimStart]. *)
Definition is_whitespace (c : N) : bool :=
  (9 <=? c) && (c <=? 13)
  || (c =? 32) || (c =? 160) || (c =? 5760)
  || (8192 <=? c) && (c <=? 8202)
  || (c =? 8232) || (c =? 8233) || (c =? 8239) || (c =? 8287)
  || (c =? 12288) || (c =? 65279).

Fixpoint trimStart (s : jsstring) : jsstring :=
  match s with
  | c :: s' => if is_whitespace c then trimStart s' else s
  | [] => []
  end.

Definition trimEnd (s : jsstring) : jsstring :=
  reverse (trimStart (reverse s)).

Definition trim (s : jsstring) : jsstring := trimEnd (trimStart s).

(** [s.split('\n')]: always at least one piece. *)
Fixpoint split_lines_aux (cur : jsstring) (s : jsstring) : list jsstring :=
  match s with
  | [] => [reverse cur]
  | c :: s' =>
      if c =? LF then reverse cur :: split_lines_aux [] s'
      else split_lines_aux (c :: cur) s'
  end.

Definition split_lines (s : jsstring) : list jsstring := split_lines_aux [] s.

(** [Array.prototype.join] on an array of strings. *)
Fixpoint join (sep : jsstring) (parts : list jsstring) : jsstring :=
  match parts with
  | [] => []
  | [p] => p
  | p :: rest => p ++ sep ++ join sep rest
  end.

(** [s.replace(/\r\n/g, '\n')]. *)
Fixpoint replace_crlf (s : jsstring) : jsstring :=
  match s with
  | [] => []
  | c :: s' =>
      match s' with
      | d :: s'' =>
          if (c =? CR) && (d =? LF) then LF :: replace_crlf s''
          else c :: replace_crlf s'
      | [] => [c]
      end
  end.

(** No surrogate stands alone: the strings [encodeURIComponent] accepts. *)
Definition is_high_surrogate (c : N) : bool := (0xD800 <=? c) && (c <=? 0xDBFF).
Definition is_low_surrogate (c : N) : bool := (0xDC00 <=? c) && (c <=? 0xDFFF).

Fixpoint well_formed_utf16 (s : jsstring) : bool :=
  match s with
  | [] => true
  | c :: rest =>
      if is_high_surrogate c then
        match rest with
        | d :: rest' => is_low_surrogate d && well_formed_utf16 rest'
        | [] => false
        end
      else if is_low_surrogate c then false
      else well_formed_utf16 rest
  end.

(** Decimal digits of a natural number, as [String(n)] prints an integer. *)
Definition digit_unit (d : N) : N := 48 + d.

Fixpoint decimal_aux (fuel : nat) (n : N) (acc : jsstring) : jsstring :=
  match fuel with
  | O => acc
  | S fuel' =>
      let acc' := digit_unit (n mod 10) :: acc in
      if n / 10 =? 0 then acc' else decimal_aux fuel' (n / 10) acc'
  end.

Definition decimal (n : N) : jsstring :=
  decimal_aux (S (N.to_nat (N.log2 n))) n [].

End JsString.
Import JsString.

(** ** The platform's UTF-8 [TextDecoder]

    [new TextDecoder()] decodes UTF-8 as the Encoding Standard prescribes:
    a byte-driven automaton that emits U+FFFD for every ill-formed sequence,
    keeps an incomplete sequence pending across [decode(value, {stream: true})]
    calls, and drops one leading byte-order mark. *)

Module TextDecoder.

Record utf8 := {
  code_point : N;
  bytes_seen : N;
  bytes_needed : N;
  lower_boundary : N;
  upper_boundary : N
}.

Definition utf8_init : utf8 :=
  {| code_point := 0; bytes_seen := 0; bytes_needed := 0;
     lower_boundary := 0x80; upper_boundary := 0xBF |}.

Definition REPLACEMENT : N := 0xFFFD.
Definition BOM : N := 0xFEFF.

(** A byte met while no sequence is pending. *)
Definition lead (b : N) : utf8 * list N :=
  if b <=? 0x7F then (utf8_init, [b])
  else if (0xC2 <=? b) && (b <=? 0xDF) then
    ({| code_point := N.land b 0x1F; bytes_seen := 0; bytes_needed := 1;
        lower_boundary := 0x80; upper_boundary := 0xBF |}, [])
  else if (0xE0 <=? b) && (b <=? 0xEF) then
    ({| code_point := N.land b 0xF; bytes_seen := 0; bytes_needed := 2;
        lower_boundary := if b =? 0xE0 then 0xA0 else 0x80;
        upper_boundary := if b =? 0xED then 0x9F else 0xBF |}, [])
  else if (0xF0 <=? b) && (b <=? 0xF4) then
    ({| code_point := N.land b 0x7; bytes_seen := 0; bytes_needed := 3;
        lower_boundary := if b =? 0xF0 then 0x90 else 0x80;
        upper_boundary := if b =? 0xF4 then 0x8F else 0xBF |}, [])
  else (utf8_init, [REPLACEMENT]).

(** One step of the automaton; the result lists the code points emitted.
    A byte that breaks a pending sequence yields U+FFFD and is then handled
    again as a first byte. *)
Definition handler (d : utf8) (b : N) : utf8 * list N :=
  if bytes_needed d =? 0 then lead b
  else if negb ((lower_boundary d <=? b) && (b <=? upper_boundary d)) then
    let (d', out) := lead b in (d', REPLACEMENT :: out)
  else
    let cp := N.lor (N.shiftl (code_point d) 6) (N.land b 0x3F) in
    if bytes_seen d + 1 =? bytes_needed d then (utf8_init, [cp])
    else ({| code_point := cp; bytes_seen := bytes_seen d + 1;
             bytes_needed := bytes_needed d;
             lower_boundary := 0x80; upper_boundary := 0xBF |}, []).

Definition end_of_queue (d : utf8) : list N :=
  if bytes_needed d =? 0 then [] else [REPLACEMENT].

(** A scalar value as UTF-16 code units. *)
Definition code_units (cp : N) : jsstring :=
  if cp <? 0x10000 then [cp]
  else [0xD800 + N.shiftr (cp - 0x10000) 10;
        0xDC00 + N.land (cp - 0x10000) 0x3FF].

(** The decoder object: the automaton and the "BOM seen" flag. *)
Record t := { machine : utf8; bom_seen : bool }.

Definition create : t := {| machine := utf8_init; bom_seen := false |}.

Definition serialize (seen : bool) (cp : N) : bool * jsstring :=
  if negb seen && (cp =? BOM) then (true, []) else (true, code_units cp).

Fixpoint serialize_all (seen : bool) (cps : list N) : bool * jsstring :=
  match cps with
  | [] => (seen, [])
  | cp :: cps' =>
      let (seen1, out1) := serialize seen cp in
      let (seen2, out2) := serialize_all seen1 cps' in
      (seen2, out1 ++ out2)
  end.

Definition feed (d : t) (b : byte) : t * jsstring :=
  let (m, cps) := handler (machine d) (Byte.to_N b) in
  let (seen, out) := serialize_all (bom_seen d) cps in
  ({| machine := m; bom_seen := seen |}, out).

(** [decoder.decode(value, {stream: true})]. *)
Fixpoint decode_stream (d : t) (value : list byte) : t * jsstring :=
  match value with
  | [] => (d, [])
  | b :: value' =>
      let (d1, out1) := feed d b in
      let (d2, out2) := decode_stream d1 value' in
      (d2, out1 ++ out2)
  end.

(** [decoder.decode()]: end of input; a pending sequence becomes U+FFFD. *)
Definition decode_end (d : t) : jsstring :=
  snd (serialize_all (bom_seen d) (end_of_queue (machine d))).

(** Body bytes of an ASCII text, written like the literals of [js]. *)
Definition wire (s : string) : list byte :=
  List.map (fun a => if Ascii.eqb a "'"%char then x22 else byte_of_ascii a)
           (list_ascii_of_string s).

End TextDecoder.

(** ** JSON values and the platform's [JSON.parse] *)

(** The Number type of the platform is IEEE-754 binary64.  Its arithmetic is
    not needed here; the shim only converts number tokens, tests numbers for
    truthiness, compares them inside a [Set] and prints them when they are
    concatenated to a string.  These four operations form an interface. *)
Class JsNumber (num : Type) := {
  num_of_literal : jsstring -> num;
  num_truthy : num -> bool;
  num_same : num -> num -> bool;
  num_to_string : num -> jsstring;
  num_same_refl : forall n, num_same n n = true
}.

Module Json.

(** A value produced by [JSON.parse].  An object is the list of its own
    properties in creation order.  (The platform enumerates the properties
    whose names are array indices first; the shim reads objects by property
    name and rebuilds them through [Object.entries], and [snakeToCamel]
    leaves such names alone, so that order shows nowhere in what
    follows.) *)
#[warnings="-register-all"]
Inductive json (num : Type) : Type :=
| JNull
| JBool (b : bool)
| JNum (n : num)
| JStr (s : jsstring)
| JArr (items : list (json num))
| JObj (props : list (jsstring * json num)).

Arguments JNull {num}.
Arguments JBool {num} b.
Arguments JNum {num} n.
Arguments JStr {num} s.
Arguments JArr {num} items.
Arguments JObj {num} props.

Section Values.
Context {num : Type} `{!JsNumber num}.

(** [obj[k] = v]: overwrite in place or append. *)
Fixpoint obj_set (props : list (jsstring * json num)) (k : jsstring)
         (v : json num) : list (jsstring * json num) :=
  match props with
  | [] => [(k, v)]
  | (k', v') :: rest =>
      if bool_decide (k' = k) then (k, v) :: rest
      else (k', v') :: obj_set rest k v
  end.

Fixpoint obj_get (props : list (jsstring * json num)) (k : jsstring)
  : option (json num) :=
  match props with
  | [] => None
  | (k', v') :: rest =>
      if bool_decide (k' = k) then Some v' else obj_get rest k
  end.

(** ToBoolean. *)
Definition truthy (v : json num) : bool :=
  match v with
  | JNull => false
  | JBool b => b
  | JNum n => num_truthy n
  | JStr s => negb (bool_decide (s = []))
  | JArr _ | JObj _ => true
  end.

(** All the results, if every one is there. *)
Fixpoint all_some {A} (l : list (option A)) : option (list A) :=
  match l with
  | [] => Some []
  | Some x :: l' =>
      match all_some l' with
      | Some xs => Some (x :: xs)
      | None => None
      end
  | None :: _ => None
  end.

(** ToString, as applied by [+=] on a string and by [join]; [None] stands
    for the TypeError raised when a value cannot be converted.  A plain
    object prints through [Object.prototype.toString] unless an own
    property named [toString] hides it: that property holds a JSON value,
    which is not callable, and [valueOf] returns the object itself, so the
    conversion fails.  An array prints its elements separated by commas,
    [null] as the empty string. *)
Fixpoint to_string (v : json num) : option jsstring :=
  match v with
  | JNull => Some (js "null")
  | JBool true => Some (js "true")
  | JBool false => Some (js "false")
  | JNum n => Some (num_to_string n)
  | JStr s => Some s
  | JArr items =>
      join (js ",")
      <$> all_some (List.map (fun x => match x with
                                       | JNull => Some []
                                       | _ => to_string x
                                       end) items)
  | JObj props =>
      match obj_get props (js "toString") with
      | Some _ => None
      | None => Some (js "[object Object]")
      end
  end.

(** *** Tokens *)

Inductive token :=
| TLBrace | TRBrace | TLBracket | TRBracket | TColon | TComma
| TString (s : jsstring)
| TNumber (lexeme : jsstring)
| TTrue | TFalse | TNull.

Inductive nstate :=
| NMinus | NZero | NInt | NDot | NFrac | NE | NESign | NExp.

Definition is_digit (c : N) : bool := (48 <=? c) && (c <=? 57).
Definition is_digit19 (c : N) : bool := (49 <=? c) && (c <=? 57).
Definition is_e (c : N) : bool := (c =? 101) || (c =? 69).

Definition number_step (st : nstate) (c : N) : option nstate :=
  match st with
  | NMinus => if c =? 48 then Some NZero
              else if is_digit19 c then Some NInt else None
  | NZero => if c =? 46 then Some NDot
             else if is_e c then Some NE else None
  | NInt => if is_digit c then Some NInt
            else if c =? 46 then Some NDot
            else if is_e c then Some NE else None
  | NDot => if is_digit c then Some NFrac else None
  | NFrac => if is_digit c then Some NFrac
             else if is_e c then Some NE else None
  | NE => if (c =? 43) || (c =? 45) then Some NESign
          else if is_digit c then Some NExp else None
  | NESign => if is_digit c then Some NExp else None
  | NExp => if is_digit c then Some NExp else None
  end.

Definition number_complete (st : nstate) : bool :=
  match st with
  | NZero | NInt | NFrac | NExp => true
  | _ => false
  end.

Inductive lstate :=
| LStart
| LString (acc : jsstring)
| LEscape (acc : jsstring)
| LUnicode (acc : jsstring) (remaining : nat) (value : N)
| LWord (rest : jsstring) (tok : token)
| LNumber (st : nstate) (acc : jsstring).

Definition hex_value (c : N) : option N :=
  if is_digit c then Some (c - 48)
  else if (97 <=? c) && (c <=? 102) then Some (c - 87)
  else if (65 <=? c) && (c <=? 70) then Some (c - 55)
  else None.

Definition escape_value (c : N) : option N :=
  if c =? 34 then Some 34 else if c =? 92 then Some 92
  else if c =? 47 then Some 47 else if c =? 98 then Some 8
  else if c =? 102 then Some 12 else if c =? 110 then Some 10
  else if c =? 114 then Some 13 else if c =? 116 then Some 9
  else None.

Definition is_json_space (c : N) : bool :=
  (c =? 9) || (c =? 10) || (c =? 13) || (c =? 32).

(** A character met between tokens. *)
Definition lex_start (c : N) : option (lstate * list token) :=
  if is_json_space c then Some (LStart, [])
  else if c =? 123 then Some (LStart, [TLBrace])
  else if c =? 125 then Some (LStart, [TRBrace])
  else if c =? 91 then Some (LStart, [TLBracket])
  else if c =? 93 then Some (LStart, [TRBracket])
  else if c =? 58 then Some (LStart, [TColon])
  else if c =? 44 then Some (LStart, [TComma])
  else if c =? 34 then Some (LString [], [])
  else if c =? 116 then Some (LWord (js "rue") TTrue, [])
  else if c =? 102 then Some (LWord (js "alse") TFalse, [])
  else if c =? 110 then Some (LWord (js "ull") TNull, [])
  else if c =? 45 then Some (LNumber NMinus [c], [])
  else if c =? 48 then Some (LNumber NZero [c], [])
  else if is_digit19 c then Some (LNumber NInt [c], [])
  else None.

Definition lex_step (st : lstate) (c : N) : option (lstate * list token) :=
  match st with
  | LStart => lex_start c
  | LString acc =>
      if c =? 34 then Some (LStart, [TString (reverse acc)])
      else if c =? 92 then Some (LEscape acc, [])
      else if c <? 32 then None
      else Some (LString (c :: acc), [])
  | LEscape acc =>
      if c =? 117 then Some (LUnicode acc 4 0, [])
      else match escape_value c with
           | Some x => Some (LString (x :: acc), [])
           | None => None
           end
  | LUnicode acc remaining value =>
      match hex_value c with
      | Some h =>
          match remaining with
          | 1%nat => Some (LString ((value * 16 + h) :: acc), [])
          | _ => Some (LUnicode acc (pred remaining) (value * 16 + h), [])
          end
      | None => None
      end
  | LWord rest tok =>
      match rest with
      | r :: rest' =>
          if c =? r then
            match rest' with
            | [] => Some (LStart, [tok])
            | _ => Some (LWord rest' tok, [])
            end
          else None
      | [] => None
      end
  | LNumber nst acc =>
      match number_step nst c with
      | Some nst' => Some (LNumber nst' (c :: acc), [])
      | None =>
          if number_complete nst then
            match lex_start c with
            | Some (st', toks) => Some (st', TNumber (reverse acc) :: toks)
            | None => None
            end
          else None
      end
  end.

Definition lex_end (st : lstate) : option (list token) :=
  match st with
  | LStart => Some []
  | LNumber nst acc =>
      if number_complete nst then Some [TNumber (reverse acc)] else None
  | _ => None
  end.

Fixpoint lex (st : lstate) (text : jsstring) : option (list token) :=
  match text with
  | [] => lex_end st
  | c :: text' =>
      match lex_step st c with
      | Some (st', toks) => (fun rest => toks ++ rest) <$> lex st' text'
      | None => None
      end
  end.

(** *** Grammar *)

Inductive frame :=
| FArr (done : list (json num))
| FObj (done : list (jsstring * json num)) (key : jsstring).

Inductive pstate :=
| PValue (stack : list frame)
| PArrFirst (stack : list frame)
| PObjFirst (stack : list frame)
| PKey (done : list (jsstring * json num)) (stack : list frame)
| PColon (done : list (jsstring * json num)) (key : jsstring)
         (stack : list frame)
| PAfter (v : json num) (stack : list frame).

Definition parse_value (stack : list frame) (t : token) : option pstate :=
  match t with
  | TString s => Some (PAfter (JStr s) stack)
  | TNumber l => Some (PAfter (JNum (num_of_literal l)) stack)
  | TTrue => Some (PAfter (JBool true) stack)
  | TFalse => Some (PAfter (JBool false) stack)
  | TNull => Some (PAfter JNull stack)
  | TLBracket => Some (PArrFirst stack)
  | TLBrace => Some (PObjFirst stack)
  | _ => None
  end.

Definition parse_step (st : pstate) (t : token) : option pstate :=
  match st with
  | PValue stack => parse_value stack t
  | PArrFirst stack =>
      match t with
      | TRBracket => Some (PAfter (JArr []) stack)
      | _ => parse_value (FArr [] :: stack) t
      end
  | PObjFirst stack =>
      match t with
      | TRBrace => Some (PAfter (JObj []) stack)
      | TString k => Some (PColon [] k stack)
      | _ => None
      end
  | PKey done stack =>
      match t with
      | TString k => Some (PColon done k stack)
      | _ => None
      end
  | PColon done k stack =>
      match t with
      | TColon => Some (PValue (FObj done k :: stack))
      | _ => None
      end
  | PAfter v (FArr done :: stack) =>
      match t with
      | TComma => Some (PValue (FArr (done ++ [v]) :: stack))
      | TRBracket => Some (PAfter (JArr (done ++ [v])) stack)
      | _ => None
      end
  | PAfter v (FObj done k :: stack) =>
      match t with
      | TComma => Some (PKey (obj_set done k v) stack)
      | TRBrace => Some (PAfter (JObj (obj_set done k v)) stack)
      | _ => None
      end
  | PAfter v [] => None
  end.

Fixpoint parse_tokens (st : pstate) (ts : list token) : option (json num) :=
  match ts with
  | [] => match st with
          | PAfter v [] => Some v
          | _ => None
          end
  | t :: ts' =>
      match parse_step st t with
      | Some st' => parse_tokens st' ts'
      | None => None
      end
  end.

(** [JSON.parse(text)]; [None] stands for the SyntaxError it throws. *)
Definition JSON_parse (text : jsstring) : option (json num) :=
  match lex LStart text with
  | Some ts => parse_tokens (PValue []) ts
  | None => None
  end.

End Values.

End Json.
Import Json.

(** ** Key normalisation *)

(** [snakeToCamel(key)]: [String(key).replace(/_([a-z])/g, (_, c) =>
    c.toUpperCase())].  Matches are found from left to right and do not
    overlap; a matched pair is replaced by the upper-case letter. *)
Definition is_lower (c : N) : bool := (97 <=? c) && (c <=? 122).
Definition toUpperCase (c : N) : N := c - 32.
Definition UNDERSCORE : N := 95.

Fixpoint snakeToCamel (key : jsstring) : jsstring :=
  match key with
  | [] => []
  | c :: rest =>
      match rest with
      | d :: rest' =>
          if (c =? UNDERSCORE) && is_lower d
          then toUpperCase d :: snakeToCamel rest'
          else c :: snakeToCamel rest
      | [] => [c]
      end
  end.

Section Normalise.
Context {num : Type} `{!JsNumber num}.

(** [toCamelDeep(value)]: arrays are mapped, objects are rebuilt property
    by property with [out[snakeToCamel(k)] = toCamelDeep(v)], anything else
    ([null] included) is returned as it is. *)
Fixpoint toCamelDeep (value : json num) : json num :=
  match value with
  | JArr items => JArr (List.map toCamelDeep items)
  | JObj props =>
      JObj (fold_left (fun out kv => obj_set out (fst kv) (snd kv))
              (List.map
                 (fun kv => (snakeToCamel (fst kv), toCamelDeep (snd kv)))
                 props)
              [])
  | _ => value
  end.

(** *** The call stack *)



(** How deep a value is nested: the number of nested calls
    [toCamelDeep] makes on it. *)
Fixpoint depth (value : json num) : nat :=
  match value with
  | JArr items => S (foldr Nat.max O (List.map depth items))
  | JObj props =>
      S (foldr Nat.max O (List.map (fun kv => depth (snd kv)) props))
  | _ => 1%nat
  end.

End Normalise.

(** ** Exceptions and state *)

(** The errors of the platform and of the shim are [Error] objects; their
    [name] and [message] are all the shim looks at. *)
Record js_error := { err_name : jsstring; err_message : jsstring }.

Definition Error (message : jsstring) : js_error :=
  {| err_name := js "Error"; err_message := message |}.

Definition SyntaxError : js_error :=
  {| err_name := js "SyntaxError"; err_message := js "Unexpected token" |}.

(** Reading a property of [null]; the wording of the message is the
    engine's. *)
Definition null_property_error (prop : jsstring) : js_error :=
  {| err_name := js "TypeError";
     err_message := js "Cannot read properties of null (reading " ++ [39]
                    ++ prop ++ [39] ++ js ")" |}.

(** Converting to a string an object that has no usable [toString]. *)
Definition primitive_error : js_error :=
  {| err_name := js "TypeError";
     err_message := js "Cannot convert object to primitive value" |}.

(** [encodeURIComponent] on a string with a lone surrogate. *)
Definition URIError : js_error :=
  {| err_name := js "URIError"; err_message := js "URI malformed" |}.


Definition AbortError : js_error :=
  {| err_name := js "AbortError";
     err_message := js "The operation was aborted." |}.

Inductive completion (A : Type) : Type :=
| Normal (a : A)
| Throw (e : js_error).

Arguments Normal {A} a.
Arguments Throw {A} e.

(** A computation over a mutable state [S]: the state survives a throw. *)
Definition M (S A : Type) : Type := S -> completion A * S.

Definition ret {S A} (a : A) : M S A := fun s => (Normal a, s).
Definition throw {S A} (e : js_error) : M S A := fun s => (Throw e, s).

Definition bind {S A B} (m : M S A) (k : A -> M S B) : M S B :=
  fun s => match m s with
           | (Normal a, s') => k a s'
           | (Throw e, s') => (Throw e, s')
           end.

Definition try_catch {S A} (body : M S A) (handler : js_error -> M S A)
  : M S A :=
  fun s => match body s with
           | (Normal a, s') => (Normal a, s')
           | (Throw e, s') => handler e s'
           end.

Definition modify {S} (f : S -> S) : M S unit := fun s => (Normal tt, f s).
Definition gets {S A} (f : S -> A) : M S A := fun s => (Normal (f s), s).

Declare Scope js_scope.
Delimit Scope js_scope with js.
Notation "'do' x <- y ;; z" := (bind y (fun x => z))
  (at level 10, x name, y at level 99, z at level 200, only parsing)
  : js_scope.

(** ** The stream consumer *)

(** What the shim looks at in a [Response]: [readable] tells whether
    [response.body] exists and has a [getReader]. *)
Record response := {
  ok : bool;
  status : N;
  statusText : jsstring;
  readable : bool
}.

(** A result of [await reader.read()]. *)
Inductive read_result :=
| Value (value : list byte)
| Done
| ReadError (e : js_error).

Section Consumer.
Context {num : Type} `{!JsNumber num}.
Context {S : Type}.

(** What [consumeSseResponse] owns besides its buffer: the array [chunks],
    the state its callback acts on, and the console. *)
Record sse := {
  chunks : list (json num);
  observer : S;
  console : list js_error
}.

(** The callback receives the event object; the first argument names that
    object (events are allocated one per record, so its position in
    [chunks] identifies it).  The object is the one that is pushed into
    [chunks], and the callback may keep it; [consumeSseResponse] never
    reads an event again after handing it over, so that what a callback
    writes into the events it holds is part of its own state [S], and
    shows only in what a caller later finds in the events of the list
    returned: [chunks] here holds the events as they were decoded, a
    callback that writes ([scribe], further down) carries their current
    contents, and [consumeSseResponse_scribe] returns these. *)
Definition callback : Type := nat -> json num -> M S unit.

Variable onChunk : option callback.

Definition JSON_parse_or_throw (text : jsstring) : M sse (json num) :=
  match JSON_parse text with
  | Some v => ret v
  | None => throw SyntaxError
  end.

Definition push (v : json num) : M sse unit :=
  modify (fun st => {| chunks := chunks st ++ [v];
                       observer := observer st; console := console st |}).

Definition call_observer (f : callback) (id : nat) (v : json num)
  : M sse unit :=
  fun st => let (r, o) := f id v (observer st) in
            (r, {| chunks := chunks st; observer := o;
                   console := console st |}).

Definition console_error (e : js_error) : M sse unit :=
  modify (fun st => {| chunks := chunks st; observer := observer st;
                       console := console st ++ [e] |}).

(** The payload text of a record. *)
Definition dataText (block : jsstring) : jsstring :=
  let lines := split_lines block in
  join [LF]
    (List.map (fun line => trimStart (slice_from 5 line))
       (List.filter (fun line => startsWith line (js "data:")) lines)).

Definition emitBlock (block : jsstring) : M sse unit :=
  (if bool_decide (block = []) then ret tt
   else
     let dataText := dataText block in
     if bool_decide (dataText = []) then ret tt
     else
       do parsed <- try_catch (JSON_parse_or_throw dataText)
                      (fun _ => ret (JObj [(js "content", JStr dataText)]));;
       let normalized := toCamelDeep parsed in
       do id <- gets (fun st => length (chunks st));;
       do _ <- push normalized;;
       match onChunk with
       | Some f =>
           try_catch (call_observer f id normalized)
                     (fun err => console_error err)
       | None => ret tt
       end)%js.


Definition inspect {A} (a : A) : {b | a = b} := exist _ a eq_refl.

(** The inner loop: cut records off the front of the buffer while it
    holds a blank line. *)
Equations? drain (buffer : jsstring) (st : sse)
  : completion unit * (jsstring * sse) by wf (length buffer) lt :=
  drain buffer st with inspect (indexOf buffer [LF; LF]) := {
    | exist _ (Some splitIndex) E =>
        let block := trim (slice_to splitIndex buffer) in
        let buffer' := slice_from (splitIndex + 2) buffer in
        match emitBlock block st with
        | (Normal _, st') => drain buffer' st'
        | (Throw e, st') => (Throw e, (buffer', st'))
        end
    | exist _ None _ => (Normal tt, (buffer, st))
    }.
Proof.
  assert (Hbound : forall (s : jsstring) i,
             indexOf s [LF; LF] = Some i -> (i + 2 <= length s)%nat).
  { clear. induction s as [|c s IH]; intros i H; [discriminate H|].
    cbn [indexOf] in H.
    destruct (startsWith (c :: s) [LF; LF]) eqn:Hs.
    - injection H as <-. destruct s as [|d s]; [|simpl; lia].
      cbn in Hs. rewrite andb_false_r in Hs. discriminate.
    - destruct (indexOf s [LF; LF]) as [j|]; [|discriminate].
      cbn in H. injection H as <-. specialize (IH j eq_refl).
      simpl. lia. }
  apply Hbound in E.
  subst buffer'. unfold slice_from. rewrite length_drop. lia.
Qed.

(** The local state of the read loop. *)
Record loop := {
  decoder : TextDecoder.t;
  buffer : jsstring;
  sse_state : sse
}.

(** One iteration of [while (true)] for a read that returned a chunk. *)
Definition on_value (value : list byte) (l : loop) : completion unit * loop :=
  let (d, text) := TextDecoder.decode_stream (decoder l) value in
  let b := buffer l ++ replace_crlf text in
  let '(r, (b', st')) := drain b (sse_state l) in
  (r, {| decoder := d; buffer := b'; sse_state := st' |}).

(** After the loop: flush the decoder and emit what is left. *)
Definition on_done (l : loop) : completion (list (json num)) * sse :=
  let b := buffer l ++ replace_crlf (TextDecoder.decode_end (decoder l)) in
  match emitBlock (trim b) (sse_state l) with
  | (Normal _, st') => (Normal (chunks st'), st')
  | (Throw e, st') => (Throw e, st')
  end.

Definition http_error (r : response) : js_error :=
  Error (js "HTTP " ++ decimal (status r) ++ js ": " ++ statusText r).

Definition start (s : S) (log : list js_error) : loop :=
  {| decoder := TextDecoder.create; buffer := [];
     sse_state := {| chunks := []; observer := s; console := log |} |}.

(** The [while (true)] loop over the successive results of
    [reader.read()]: the chunks [reads], then [last], which is [Done] or
    a rejection. *)
Fixpoint read_loop (reads : list (list byte)) (last : completion unit)
         (l : loop) : completion (list (json num)) * sse :=
  match reads with
  | value :: reads' =>
      match on_value value l with
      | (Normal _, l') => read_loop reads' last l'
      | (Throw e, l') => (Throw e, sse_state l')
      end
  | [] =>
      match last with
      | Normal _ => on_done l
      | Throw e => (Throw e, sse_state l)
      end
  end.

(** [consumeSseResponse(response, onChunk)], run on the state [s] of the
    callback; the result is the value or exception of the call together
    with the final state of the callback and console. *)
Definition consumeSseResponse (r : response) (reads : list (list byte))
           (last : completion unit) (s : S) (log : list js_error)
  : completion (list (json num)) * sse :=
  if negb (ok r) then
    (Throw (http_error r), sse_state (start s log))
  else if negb (readable r) then
    (Normal [], sse_state (start s log))
  else read_loop reads last (start s log).

(** [postSse(path, payload, onChunk, signal)]: [fetched] is the outcome of
    awaiting [fetch]. *)
Definition postSse (fetched : completion response)
           (reads : list (list byte)) (last : completion unit)
           (s : S) (log : list js_error)
  : completion (list (json num)) * sse :=
  match fetched with
  | Normal r => consumeSseResponse r reads last s log
  | Throw e => (Throw e, sse_state (start s log))
  end.

End Consumer.

Arguments sse : clear implicits.
Arguments loop : clear implicits.
Arguments callback : clear implicits.

(** ** Aggregators *)

Section Aggregators.
Context {num : Type} `{!JsNumber num}.

(** [v.k] for a value that came out of [toCamelDeep]. *)
Definition get_prop {S} (v : json num) (k : jsstring)
  : M S (option (json num)) :=
  match v with
  | JNull => throw (null_property_error k)
  | JObj props => ret (obj_get props k)
  | _ => ret None
  end.

(** [x === 'text']. *)
Definition is_string (x : option (json num)) (text : jsstring) : bool :=
  match x with
  | Some (JStr s) => bool_decide (s = text)
  | _ => false
  end.

Definition is_truthy (x : option (json num)) : bool :=
  match x with
  | Some v => truthy v
  | None => false
  end.

(** The caller's [onChunk]: given the events it has been called with, the
    last one being the current call, the exception that call raises.  It
    is code of the caller; it is taken to read the events it is handed
    without writing to them, and not to call [agentApi] back while it
    runs. *)
Definition listener : Type := list (json num) -> option js_error.

(** [if (typeof onChunk === 'function') onChunk(chunk)], on the list of
    deliveries made so far. *)
Definition deliver (onChunk : option listener) (chunk : json num)
  : M (list (json num)) unit :=
  fun delivered =>
    match onChunk with
    | Some f =>
        match f (delivered ++ [chunk]) with
        | Some e => (Throw e, delivered ++ [chunk])
        | None => (Normal tt, delivered ++ [chunk])
        end
    | None => (Normal tt, delivered)
    end.

(** *** [Set]

    An element is a value together with the event object it was read
    from.  [Set.prototype.add] compares with SameValueZero: primitives by
    value, objects and arrays by identity, and an object read from a
    property of an event is identified by that event. *)
Definition same_value_zero (a b : nat * json num) : bool :=
  match snd a, snd b with
  | JNull, JNull => true
  | JBool x, JBool y => Bool.eqb x y
  | JNum x, JNum y => num_same x y
  | JStr x, JStr y => bool_decide (x = y)
  | (JArr _ | JObj _), (JArr _ | JObj _) => Nat.eqb (fst a) (fst b)
  | _, _ => false
  end.

Definition set_add (s : list (nat * json num)) (x : nat * json num)
  : list (nat * json num) :=
  if existsb (same_value_zero x) s then s else s ++ [x].

(** *** [agentApi.runStream] *)

(** The variables of the async body and the deliveries made to the
    caller's [onChunk]. *)
Record agg := {
  toolsUsed : list (nat * json num);
  content : jsstring;
  usage : option (json num);
  delivered : list (json num)
}.

Definition agg_init : agg :=
  {| toolsUsed := []; content := []; usage := None; delivered := [] |}.

(** [content += v]. *)
Definition add_content (v : json num) : M agg unit :=
  match to_string v with
  | Some text =>
      modify (fun a => {| toolsUsed := toolsUsed a;
                          content := content a ++ text;
                          usage := usage a; delivered := delivered a |})
  | None => throw primitive_error
  end.

Definition add_tool (x : nat * json num) : M agg unit :=
  modify (fun a => {| toolsUsed := set_add (toolsUsed a) x;
                      content := content a;
                      usage := usage a; delivered := delivered a |}).

Definition set_usage (v : json num) : M agg unit :=
  modify (fun a => {| toolsUsed := toolsUsed a; content := content a;
                      usage := Some v; delivered := delivered a |}).

Definition call_listener (onChunk : option listener) (chunk : json num)
  : M agg unit :=
  fun a => let (r, d) := deliver onChunk chunk (delivered a) in
           (r, {| toolsUsed := toolsUsed a; content := content a;
                  usage := usage a; delivered := d |}).

(** [if (chunk.type === tag && chunk[field]) action(chunk[field])]. *)
Definition when_tagged (chunk : json num) (tag field : jsstring)
           (action : json num -> M agg unit) : M agg unit :=
  (do t <- get_prop chunk (js "type");;
   if is_string t tag then
     do x <- get_prop chunk field;;
     match x with
     | Some v => if truthy v then action v else ret tt
     | None => ret tt
     end
   else ret tt)%js.

(** The callback handed to [postSse]. *)
Definition agent_callback (onChunk : option listener) : callback num agg :=
  fun id chunk =>
    (do _ <- when_tagged chunk (js "content") (js "content") add_content;;
     do _ <- when_tagged chunk (js "tool_start") (js "toolName")
               (fun v => add_tool (id, v));;
     do _ <- when_tagged chunk (js "done") (js "usage") set_usage;;
     call_listener onChunk chunk)%js.

(** [for (const chunk of chunks) ...]: the second scan, on the same set. *)
Fixpoint rescan (id : nat) (chunks : list (json num)) : M agg unit :=
  match chunks with
  | [] => ret tt
  | chunk :: rest =>
      (do _ <- when_tagged chunk (js "tool_start") (js "toolName")
                 (fun v => add_tool (id, v));;
       rescan (S id) rest)%js
  end.

Inductive agent_result :=
| AgentSuccess (content : jsstring) (toolsUsed : list (json num))
               (toolRounds : nat) (totalUsage : option (json num))
| AgentFailure (error : jsstring).

(** The [catch] clause. *)
Definition agent_catch (error : js_error) : agent_result :=
  if bool_decide (err_name error = js "AbortError")
  then AgentFailure (js "aborted")
  else AgentFailure (err_message error).

(** What follows [await postSse(...)] in the [try] block. *)
Definition agent_finish (r : completion (list (json num)) * sse num agg)
  : agent_result * sse num agg :=
  match r with
  | (Normal received, st) =>
      let (r', a) := rescan 0 received (observer st) in
      let st' := {| chunks := chunks st; observer := a;
                    console := console st |} in
      match r' with
      | Normal _ =>
          (AgentSuccess (content a) (List.map snd (toolsUsed a))
                        (length (toolsUsed a)) (usage a), st')
      | Throw e => (agent_catch e, st')
      end
  | (Throw e, st) => (agent_catch e, st)
  end.

(** The async body of [runStream] for a whole exchange: the outcome of
    [fetch], the chunks read and how reading ended. *)
Definition runStream_body (onChunk : option listener)
           (fetched : completion response) (reads : list (list byte))
           (last : completion unit) : agent_result * sse num agg :=
  agent_finish
    (postSse (Some (agent_callback onChunk)) fetched reads last agg_init []).

(** *** [llmApi.chatStream] *)

Inductive chat_result :=
| ChatSuccess (content : jsstring)
| ChatFailure (error : jsstring).

(** [chunk.content || ''] for every chunk. *)
Fixpoint contents (chunks : list (json num))
  : completion (list (json num)) :=
  match chunks with
  | [] => Normal []
  | chunk :: rest =>
      match get_prop chunk (js "content") tt with
      | (Normal x, _) =>
          match contents rest with
          | Normal xs =>
              Normal ((if is_truthy x then default (JStr []) x
                       else JStr []) :: xs)
          | Throw e => Throw e
          end
      | (Throw e, _) => Throw e
      end
  end.

Definition chatStream (onChunk : option listener)
           (fetched : completion response) (reads : list (list byte))
           (last : completion unit)
  : chat_result * sse num (list (json num)) :=
  match postSse (Some (fun _ chunk => deliver onChunk chunk))
                fetched reads last [] [] with
  | (Normal chunks, st) =>
      match contents chunks with
      | Normal parts =>
          match all_some (List.map to_string parts) with
          | Some texts => (ChatSuccess (join [] texts), st)
          | None => (ChatFailure (err_message primitive_error), st)
          end
      | Throw e => (ChatFailure (err_message e), st)
      end
  | (Throw e, st) => (ChatFailure (err_message e), st)
  end.

End Aggregators.

Arguments listener : clear implicits.
Arguments agg : clear implicits.
Arguments agent_result : clear implicits.
Arguments chat_result : clear implicits.

(** ** Plain requests *)

Section Http.
Context {num : Type} `{!JsNumber num}.

Definition lift {S A} (c : completion A) : M S A := fun s => (c, s).

(** [httpRequest(method, path, data)] on the console: [fetched] is the
    outcome of awaiting [fetch], [parsed] that of [response.json()]. *)
Definition httpRequest (fetched : completion response)
           (parsed : completion (json num))
  : M (list js_error) (json num) :=
  try_catch
    (do response <- lift fetched;;
     if negb (ok response) then throw (http_error response)
     else lift parsed)%js
    (fun error =>
       (do _ <- modify (fun log => log ++ [error]);; throw error)%js).

End Http.

(** ** The registry of agent requests *)

Section Registry.
Context {num : Type} `{!JsNumber num}.

(** Where the async body of a [runStream] call is suspended. *)
Inductive phase :=
| AwaitFetch
| AwaitRead (l : loop num (agg num)).

Record request := {
  requestId : jsstring;
  onChunk : option (listener num);
  suspended : phase
}.

(** The page: the map [activeAgentRequests] from request ids to
    controllers, the controllers whose signal is aborted, the [runStream]
    bodies that have not returned yet and the results of those that have,
    the console, and the ids for which [Map.prototype.delete] removed an
    entry. *)
Record world := {
  activeAgentRequests : gmap (list N) nat;
  aborted : gset nat;
  pending : gmap nat request;
  settled : gmap nat (agent_result num);
  controllers : nat;
  removed : list (list N);
  logged : list js_error
}.

Definition page_load : world :=
  {| activeAgentRequests := ∅; aborted := ∅; pending := ∅; settled := ∅;
     controllers := 0; removed := []; logged := [] |}.

(** [activeAgentRequests.delete(id)]. *)
Definition registry_delete (id : jsstring) (w : world) : world :=
  match activeAgentRequests w !! id with
  | Some _ =>
      {| activeAgentRequests := delete id (activeAgentRequests w);
         aborted := aborted w; pending := pending w; settled := settled w;
         controllers := controllers w; removed := removed w ++ [id];
         logged := logged w |}
  | None => w
  end.

(** The synchronous part of [agentApi.runStream]: [id] is the value of
    [randomId('agent')], and [payload] the outcome of evaluating the object
    literal that is sent to the server, which reads [context] and throws a
    TypeError when [context] is [null].  The entry is set before the
    literal is evaluated and the async body is started after it.  The
    result is the new controller, which also names the promise. *)
Definition runStream (id : jsstring) (payload : completion unit)
           (f : option (listener num)) (w : world)
  : completion nat * world :=
  let c := controllers w in
  match payload with
  | Normal _ =>
      (Normal c,
       {| activeAgentRequests := <[id := c]> (activeAgentRequests w);
          aborted := aborted w;
          pending := <[c := {| requestId := id; onChunk := f;
                               suspended := AwaitFetch |}]> (pending w);
          settled := settled w;
          controllers := S c; removed := removed w; logged := logged w |})
  | Throw e =>
      (Throw e,
       {| activeAgentRequests := <[id := c]> (activeAgentRequests w);
          aborted := aborted w; pending := pending w; settled := settled w;
          controllers := S c; removed := removed w; logged := logged w |})
  end.

(** The body returns [result]; the [finally] clause runs. *)
Definition settle (c : nat) (req : request) (result : agent_result num)
           (log : list js_error) (w : world) : world :=
  registry_delete (requestId req)
    {| activeAgentRequests := activeAgentRequests w;
       aborted := aborted w;
       pending := delete c (pending w);
       settled := <[c := result]> (settled w);
       controllers := controllers w; removed := removed w;
       logged := logged w ++ log |}.

Definition suspend (c : nat) (req : request) (l : loop num (agg num))
           (w : world) : world :=
  {| activeAgentRequests := activeAgentRequests w;
     aborted := aborted w;
     pending := <[c := {| requestId := requestId req;
                          onChunk := onChunk req;
                          suspended := AwaitRead l |}]> (pending w);
     settled := settled w;
     controllers := controllers w; removed := removed w;
     logged := logged w |}.

(** What the platform hands to a suspended body. *)
Inductive input :=
| Fetched (r : completion response)
| Read (r : read_result).

(** The body of controller [c] resumes with [i], the outcome of the
    promise it awaits.  The body never looks at the signal of its
    controller: an abort reaches it only through the outcome the platform
    gives to the [fetch] or the read it awaits, a rejection with an
    AbortError when that one was still pending at the abort, and what it
    had been fulfilled with otherwise. *)
Definition resume (c : nat) (i : input) (w : world) : world :=
  match pending w !! c with
  | None => w
  | Some req =>
      let cb := Some (agent_callback (onChunk req)) in
      match suspended req, i with
      | AwaitFetch, Fetched (Throw e) => settle c req (agent_catch e) [] w
      | AwaitFetch, Fetched (Normal r) =>
          if negb (ok r) then
            settle c req (agent_catch (http_error r)) [] w
          else if negb (readable r) then
            let (res, st) :=
              agent_finish (Normal [], sse_state (start agg_init [])) in
            settle c req res (console st) w
          else suspend c req (start agg_init []) w
      | AwaitRead l, Read (Value value) =>
          match on_value cb value l with
          | (Normal _, l') => suspend c req l' w
          | (Throw e, l') =>
              settle c req (agent_catch e) (console (sse_state l')) w
          end
      | AwaitRead l, Read Done =>
          let (res, st) := agent_finish (on_done cb l) in
          settle c req res (console st) w
      | AwaitRead l, Read (ReadError e) =>
          settle c req (agent_catch e) (console (sse_state l)) w
      | _, _ => w
      end
  end.

(** What the platform hands to a body whose [fetch] or read was still
    pending when the signal of its controller was aborted: the rejection
    of the awaited promise with [e], an AbortError. *)
Definition cancellation (p : phase) (e : js_error) : input :=
  match p with
  | AwaitFetch => Fetched (Throw e)
  | AwaitRead _ => Read (ReadError e)
  end.

(** [agentApi.abort(requestId)]; [fetched] and [parsed] are the outcomes
    of the notification's [fetch] and [response.json()].  The path of the
    notification is built with [encodeURIComponent(requestId)], which
    throws on a string with a lone surrogate; no request is made then. *)
Definition abort (id : jsstring) (fetched : completion response)
           (parsed : completion (json num)) (w : world)
  : completion (json num) * world :=
  let w1 :=
    match activeAgentRequests w !! id with
    | Some controller =>
        registry_delete id
          {| activeAgentRequests := activeAgentRequests w;
             aborted := {[controller]} ∪ aborted w;
             pending := pending w; settled := settled w;
             controllers := controllers w; removed := removed w;
             logged := logged w |}
    | None => w
    end in
  let (r, log) :=
    if well_formed_utf16 id then httpRequest fetched parsed (logged w1)
    else (Throw URIError, logged w1) in
  (r, {| activeAgentRequests := activeAgentRequests w1;
         aborted := aborted w1; pending := pending w1;
         settled := settled w1; controllers := controllers w1;
         removed := removed w1; logged := log |}).

(** What happens on the page, one event at a time. *)
Inductive event :=
| CallRunStream (id : jsstring) (payload : completion unit)
                (f : option (listener num))
| Resume (c : nat) (i : input)
| CallAbort (id : jsstring) (fetched : completion response)
            (parsed : completion (json num)).

Definition step (w : world) (e : event) : world :=
  match e with
  | CallRunStream id payload f => snd (runStream id payload f w)
  | Resume c i => resume c i w
  | CallAbort id fetched parsed => snd (abort id fetched parsed w)
  end.

Definition run (w : world) (es : list event) : world := fold_left step es w.

(** The event is a [runStream] call that draws the id [id]. *)
Definition draws (id : jsstring) (e : event) : bool :=
  match e with
  | CallRunStream id' _ _ => bool_decide (id' = id)
  | _ => false
  end.

Definition resumes (c : nat) (e : event) : bool :=
  match e with
  | Resume c' _ => bool_decide (c' = c)
  | _ => false
  end.

(** The event is a call of [abort] on the id [id]. *)
Definition aborts (id : jsstring) (e : event) : bool :=
  match e with
  | CallAbort id' _ _ => bool_decide (id' = id)
  | _ => false
  end.

End Registry.

Arguments phase : clear implicits.
Arguments request : clear implicits.
Arguments world : clear implicits.
Arguments event : clear implicits.

(** ** The other helpers of the shim *)

(** *** Request paths and queries *)

(** The scalar values of a string: a surrogate pair is one code point, and
    a surrogate that stands alone becomes U+FFFD, as in the conversion of
    a string to a USVString. *)
Fixpoint scalar_values (s : jsstring) : list N :=
  match s with
  | [] => []
  | c :: rest =>
      if is_high_surrogate c then
        match rest with
        | d :: rest' =>
            if is_low_surrogate d
            then (0x10000 + (c - 0xD800) * 0x400 + (d - 0xDC00))
                 :: scalar_values rest'
            else 0xFFFD :: scalar_values rest
        | [] => [0xFFFD]
        end
      else if is_low_surrogate c then 0xFFFD :: scalar_values rest
      else c :: scalar_values rest
  end.

(** The UTF-8 encoding of a scalar value, one number per octet. *)
Definition utf8_bytes (cp : N) : list N :=
  if cp <? 0x80 then [cp]
  else if cp <? 0x800 then [0xC0 + cp / 0x40; 0x80 + cp mod 0x40]
  else if cp <? 0x10000 then
    [0xE0 + cp / 0x1000; 0x80 + (cp / 0x40) mod 0x40; 0x80 + cp mod 0x40]
  else
    [0xF0 + cp / 0x40000; 0x80 + (cp / 0x1000) mod 0x40;
     0x80 + (cp / 0x40) mod 0x40; 0x80 + cp mod 0x40].

Definition hex_digit (n : N) : N := if n <? 10 then 48 + n else 55 + n.

(** An octet as [%XX], in upper-case hexadecimal: its high and its low
    four bits. *)
Definition percent_byte (b : N) : jsstring :=
  [37; hex_digit ((b / 16) mod 16); hex_digit (b mod 16)].

Definition is_alphanumeric (c : N) : bool :=
  (48 <=? c) && (c <=? 57) || (65 <=? c) && (c <=? 90)
  || (97 <=? c) && (c <=? 122).

(** The characters [encodeURIComponent] leaves alone: letters, digits and
    [- _ . ! ~ * ' ( )]. *)
Definition uri_unreserved (c : N) : bool :=
  is_alphanumeric c
  || (c =? 45) || (c =? 95) || (c =? 46) || (c =? 33) || (c =? 126)
  || (c =? 42) || (c =? 39) || (c =? 40) || (c =? 41).

Definition encode_point (cp : N) : jsstring :=
  if uri_unreserved cp then [cp]
  else flat_map percent_byte (utf8_bytes cp).

(** [encodeURIComponent(s)]; [None] stands for the URIError it throws on a
    surrogate that stands alone. *)
Definition encodeURIComponent (s : jsstring) : option jsstring :=
  if well_formed_utf16 s then Some (flat_map encode_point (scalar_values s))
  else None.

(** The path [agentApi.abort] posts to. *)
Definition abort_path (requestId : jsstring) : option jsstring :=
  (fun id => js "/agent/abort/" ++ id) <$> encodeURIComponent requestId.

(** The path of the URL a request is sent to.  [httpRequest] hands
    [fetch] the string [/api] followed by the path it is given, which the
    URL parser resolves against the address of the page, of an [http] or
    [https] scheme: a string that starts with one slash keeps the host of
    the page and is read by the parser's path state.  There a slash or a
    backslash ends a segment, a question mark or a hash ends the path, the
    segment [.] is dropped and the segment [..] takes away the segment
    before it, both also when they are spelled with [%2e] in either case,
    and the characters of the path percent-encode set are escaped. *)
Definition lower_ascii (c : N) : N :=
  if (65 <=? c) && (c <=? 90) then c + 32 else c.

Definition single_dot (segment : jsstring) : bool :=
  bool_decide (List.map lower_ascii segment ∈ [js "."; js "%2e"]).

Definition double_dot (segment : jsstring) : bool :=
  bool_decide (List.map lower_ascii segment
               ∈ [js ".."; js ".%2e"; js "%2e."; js "%2e%2e"]).

Definition path_encode_set (c : N) : bool :=
  (c <=? 0x1F) || (0x7E <? c)
  || bool_decide (c ∈ [32; 34; 35; 60; 62; 63; 94; 96; 123; 125]).

Definition path_char (c : N) : jsstring :=
  if path_encode_set c then flat_map percent_byte (utf8_bytes c) else [c].

(** The end of a segment; [last] tells that no slash follows it. *)
Definition close_segment (segment : jsstring) (last : bool)
           (path : list jsstring) : list jsstring :=
  if double_dot segment then
    if last then removelast path ++ [[]] else removelast path
  else if single_dot segment then
    if last then path ++ [[]] else path
  else path ++ [segment].

Fixpoint path_state (input : list N) (segment : jsstring)
         (path : list jsstring) : list jsstring :=
  match input with
  | [] => close_segment segment true path
  | c :: rest =>
      if (c =? 47) || (c =? 92)
      then path_state rest [] (close_segment segment false path)
      else if (c =? 63) || (c =? 35) then close_segment segment true path
      else path_state rest (segment ++ path_char c) path
  end.

(** The segments of the path of the URL a string stands for, when it
    starts with one slash and holds no space and no control character
    (those the parser strips or escapes, depending on where they stand);
    [None] for the strings this account leaves out. *)
Definition url_path (url : jsstring) : option (list jsstring) :=
  if forallb (fun c => 32 <? c) (scalar_values url) then
    match scalar_values url with
    | 47 :: rest =>
        match rest with
        | 47 :: _ | 92 :: _ => None
        | _ => Some (path_state rest [] [])
        end
    | _ => None
    end
  else None.

(** The octets the serializer of [URLSearchParams] leaves alone: letters,
    digits and [* - . _]; a space becomes [+]. *)
Definition form_safe (b : N) : bool :=
  is_alphanumeric b || (b =? 42) || (b =? 45) || (b =? 46) || (b =? 95).

Definition form_byte (b : N) : jsstring :=
  if b =? 32 then [43]
  else if form_safe b then [b]
  else percent_byte b.

Definition form_encode (text : list N) : jsstring :=
  flat_map form_byte (flat_map utf8_bytes text).

(** A [URLSearchParams] object: its list of name-value pairs, each a
    sequence of scalar values. *)
Definition search_params : Type := list (list N * list N).

Definition params_append (query : search_params) (name value : jsstring)
  : search_params :=
  query ++ [(scalar_values name, scalar_values value)].

(** [query.set(name, value)]: the first pair of that name takes the value
    and the others of that name go; without such a pair, [append]. *)
Fixpoint set_first (name value : list N) (query : search_params)
  : search_params :=
  match query with
  | [] => []
  | (n, v) :: rest =>
      if bool_decide (n = name)
      then (name, value)
           :: List.filter (fun p => negb (bool_decide (fst p = name))) rest
      else (n, v) :: set_first name value rest
  end.

Definition params_set (query : search_params) (name value : jsstring)
  : search_params :=
  if existsb (fun p => bool_decide (fst p = scalar_values name)) query
  then set_first (scalar_values name) (scalar_values value) query
  else params_append query name value.

(** [query.toString()]. *)
Definition params_toString (query : search_params) : jsstring :=
  join [38]
    (List.map (fun p => form_encode (fst p) ++ [61] ++ form_encode (snd p))
              query).

Section Helpers.
Context {num : Type} `{!JsNumber num}.

(** [String(v)]. *)
Definition String_of {S} (v : json num) : M S jsstring :=
  match to_string v with
  | Some text => ret text
  | None => throw primitive_error
  end.

Fixpoint forEach {S A} (f : A -> M S unit) (l : list A) : M S unit :=
  match l with
  | [] => ret tt
  | x :: l' => (do _ <- f x;; forEach f l')%js
  end.

Definition toQuery_item (key : jsstring) (item : json num)
  : M search_params unit :=
  match item with
  | JNull => ret tt
  | _ => (do text <- String_of item;;
          modify (fun query => params_append query key text))%js
  end.

Definition toQuery_entry (entry : jsstring * option (json num))
  : M search_params unit :=
  match snd entry with
  | None | Some JNull => ret tt
  | Some (JArr items) => forEach (toQuery_item (fst entry)) items
  | Some value =>
      (do text <- String_of value;;
       modify (fun query => params_set query (fst entry) text))%js
  end.

(** [toQuery(params)]: [params] is the list of the own properties of the
    object, in the order of [Object.entries], [None] standing for a
    property that holds [undefined]. *)
Definition toQuery (params : list (jsstring * option (json num)))
  : completion jsstring :=
  match forEach toQuery_entry params [] with
  | (Normal _, query) =>
      let text := params_toString query in
      Normal (if bool_decide (text = []) then [] else 63 :: text)
  | (Throw e, _) => Throw e
  end.

(** [Object.entries(v)] for the objects the shim hands to [toQuery]: those
    of an object literal, whose properties come in the order they are
    written.  (A number or a boolean has no entries; an array or a string,
    whose entries are its elements, is never passed there.) *)
Definition entries (v : json num) : list (jsstring * option (json num)) :=
  match v with
  | JObj props => List.map (fun kv => (fst kv, Some (snd kv))) props
  | _ => []
  end.

(** [v.k] for a value that is neither [null] nor [undefined] and a name
    that no prototype defines, as [startTs], [endTs] and [content]: an own
    property of an object, and [undefined] otherwise. *)
Definition property_of (v : json num) (k : jsstring) : option (json num) :=
  match v with
  | JObj props => obj_get props k
  | _ => None
  end.

(** [x ?? d]. *)
Definition nullish (x : option (json num)) (d : json num) : json num :=
  match x with
  | None | Some JNull => d
  | Some v => v
  end.

(** [normalizeTimeFilter(filter)] for a filter that is a plain value, as
    [JSON.parse] makes them; [None] stands for [undefined]. *)
Definition normalizeTimeFilter (filter : option (json num)) : json num :=
  match filter with
  | Some value =>
      if negb (truthy value) then JObj []
      else
        let f := toCamelDeep value in
        JObj [(js "start_ts", nullish (property_of f (js "startTs")) JNull);
              (js "end_ts", nullish (property_of f (js "endTs")) JNull)]
  | None => JObj []
  end.

(** *** Aliases *)

(** [typeof x === 'string']. *)
Definition is_string_value (x : json num) : bool :=
  match x with
  | JStr _ => true
  | _ => false
  end.

(** [parseAliases(value)]; [None] stands for [undefined]. *)
Definition parseAliases (value : option (json num)) : list (json num) :=
  match value with
  | Some (JArr items) => List.filter is_string_value items
  | Some (JStr text) =>
      match JSON_parse text with
      | Some (JArr parsed) => List.filter is_string_value parsed
      | Some _ => []
      | None => []
      end
  | _ => []
  end.

(** *** The import progress snapshot *)

(** The text of the data lines of a whole response body. *)
Definition dataLine (text : jsstring) : jsstring :=
  join [LF]
    (List.map (fun line => trim (slice_from 5 line))
       (List.filter (fun line => startsWith line (js "data:"))
                    (split_lines text))).

(** [readImportProgressSnapshot()]: [fetched] is the outcome of awaiting
    [fetch] and [body] that of awaiting [response.text()]; the result
    [null] is [JNull]. *)
Definition readImportProgressSnapshot (fetched : completion response)
           (body : completion jsstring) : completion (json num) :=
  match fetched with
  | Normal response =>
      if negb (ok response) then Throw (http_error response)
      else
        match body with
        | Normal text =>
            if bool_decide (dataLine text = []) then Normal JNull
            else match JSON_parse (dataLine text) with
                 | Some v => Normal v
                 | None => Normal JNull
                 end
        | Throw e => Throw e
        end
  | Throw e => Throw e
  end.

(** *** Subscriptions *)

(** The async body started by [subscribeSse(path, onChunk)], for a whole
    exchange: the state of the callback and the console when it ends.  The
    function [subscribeSse] returns aborts the controller, which makes the
    pending [fetch] or read reject with an AbortError. *)
Definition subscribeSse {S} (onChunk : option (callback num S))
           (fetched : completion response) (reads : list (list byte))
           (last : completion unit) (s : S) (log : list js_error)
  : sse num S :=
  let (r, st) :=
    match fetched with
    | Normal response => consumeSseResponse onChunk response reads last s log
    | Throw e => (Throw e, sse_state (start s log))
    end in
  match r with
  | Normal _ => st
  | Throw error =>
      if bool_decide (err_name error = js "AbortError") then st
      else {| chunks := chunks st; observer := observer st;
              console := console st ++ [error] |}
  end.

(** [aiApi.onExportProgress(onProgress)]. *)
Definition onExportProgress (onProgress : option (listener num))
           (fetched : completion response) (reads : list (list byte))
           (last : completion unit) : sse num (list (json num)) :=
  subscribeSse (Some (fun _ chunk => deliver onProgress chunk))
    fetched reads last [] [].

End Helpers.
(** An exact decimal implementation of the number interface: a number is
    [(-1)^negative * coefficient * 10^exponent] with no trailing zero in the
    coefficient.  It agrees with binary64 on every integer of magnitude below
    2^53 and is used to run the definitions on concrete streams. *)
Module Decimal.

Record t := { negative : bool; coefficient : N; exponent : Z }.

Record reader := {
  r_negative : bool; r_coefficient : N; r_fraction : N;
  r_in_fraction : bool; r_in_exponent : bool;
  r_exp_negative : bool; r_exp : N
}.

Definition reader_init : reader :=
  {| r_negative := false; r_coefficient := 0; r_fraction := 0;
     r_in_fraction := false; r_in_exponent := false;
     r_exp_negative := false; r_exp := 0 |}.

Definition read_char (r : reader) (c : N) : reader :=
  if c =? 45 then
    if r_in_exponent r
    then {| r_negative := r_negative r; r_coefficient := r_coefficient r;
            r_fraction := r_fraction r; r_in_fraction := r_in_fraction r;
            r_in_exponent := true; r_exp_negative := true; r_exp := r_exp r |}
    else {| r_negative := true; r_coefficient := r_coefficient r;
            r_fraction := r_fraction r; r_in_fraction := r_in_fraction r;
            r_in_exponent := false; r_exp_negative := false; r_exp := r_exp r |}
  else if c =? 43 then r
  else if c =? 46 then
    {| r_negative := r_negative r; r_coefficient := r_coefficient r;
       r_fraction := r_fraction r; r_in_fraction := true;
       r_in_exponent := r_in_exponent r;
       r_exp_negative := r_exp_negative r; r_exp := r_exp r |}
  else if (c =? 101) || (c =? 69) then
    {| r_negative := r_negative r; r_coefficient := r_coefficient r;
       r_fraction := r_fraction r; r_in_fraction := r_in_fraction r;
       r_in_exponent := true;
       r_exp_negative := r_exp_negative r; r_exp := r_exp r |}
  else if r_in_exponent r then
    {| r_negative := r_negative r; r_coefficient := r_coefficient r;
       r_fraction := r_fraction r; r_in_fraction := r_in_fraction r;
       r_in_exponent := true; r_exp_negative := r_exp_negative r;
       r_exp := r_exp r * 10 + (c - 48) |}
  else
    {| r_negative := r_negative r;
       r_coefficient := r_coefficient r * 10 + (c - 48);
       r_fraction := if r_in_fraction r then r_fraction r + 1
                     else r_fraction r;
       r_in_fraction := r_in_fraction r; r_in_exponent := false;
       r_exp_negative := r_exp_negative r; r_exp := r_exp r |}.

Fixpoint strip_zeros (fuel : nat) (c : N) (e : Z) : N * Z :=
  match fuel with
  | O => (c, e)
  | S fuel' =>
      if (c mod 10 =? 0) && negb (c =? 0)
      then strip_zeros fuel' (c / 10) (e + 1)%Z
      else (c, e)
  end.

Definition normalise (neg : bool) (c : N) (e : Z) : t :=
  if c =? 0 then {| negative := false; coefficient := 0; exponent := 0 |}
  else let (c', e') := strip_zeros (S (N.to_nat (N.log2 c))) c e in
       {| negative := neg; coefficient := c'; exponent := e' |}.

Definition of_literal (lexeme : jsstring) : t :=
  let r := fold_left read_char lexeme reader_init in
  let e := if r_exp_negative r then Z.opp (Z.of_N (r_exp r))
           else Z.of_N (r_exp r) in
  normalise (r_negative r) (r_coefficient r) (e - Z.of_N (r_fraction r))%Z.

Definition is_truthy (x : t) : bool := negb (coefficient x =? 0).

Definition same (x y : t) : bool :=
  Bool.eqb (negative x) (negative y)
  && (coefficient x =? coefficient y)
  && (exponent x =? exponent y)%Z.

Definition show (x : t) : jsstring :=
  let sign := if negative x then js "-" else [] in
  let digits := decimal (coefficient x) in
  match exponent x with
  | Z0 => sign ++ digits
  | Zpos p => sign ++ digits ++ replicate (Pos.to_nat p) 48
  | Zneg p =>
      let k := Pos.to_nat p in
      let n := length digits in
      if (k <? n)%nat
      then sign ++ take (n - k) digits ++ js "." ++ drop (n - k) digits
      else sign ++ js "0." ++ replicate (k - n) 48 ++ digits
  end.

Lemma same_refl (x : t) : same x x = true.
Proof.
  unfold same. rewrite Bool.eqb_reflx, N.eqb_refl, Z.eqb_refl. reflexivity.
Qed.

Definition number : JsNumber t :=
  {| num_of_literal := of_literal; num_truthy := is_truthy;
     num_same := same; num_to_string := show;
     num_same_refl := same_refl |}.

End Decimal.


(** * Properties *)

(** ** Key normalisation *)

(** A key is in camel form when no underscore is followed by a lower-case
    letter, that is, when the pattern of [snakeToCamel] has no match. *)
Fixpoint has_snake (key : jsstring) : bool :=
  match key with
  | [] => false
  | c :: rest =>
      match rest with
      | d :: _ => ((c =? UNDERSCORE) && is_lower d) || has_snake rest
      | [] => false
      end
  end.






Section JsonInduction.
Context {num : Type}.
Variable P : json num -> Prop.
Hypothesis Hnull : P JNull.
Hypothesis Hbool : forall b, P (JBool b).
Hypothesis Hnum : forall n, P (JNum n).
Hypothesis Hstr : forall s, P (JStr s).
Hypothesis Harr : forall items, Forall P items -> P (JArr items).
Hypothesis Hobj :
  forall props, Forall (fun kv => P (snd kv)) props -> P (JObj props).

Fixpoint json_nested_ind (v : json num) : P v :=
  match v with
  | JNull => Hnull
  | JBool b => Hbool b
  | JNum n => Hnum n
  | JStr s => Hstr s
  | JArr items =>
      Harr items
        ((fix all (l : list (json num)) : Forall P l :=
            match l with
            | [] => List.Forall_nil P
            | x :: l' => @List.Forall_cons _ P x l' (json_nested_ind x) (all l')
            end) items)
  | JObj props =>
      Hobj props
        ((fix all (l : list (jsstring * json num))
            : Forall (fun kv => P (snd kv)) l :=
            match l with
            | [] => List.Forall_nil _
            | kv :: l' =>
                @List.Forall_cons _ (fun kv => P (snd kv)) kv l'
                  (json_nested_ind (snd kv)) (all l')
            end) props)
  end.
End JsonInduction.

Section Keys.
Context {num : Type} `{!JsNumber num}.


Lemma snakeToCamel_cons2 c d rest :
  snakeToCamel (c :: d :: rest) =
    if (c =? UNDERSCORE) && is_lower d
    then toUpperCase d :: snakeToCamel rest
    else c :: snakeToCamel (d :: rest).
Proof. reflexivity. Qed.

Lemma has_snake_cons2 c d rest :
  has_snake (c :: d :: rest) =
    ((c =? UNDERSCORE) && is_lower d) || has_snake (d :: rest).
Proof. reflexivity. Qed.

Lemma upper_not_lower d : is_lower d = true -> is_lower (toUpperCase d) = false.
Proof.
  unfold is_lower, toUpperCase. intros [H1 H2]%andb_prop.
  apply N.leb_le in H1, H2. apply andb_false_iff. left.
  apply N.leb_gt. lia.
Qed.

Lemma upper_not_underscore d :
  is_lower d = true -> (toUpperCase d =? UNDERSCORE) = false.
Proof.
  unfold is_lower, toUpperCase, UNDERSCORE. intros [H1 H2]%andb_prop.
  apply N.leb_le in H1, H2. apply N.eqb_neq. lia.
Qed.

(** Induction two characters at a time, as [snakeToCamel] recurses. *)
Lemma pairwise_ind (Q : jsstring -> Prop) :
  Q [] -> (forall c, Q [c]) ->
  (forall c d rest, Q rest -> Q (d :: rest) -> Q (c :: d :: rest)) ->
  forall s, Q s.
Proof.
  intros H0 H1 H2 s.
  assert (H : Q s /\ forall c, Q (c :: s)); [|apply H].
  induction s as [|d s [IH1 IH2]]; split; auto.
Qed.

(** The first character of the result is the first character of the key
    unless a match starts there. *)
Lemma snakeToCamel_head (key : jsstring) h out :
  snakeToCamel key = h :: out ->
  is_lower h = true \/ h = UNDERSCORE ->
  exists rest, key = h :: rest.
Proof.
  destruct key as [|c [|d rest]]; simpl; try discriminate.
  - intros [= -> <-] _. eauto.
  - destruct ((c =? UNDERSCORE) && is_lower d) eqn:E.
    + intros [= <- <-] [Hl | Hu].
      * apply andb_prop in E as [_ E].
        rewrite (upper_not_lower _ E) in Hl. discriminate.
      * apply andb_prop in E as [_ E].
        apply upper_not_underscore in E. rewrite Hu in E.
        discriminate.
    + intros [= <- <-] _. eauto.
Qed.

Lemma snakeToCamel_normal (key : jsstring) :
  has_snake (snakeToCamel key) = false.
Proof.
  induction key as [| c | c d rest IH1 IH2] using pairwise_ind;
    try reflexivity.
  rewrite snakeToCamel_cons2.
  destruct ((c =? UNDERSCORE) && is_lower d) eqn:E.
  - destruct (snakeToCamel rest) as [|h out] eqn:Er; [reflexivity|].
    rewrite has_snake_cons2, IH1, orb_false_r.
    apply andb_prop in E as [_ E].
    rewrite (upper_not_underscore _ E). reflexivity.
  - destruct (snakeToCamel (d :: rest)) as [|h out] eqn:Er; [reflexivity|].
    rewrite has_snake_cons2, IH2, orb_false_r.
    destruct (c =? UNDERSCORE) eqn:Ec; [|reflexivity].
    simpl in E. simpl. destruct (is_lower h) eqn:Eh; [|reflexivity].
    destruct (snakeToCamel_head _ _ _ Er (or_introl Eh)) as [r' [= -> _]].
    congruence.
Qed.

(** In particular no key is ever rebuilt under the name [__proto__], whose
    assignment would set the prototype of [out] instead of a property. *)
Lemma snakeToCamel_not_proto (key : jsstring) :
  snakeToCamel key <> js "__proto__".
Proof.
  intros H. pose proof (snakeToCamel_normal key) as Hn.
  rewrite H in Hn. vm_compute in Hn. discriminate.
Qed.

Lemma camel_fixed (key : jsstring) :
  has_snake key = false -> snakeToCamel key = key.
Proof.
  induction key as [| c | c d rest IH1 IH2] using pairwise_ind;
    try reflexivity.
  rewrite has_snake_cons2, snakeToCamel_cons2.
  intros [-> H]%orb_false_elim. rewrite (IH2 H). reflexivity.
Qed.





Lemma obj_set_elem props (k : jsstring) (v : json num) kv :
  kv ∈ obj_set props k v -> kv ∈ props \/ kv = (k, v).
Proof.
  induction props as [|[k' v'] props IH]; simpl.
  - intros ->%list_elem_of_singleton. by right.
  - destruct (bool_decide (k' = k)).
    + intros [->|Hin]%elem_of_cons; [by right|]. left. by right.
    + intros [->|Hin]%elem_of_cons; [left; left|].
      destruct (IH Hin); [left; by right | by right].
Qed.

Lemma fold_obj_set_elem (kvs acc : list (jsstring * json num)) kv :
  kv ∈ fold_left (fun out kv => obj_set out (fst kv) (snd kv)) kvs acc ->
  kv ∈ acc \/ kv ∈ kvs.
Proof.
  revert acc. induction kvs as [|[k v] kvs IH]; intros acc; simpl.
  - by left.
  - intros [H | H]%IH; [|right; by right].
    apply obj_set_elem in H as [H | ->]; [by left|]. right. left.
Qed.




(** The value a property lookup finds in a rebuilt object. *)
Lemma obj_get_set (props : list (jsstring * json num)) k v k' :
  obj_get (obj_set props k v) k' =
    if bool_decide (k = k') then Some v else obj_get props k'.
Proof.
  induction props as [|[k0 v0] props IH]; simpl.
  - repeat case_bool_decide; congruence.
  - destruct (bool_decide (k0 = k)) eqn:E; simpl.
    + apply bool_decide_eq_true in E as ->. by case_bool_decide.
    + apply bool_decide_eq_false in E. rewrite IH.
      repeat case_bool_decide; congruence.
Qed.

(** The value of the last property whose name normalises to [key]. *)
Fixpoint last_named (key : jsstring) (props : list (jsstring * json num))
  : option (json num) :=
  match props with
  | [] => None
  | kv :: rest =>
      match last_named key rest with
      | Some v => Some v
      | None =>
          if bool_decide (snakeToCamel (fst kv) = key) then Some (snd kv)
          else None
      end
  end.

Lemma rebuild_get (props acc : list (jsstring * json num)) key :
  obj_get
    (fold_left (fun out kv => obj_set out (fst kv) (snd kv))
       (List.map (fun kv => (snakeToCamel (fst kv), toCamelDeep (snd kv)))
                 props) acc) key
  = match last_named key props with
    | Some v => Some (toCamelDeep v)
    | None => obj_get acc key
    end.
Proof.
  revert acc. induction props as [|[k v] props IH]; intros acc;
    [reflexivity|].
  cbn [List.map fold_left last_named fst snd]. rewrite IH.
  destruct (last_named key props); [reflexivity|].
  rewrite obj_get_set. by destruct (bool_decide (snakeToCamel k = key)).
Qed.

Lemma toCamelDeep_get (props : list (jsstring * json num)) key :
  exists out, toCamelDeep (JObj props) = JObj out
              /\ obj_get out key = (toCamelDeep <$> last_named key props).
Proof.
  eexists. split; [reflexivity|]. rewrite rebuild_get.
  by destruct (last_named key props).
Qed.


End Keys.

(** ** The record decoder *)

Section Decoder.
Context {num : Type} `{!JsNumber num}.

(** The event a record decodes to, if any. *)
Definition decode (block : jsstring) : option (json num) :=
  if bool_decide (block = []) then None
  else if bool_decide (dataText block = []) then None
  else Some (toCamelDeep
               (default (JObj [(js "content", JStr (dataText block))])
                        (JSON_parse (dataText block)))).

(** The state after an event has been appended to [chunks] and handed to
    the callback. *)
Definition notify {S} (onChunk : option (callback num S)) (e : json num)
           (st : sse num S) : sse num S :=
  match onChunk with
  | Some f =>
      match f (length (chunks st)) e (observer st) with
      | (Normal _, o) =>
          {| chunks := chunks st ++ [e]; observer := o;
             console := console st |}
      | (Throw err, o) =>
          {| chunks := chunks st ++ [e]; observer := o;
             console := console st ++ [err] |}
      end
  | None =>
      {| chunks := chunks st ++ [e]; observer := observer st;
         console := console st |}
  end.

Lemma emitBlock_eq {S} (onChunk : option (callback num S)) block st :
  emitBlock onChunk block st
  = (Normal tt, match decode block with
                | Some e => notify onChunk e st
                | None => st
                end).
Proof.
  unfold emitBlock, decode.
  destruct (bool_decide (block = [])); [reflexivity|].
  destruct (bool_decide (dataText block = [])); [reflexivity|].
  unfold bind, try_catch, JSON_parse_or_throw, gets, push, modify, notify,
    call_observer, console_error, ret, throw.
  destruct (JSON_parse (dataText block)) as [v|]; simpl;
    (destruct onChunk as [f|]; [|reflexivity]);
    simpl; destruct st as [cs o log]; simpl;
    by destruct (f (length cs) _ o) as [[[]|err] o'].
Qed.

Lemma chunks_notify {S} (onChunk : option (callback num S)) e st :
  chunks (notify onChunk e st) = chunks st ++ [e].
Proof.
  unfold notify. destruct onChunk as [f|]; [|reflexivity].
  by destruct (f _ _ _) as [[] ?].
Qed.

(** *** Lines *)

Lemma split_lines_aux_line (cur line rest : jsstring) :
  LF ∉ line ->
  split_lines_aux cur (line ++ LF :: rest)
  = (reverse cur ++ line) :: split_lines_aux [] rest.
Proof.
  revert cur. induction line as [|c line IH]; intros cur Hl; simpl.
  - by rewrite app_nil_r.
  - destruct (c =? LF) eqn:E.
    + apply N.eqb_eq in E as ->. exfalso. apply Hl. left.
    + rewrite IH by (intros ?; apply Hl; by right).
      by rewrite reverse_cons, <- app_assoc.
Qed.

Lemma split_lines_aux_last (cur line : jsstring) :
  LF ∉ line -> split_lines_aux cur line = [reverse cur ++ line].
Proof.
  revert cur. induction line as [|c line IH]; intros cur Hl; simpl.
  - by rewrite app_nil_r.
  - destruct (c =? LF) eqn:E.
    + apply N.eqb_eq in E as ->. exfalso. apply Hl. left.
    + rewrite IH by (intros ?; apply Hl; by right).
      by rewrite reverse_cons, <- app_assoc.
Qed.

Lemma split_lines_join (lines : list jsstring) :
  lines <> [] -> Forall (fun l => LF ∉ l) lines ->
  split_lines (join [LF] lines) = lines.
Proof.
  intros Hne Hall. unfold split_lines.
  induction Hall as [|l ls Hl Hls IH]; [done|].
  destruct ls as [|l' ls].
  - simpl. by rewrite split_lines_aux_last.
  - change (join [LF] (l :: l' :: ls))
      with (l ++ LF :: join [LF] (l' :: ls)).
    rewrite split_lines_aux_line by done. by rewrite IH.
Qed.

(** A line of a record, seen as the wire format describes it: a data line
    is the prefix, some white space and a payload that starts with none;
    any other line does not start with the prefix. *)
Inductive wire_line :=
| DataLine (space payload : jsstring)
| OtherLine (text : jsstring).

Definition render (l : wire_line) : jsstring :=
  match l with
  | DataLine space payload => js "data:" ++ space ++ payload
  | OtherLine text => text
  end.

Definition starts_black (s : jsstring) : Prop :=
  match s with
  | c :: _ => is_whitespace c = false
  | [] => True
  end.

Definition well_formed (l : wire_line) : Prop :=
  match l with
  | DataLine space payload =>
      forallb is_whitespace space = true /\ (LF ∉ space) /\ (LF ∉ payload)
      /\ starts_black payload
  | OtherLine text =>
      (LF ∉ text) /\ startsWith text (js "data:") = false
  end.

Definition payloads (lines : list wire_line) : list jsstring :=
  omap (fun l => match l with
                 | DataLine _ payload => Some payload
                 | OtherLine _ => None
                 end) lines.

Lemma trimStart_space (space payload : jsstring) :
  forallb is_whitespace space = true -> starts_black payload ->
  trimStart (space ++ payload) = payload.
Proof.
  intros Hs Hp. induction space as [|c space IH]; simpl.
  - destruct payload as [|c p]; [reflexivity|]. simpl in Hp.
    simpl. by rewrite Hp.
  - simpl in Hs. apply andb_prop in Hs as [-> Hs]. by apply IH.
Qed.

Lemma render_no_LF (l : wire_line) : well_formed l -> LF ∉ render l.
Proof.
  destruct l as [space payload | text]; simpl.
  - intros (_ & H1 & H2 & _) Hin.
    change (LF ∈ js "data:" ++ space ++ payload) in Hin.
    apply elem_of_app in Hin as [Hin | Hin].
    + vm_compute in Hin. repeat (apply elem_of_cons in Hin as [Hin|Hin];
        [discriminate|]). by apply elem_of_nil in Hin.
    + apply elem_of_app in Hin as [Hin | Hin]; tauto.
  - tauto.
Qed.

Lemma dataText_lines (lines : list wire_line) :
  lines <> [] -> Forall well_formed lines ->
  dataText (join [LF] (List.map render lines)) = join [LF] (payloads lines).
Proof.
  intros Hne Hwf. unfold dataText.
  rewrite split_lines_join.
  - f_equal. clear Hne.
    induction Hwf as [|l lines Hl _ IH]; [reflexivity|].
    destruct l as [space payload | text].
    + destruct Hl as (Hs & _ & _ & Hp).
      change (List.map render (DataLine space payload :: lines))
        with ((js "data:" ++ space ++ payload) :: List.map render lines).
      cbn [List.filter].
      change (startsWith (js "data:" ++ space ++ payload) (js "data:"))
        with true.
      cbv iota. cbn [List.map].
      change (slice_from 5 (js "data:" ++ space ++ payload))
        with (space ++ payload).
      rewrite trimStart_space by done. by rewrite IH.
    + destruct Hl as [_ Hl].
      change (List.map render (OtherLine text :: lines))
        with (text :: List.map render lines).
      cbn [List.filter]. rewrite Hl. exact IH.
  - by destruct lines.
  - apply Forall_fmap. eapply Forall_impl; [exact Hwf|].
    intros l Hl. by apply render_no_LF.
Qed.

Lemma join_cons_ne (sep w : jsstring) (ws : list jsstring) :
  ws <> [] -> join sep (w :: ws) = w ++ sep ++ join sep ws.
Proof. by destruct ws. Qed.

Lemma split_lines_aux_ne cur s : split_lines_aux cur s <> [].
Proof.
  revert cur. induction s as [|c s IH]; intros cur; simpl; [done|].
  destruct (c =? LF); [done | apply IH].
Qed.

Lemma join_split_lines_aux cur s :
  join [LF] (split_lines_aux cur s) = reverse cur ++ s.
Proof.
  revert cur. induction s as [|c s IH]; intros cur; simpl.
  - by rewrite app_nil_r.
  - destruct (c =? LF) eqn:E.
    + apply N.eqb_eq in E. subst c.
      rewrite join_cons_ne by apply split_lines_aux_ne.
      by rewrite IH.
    + rewrite IH, reverse_cons, <- app_assoc. reflexivity.
Qed.

Lemma split_lines_aux_no_LF cur s :
  LF ∉ cur -> Forall (fun l => LF ∉ l) (split_lines_aux cur s).
Proof.
  revert cur. induction s as [|c s IH]; intros cur Hcur; simpl.
  - constructor; [|constructor]. by rewrite elem_of_reverse.
  - destruct (c =? LF) eqn:E.
    + constructor; [by rewrite elem_of_reverse|].
      apply IH. by intros ?%elem_of_nil.
    + apply IH. apply N.eqb_neq in E.
      intros [Heq|?]%elem_of_cons; [congruence | done].
Qed.

Lemma startsWith_app (s p : jsstring) :
  startsWith s p = true -> s = p ++ drop (length p) s.
Proof.
  revert s. induction p as [|x p IH]; intros s; simpl; [done|].
  destruct s as [|y s]; [done|].
  intros [->%N.eqb_eq Hs]%andb_prop. simpl. f_equal. by apply IH.
Qed.

Lemma trimStart_decompose (s : jsstring) :
  exists space, s = space ++ trimStart s
                /\ forallb is_whitespace space = true
                /\ starts_black (trimStart s).
Proof.
  induction s as [|c s (space & Hs & Hw & Hb)]; simpl.
  - by exists [].
  - destruct (is_whitespace c) eqn:E.
    + exists (c :: space). simpl. rewrite E. split; [by f_equal|done].
    + exists []. simpl. done.
Qed.

Lemma line_classified (l : jsstring) :
  LF ∉ l -> exists wl, well_formed wl /\ render wl = l.
Proof.
  intros Hl. destruct (startsWith l (js "data:")) eqn:E.
  - apply startsWith_app in E.
    destruct (trimStart_decompose (drop (length (js "data:")) l))
      as (space & Hs & Hw & Hb).
    exists (DataLine space (trimStart (drop (length (js "data:")) l))).
    assert (Hsub : forall c, c ∈ drop (length (js "data:")) l -> c ∈ l).
    { intros c Hc. rewrite E. apply elem_of_app. by right. }
    split.
    + simpl. repeat split; try done.
      * intros Hin. apply Hl, Hsub. rewrite Hs. apply elem_of_app.
        by left.
      * intros Hin. apply Hl, Hsub. rewrite Hs. apply elem_of_app.
        by right.
    + change (js "data:" ++ space
              ++ trimStart (drop (length (js "data:")) l) = l).
      rewrite <- Hs. symmetry. exact E.
  - exists (OtherLine l). by split.
Qed.

Lemma record_lines (block : jsstring) :
  exists lines, lines <> [] /\ Forall well_formed lines
                /\ block = join [LF] (List.map render lines).
Proof.
  assert (H : forall ls : list jsstring,
             Forall (fun l => LF ∉ l) ls ->
             exists lines, Forall well_formed lines
                           /\ List.map render lines = ls).
  { induction 1 as [|l ls Hl _ (lines & Hwf & Hr)]; [by exists []|].
    destruct (line_classified l Hl) as (wl & Hw & Hrl).
    exists (wl :: lines). split; [by constructor|]. simpl. congruence. }
  destruct (H (split_lines block)) as (lines & Hwf & Hr).
  { apply split_lines_aux_no_LF. by intros ?%elem_of_nil. }
  exists lines. repeat split; [|done|].
  - intros ->. simpl in Hr. symmetry in Hr.
    by apply split_lines_aux_ne in Hr.
  - rewrite Hr. unfold split_lines. by rewrite join_split_lines_aux.
Qed.

(** The payload as the wire format is commonly read: the prefix and at
    most one space are removed from each data line. *)
Definition strip_one_space (s : jsstring) : jsstring :=
  match s with
  | 32 :: s' => s'
  | _ => s
  end.

Definition dataText_one_space (block : jsstring) : jsstring :=
  join [LF]
    (List.map (fun line => strip_one_space (slice_from 5 line))
       (List.filter (fun line => startsWith line (js "data:"))
                    (split_lines block))).

(** C3 (as amended).  Every record is a sequence of lines, each either a
    data line (the prefix [data:], then white space, then a payload that
    does not start with white space) or a line that does not start with
    the prefix; the payload text of the record is made of the payloads of
    its data lines, joined by a newline: the prefix and all the white
    space that follows it are removed, the other lines are dropped. *)
Theorem payload_reassembly (block : jsstring) :
  exists lines : list wire_line,
    lines <> [] /\ Forall well_formed lines
    /\ block = join [LF] (List.map render lines)
    /\ dataText block = join [LF] (payloads lines).
Proof.
  destruct (record_lines block) as (lines & Hne & Hwf & ->).
  exists lines. repeat split; try done. by apply dataText_lines.
Qed.

(** *** The decoder and the call stack *)

Lemma depth_positive (v : json num) : (1 <= depth v)%nat.
Proof. destruct v; simpl; lia. Qed.






















End Decoder.

(** ** Facts about the string operations of the framer *)

Section FramerStrings.

Definition blank_line : jsstring := [LF; LF].

Lemma indexOf_cons (c : N) (s p : jsstring) :
  indexOf (c :: s) p =
    if startsWith (c :: s) p then Some 0%nat else S <$> indexOf s p.
Proof. reflexivity. Qed.

Lemma startsWith_blank (s : jsstring) :
  startsWith s blank_line = true <-> exists r, s = LF :: LF :: r.
Proof.
  split.
  - destruct s as [|c [|d r]]; cbn [startsWith blank_line]; try done.
    + by rewrite andb_false_r.
    + intros [Hc [Hd _]%andb_prop]%andb_prop.
      apply N.eqb_eq in Hc, Hd. subst. eauto.
  - by intros [r ->].
Qed.

Lemma startsWith_blank_app (s t : jsstring) :
  startsWith s blank_line = true -> startsWith (s ++ t) blank_line = true.
Proof. intros [r ->]%startsWith_blank. reflexivity. Qed.

Lemma startsWith_blank_length (s : jsstring) :
  startsWith s blank_line = true -> (2 <= length s)%nat.
Proof. intros [r ->]%startsWith_blank. simpl. lia. Qed.

Lemma indexOf_blank_bound (s : jsstring) i :
  indexOf s blank_line = Some i -> (i + 2 <= length s)%nat.
Proof.
  revert i. induction s as [|c s IH]; intros i; [done|].
  rewrite indexOf_cons. destruct (startsWith (c :: s) blank_line) eqn:E.
  - intros [= <-]. by apply startsWith_blank_length in E.
  - destruct (indexOf s blank_line) as [j|]; [|done].
    intros [= <-]. specialize (IH j eq_refl). simpl. lia.
Qed.

(** A blank line found in a buffer is found at the same place when more
    text follows. *)
Lemma indexOf_blank_app (s t : jsstring) i :
  indexOf s blank_line = Some i -> indexOf (s ++ t) blank_line = Some i.
Proof.
  revert i. induction s as [|c s IH]; intros i; [done|].
  change ((c :: s) ++ t) with (c :: (s ++ t)). rewrite !indexOf_cons.
  destruct (startsWith (c :: s) blank_line) eqn:E.
  - intros [= <-].
    change (c :: (s ++ t)) with ((c :: s) ++ t).
    by rewrite startsWith_blank_app.
  - destruct (indexOf s blank_line) as [j|] eqn:Ej; [|done].
    intros [= <-]. rewrite (IH j eq_refl).
    destruct (startsWith (c :: s ++ t) blank_line) eqn:E'; [|done].
    exfalso. apply startsWith_blank in E' as [r Hr].
    destruct s as [|d [|e s]]; [done| |].
    + cbn in Ej. rewrite andb_false_r in Ej. done.
    + injection Hr as -> -> _. done.
Qed.

(** Where the first blank line is once one is appended to a buffer that
    holds none. *)
Lemma indexOf_blank_end (s : jsstring) :
  indexOf s blank_line = None ->
  exists i, indexOf (s ++ blank_line) blank_line = Some i
            /\ ((take i (s ++ blank_line) = s
                 /\ drop (i + 2) (s ++ blank_line) = [])
                \/ (take i (s ++ blank_line) ++ [LF] = s
                    /\ drop (i + 2) (s ++ blank_line) = [LF])).
Proof.
  induction s as [|c s IH]; intros Hs.
  - exists 0%nat. split; [reflexivity|]. by left.
  - rewrite indexOf_cons in Hs.
    destruct (startsWith (c :: s) blank_line) eqn:E; [done|].
    destruct (indexOf s blank_line) as [j|] eqn:Ej; [done|].
    destruct (IH eq_refl) as (i & Hi & Hcase).
    change ((c :: s) ++ blank_line) with (c :: (s ++ blank_line)).
    rewrite indexOf_cons.
    destruct (startsWith (c :: s ++ blank_line) blank_line) eqn:E'.
    + apply startsWith_blank in E' as [r Hr].
      destruct s as [|d s].
      * exists 0%nat. split; [reflexivity|]. right.
        injection Hr as -> _. done.
      * injection Hr as -> -> _.
        destruct s as [|e s]; [|done].
        exists 0%nat. split; [reflexivity|]. by right.
    + exists (S i). rewrite Hi. split; [reflexivity|].
      destruct Hcase as [[Ht Hd] | [Ht Hd]]; [left | right];
        simpl; by rewrite Ht, Hd.
Qed.


(** [replace] sees one chunk of text at a time: it commutes with
    concatenation unless a CR ends one text and an LF starts the next. *)
Definition ends_with_CR (s : jsstring) : bool :=
  match last s with
  | Some c => c =? CR
  | None => false
  end.

Definition starts_with_LF (s : jsstring) : bool :=
  match s with
  | c :: _ => c =? LF
  | [] => false
  end.

Lemma replace_crlf_cons2 c d s :
  replace_crlf (c :: d :: s) =
    if (c =? CR) && (d =? LF) then LF :: replace_crlf s
    else c :: replace_crlf (d :: s).
Proof. reflexivity. Qed.

Lemma ends_with_CR_cons x y (l : jsstring) :
  ends_with_CR (x :: y :: l) = ends_with_CR (y :: l).
Proof. unfold ends_with_CR. by rewrite last_cons_cons. Qed.

Lemma replace_crlf_app_gen (a : jsstring) :
  (forall t, ends_with_CR a && starts_with_LF t = false ->
             replace_crlf (a ++ t) = replace_crlf a ++ replace_crlf t)
  /\ (forall c t, ends_with_CR (c :: a) && starts_with_LF t = false ->
                  replace_crlf (c :: a ++ t)
                  = replace_crlf (c :: a) ++ replace_crlf t).
Proof.
  induction a as [|d a [IH1 IH2]]; split.
  - done.
  - intros c t Ht. destruct t as [|e t]; [done|].
    change (c :: [] ++ e :: t) with (c :: e :: t).
    rewrite replace_crlf_cons2.
    change ((c =? CR) && (e =? LF) = false) in Ht.
    by rewrite Ht.
  - intros t Ht. by apply IH2.
  - intros c t Ht.
    change (c :: (d :: a) ++ t) with (c :: d :: (a ++ t)).
    rewrite !replace_crlf_cons2.
    destruct ((c =? CR) && (d =? LF)) eqn:E.
    + simpl. f_equal. apply IH1.
      destruct a as [|e a]; [done|].
      by rewrite <- (ends_with_CR_cons d), <- (ends_with_CR_cons c).
    + simpl. f_equal.
      change (d :: a ++ t) with ((d :: a) ++ t).
      apply IH2. by rewrite <- (ends_with_CR_cons c).
Qed.

Lemma replace_crlf_app (a b : jsstring) :
  ends_with_CR a && starts_with_LF b = false ->
  replace_crlf (a ++ b) = replace_crlf a ++ replace_crlf b.
Proof. apply replace_crlf_app_gen. Qed.

(** [trim] ignores trailing white space. *)
Lemma trimStart_all_space (s : jsstring) :
  forallb is_whitespace s = true -> trimStart s = [].
Proof.
  induction s as [|c s IH]; simpl; [done|].
  intros [-> H]%andb_prop. by apply IH.
Qed.

Lemma trimStart_snoc (s : jsstring) c :
  forallb is_whitespace s = false -> trimStart (s ++ [c]) = trimStart s ++ [c].
Proof.
  induction s as [|d s IH]; simpl; [done|].
  destruct (is_whitespace d); simpl; [exact IH | done].
Qed.

Lemma trim_snoc_space (s : jsstring) c :
  is_whitespace c = true -> trim (s ++ [c]) = trim s.
Proof.
  intros Hc. unfold trim, trimEnd.
  destruct (forallb is_whitespace s) eqn:E.
  - rewrite (trimStart_all_space s E).
    rewrite (trimStart_all_space (s ++ [c])); [done|].
    rewrite forallb_app, E. simpl. by rewrite Hc.
  - rewrite trimStart_snoc by done.
    rewrite reverse_snoc. simpl. by rewrite Hc.
Qed.


End FramerStrings.

(** ** Facts about the decoder of the platform *)

Module DecoderFacts.
Import TextDecoder.

Lemma decode_stream_app (d : t) (a b : list byte) :
  decode_stream d (a ++ b)
  = (fst (decode_stream (fst (decode_stream d a)) b),
     snd (decode_stream d a)
     ++ snd (decode_stream (fst (decode_stream d a)) b)).
Proof.
  revert d. induction a as [|x a IH]; intros d; simpl.
  - by destruct (decode_stream d b).
  - destruct (feed d x) as [d1 out1]. rewrite IH.
    destruct (decode_stream d1 a) as [d2 out2]. simpl.
    by rewrite app_assoc.
Qed.








Definition blank_bytes : list byte := [x0a; x0a].



End DecoderFacts.

(** ** The framing loop *)

Section Framing.
Context {num : Type} `{!JsNumber num} {S : Type}.
Variable onChunk : option (callback num S).

(** The state after a record has gone through [emitBlock]. *)
Definition record_state (block : jsstring) (st : sse num S) : sse num S :=
  match decode block with
  | Some e => notify onChunk e st
  | None => st
  end.

Lemma emitBlock_state block st :
  emitBlock onChunk block st = (Normal tt, record_state block st).
Proof. apply emitBlock_eq. Qed.

Lemma drain_found buffer st i :
  indexOf buffer blank_line = Some i ->
  drain onChunk buffer st
  = drain onChunk (drop (i + 2) buffer)
          (record_state (trim (take i buffer)) st).
Proof.
  intros Hi. rewrite drain_equation_1.
  generalize (inspect (indexOf buffer [LF; LF])).
  intros [[j|] E]; [|unfold blank_line in Hi; congruence].
  assert (j = i) by (unfold blank_line in Hi; congruence). subst j.
  rewrite drain_clause_1_equation_1. cbv zeta.
  by rewrite emitBlock_state.
Qed.

Lemma drain_none buffer st :
  indexOf buffer blank_line = None ->
  drain onChunk buffer st = (Normal tt, (buffer, st)).
Proof.
  intros Hi. rewrite drain_equation_1.
  generalize (inspect (indexOf buffer [LF; LF])).
  intros [[j|] E]; [unfold blank_line in Hi; congruence|].
  reflexivity.
Qed.

(** Induction on the buffer as the loop consumes it. *)
Lemma drain_ind (P : jsstring -> Prop) :
  (forall b, indexOf b blank_line = None -> P b) ->
  (forall b i, indexOf b blank_line = Some i -> P (drop (i + 2) b) -> P b) ->
  forall b, P b.
Proof.
  intros Hnone Hsome b.
  assert (Hgen : forall m (b : jsstring), (m = length b) -> P b).
  { clear b. intros m. induction (lt_wf m) as [m _ IHm].
    intros b ->. destruct (indexOf b blank_line) as [i|] eqn:E.
    - apply (Hsome b i E). apply (IHm (length (drop (i + 2) b))); [|done].
      apply indexOf_blank_bound in E. rewrite length_drop. lia.
    - by apply Hnone. }
  by apply (Hgen (length b)).
Qed.

Lemma drain_normal b st : fst (drain onChunk b st) = Normal tt.
Proof.
  revert st. induction b as [b Hb | b i Hb IH] using drain_ind; intros st.
  - by rewrite drain_none.
  - rewrite (drain_found _ _ _ Hb). apply IH.
Qed.

(** More text appended to the buffer: the records that were complete come
    out first, and the scan resumes on what was left. *)
Lemma drain_app b text st :
  drain onChunk (b ++ text) st
  = drain onChunk (fst (snd (drain onChunk b st)) ++ text)
          (snd (snd (drain onChunk b st))).
Proof.
  revert st. induction b as [b Hb | b i Hb IH] using drain_ind; intros st.
  - by rewrite (drain_none b).
  - rewrite (drain_found b _ _ Hb).
    rewrite (drain_found (b ++ text) _ i) by by apply indexOf_blank_app.
    pose proof (indexOf_blank_bound _ _ Hb) as Hlen.
    rewrite take_app_le by lia. rewrite drop_app_le by lia.
    apply IH.
Qed.

Lemma drain_rest_no_blank b st :
  indexOf (fst (snd (drain onChunk b st))) blank_line = None.
Proof.
  revert st. induction b as [b Hb | b i Hb IH] using drain_ind; intros st.
  - by rewrite drain_none.
  - rewrite (drain_found _ _ _ Hb). apply IH.
Qed.

(** The events of a run, one [notify] after the other. *)
Definition emit_all (events : list (json num)) (st : sse num S)
  : sse num S :=
  fold_left (fun st e => notify onChunk e st) events st.

Lemma emit_all_app es1 es2 st :
  emit_all (es1 ++ es2) st = emit_all es2 (emit_all es1 st).
Proof. apply fold_left_app. Qed.

Lemma chunks_emit_all events st :
  chunks (emit_all events st) = chunks st ++ events.
Proof.
  revert st. induction events as [|e events IH]; intros st; simpl.
  - by rewrite app_nil_r.
  - rewrite IH, chunks_notify. by rewrite <- app_assoc.
Qed.

End Framing.

(** ** The read loop *)

Section Loop.
Context {num : Type} `{!JsNumber num} {S : Type}.
Variable onChunk : option (callback num S).

Import TextDecoder DecoderFacts.

(** The buffer and the state once [text] has been appended and the
    complete records have been cut off. *)
Definition absorb (text : jsstring) (p : jsstring * sse num S)
  : jsstring * sse num S :=
  snd (drain onChunk (fst p ++ text) (snd p)).

Lemma on_value_eq value l :
  on_value onChunk value l
  = (Normal tt,
     {| decoder := fst (decode_stream (decoder l) value);
        buffer :=
          fst (absorb (replace_crlf (snd (decode_stream (decoder l) value)))
                      (buffer l, sse_state l));
        sse_state :=
          snd (absorb (replace_crlf (snd (decode_stream (decoder l) value)))
                      (buffer l, sse_state l)) |}).
Proof.
  unfold on_value, absorb. destruct (decode_stream (decoder l) value)
    as [d text]. simpl.
  pose proof (drain_normal onChunk (buffer l ++ replace_crlf text)
                (sse_state l)) as Hn.
  destruct (drain onChunk _ _) as [r [b' st']]. simpl in *. by subst r.
Qed.

Definition feed_value (l : loop num S) (value : list byte) : loop num S :=
  snd (on_value onChunk value l).

(** The loop state after a sequence of chunks. *)
Definition after (reads : list (list byte)) (l : loop num S) : loop num S :=
  fold_left feed_value reads l.

Lemma after_cons value reads l :
  after (value :: reads) l = after reads (feed_value l value).
Proof. reflexivity. Qed.

Lemma read_loop_cons value reads last l :
  read_loop onChunk (value :: reads) last l
  = read_loop onChunk reads last (feed_value l value).
Proof.
  change (read_loop onChunk (value :: reads) last l)
    with (match on_value onChunk value l with
          | (Normal _, l') => read_loop onChunk reads last l'
          | (Throw e, l') => (Throw e, sse_state l')
          end).
  unfold feed_value. by rewrite on_value_eq.
Qed.

Lemma read_loop_after reads last l :
  read_loop onChunk reads last l
  = read_loop onChunk [] last (after reads l).
Proof.
  revert l. induction reads as [|value reads IH]; intros l; [done|].
  by rewrite read_loop_cons, after_cons, IH.
Qed.


(** The buffer of the loop never keeps a blank line. *)
Definition settled_buffer (l : loop num S) : Prop :=
  indexOf (buffer l) blank_line = None.





(** *** Texts *)

(** The text each chunk decodes to. *)
Fixpoint texts (d : TextDecoder.t) (reads : list (list byte))
  : list jsstring :=
  match reads with
  | [] => []
  | value :: reads' =>
      snd (decode_stream d value)
      :: texts (fst (decode_stream d value)) reads'
  end.

Lemma decode_stream_concat d reads :
  decode_stream d (concat reads)
  = (fold_left (fun d value => fst (decode_stream d value)) reads d,
     concat (texts d reads)).
Proof.
  revert d. induction reads as [|value reads IH]; intros d; [done|].
  cbn [concat texts fold_left]. rewrite decode_stream_app, IH. done.
Qed.

Lemma absorb_app t1 t2 p :
  absorb (t1 ++ t2) p = absorb t2 (absorb t1 p).
Proof.
  unfold absorb. rewrite app_assoc. by rewrite drain_app.
Qed.

Lemma absorb_nil p :
  indexOf (fst p) blank_line = None -> absorb [] p = p.
Proof.
  intros Hp. unfold absorb. rewrite app_nil_r, drain_none by done.
  by destruct p.
Qed.

Lemma absorb_settled t p : indexOf (fst (absorb t p)) blank_line = None.
Proof. apply drain_rest_no_blank. Qed.

Lemma absorb_all ts p :
  indexOf (fst p) blank_line = None ->
  fold_left (fun p t => absorb t p) ts p = absorb (concat ts) p.
Proof.
  revert p. induction ts as [|t ts IH]; intros p Hp.
  - by rewrite absorb_nil.
  - cbn [fold_left concat]. rewrite IH by apply absorb_settled.
    by rewrite absorb_app.
Qed.

Lemma after_texts reads l :
  after reads l
  = {| decoder := fold_left (fun d value => fst (decode_stream d value))
                            reads (decoder l);
       buffer := fst (fold_left (fun p t => absorb t p)
                        (List.map replace_crlf (texts (decoder l) reads))
                        (buffer l, sse_state l));
       sse_state := snd (fold_left (fun p t => absorb t p)
                           (List.map replace_crlf (texts (decoder l) reads))
                           (buffer l, sse_state l)) |}.
Proof.
  revert l. induction reads as [|value reads IH]; intros l.
  - by destruct l.
  - rewrite after_cons, IH. unfold feed_value. rewrite on_value_eq.
    cbn [snd decoder buffer sse_state texts List.map fold_left].
    by rewrite <- surjective_pairing.
Qed.

(** Some chunk boundary falls between a CR and the LF that follows it. *)
Fixpoint splits_crlf (pending : bool) (ts : list jsstring) : bool :=
  match ts with
  | [] => false
  | t :: ts' =>
      (pending && starts_with_LF t)
      || splits_crlf (match t with
                      | [] => pending
                      | _ => ends_with_CR t
                      end) ts'
  end.

Lemma ends_with_CR_app (a b : jsstring) :
  b <> [] -> ends_with_CR (a ++ b) = ends_with_CR b.
Proof.
  intros Hb. unfold ends_with_CR.
  destruct b as [|c b] using rev_ind; [done|].
  by rewrite app_assoc, !last_snoc.
Qed.

Lemma replace_crlf_concat (pre : jsstring) (ts : list jsstring) :
  splits_crlf (ends_with_CR pre) ts = false ->
  replace_crlf (pre ++ concat ts)
  = replace_crlf pre ++ concat (List.map replace_crlf ts).
Proof.
  revert pre. induction ts as [|t ts IH]; intros pre Hs.
  - simpl. by rewrite !app_nil_r.
  - cbn [splits_crlf] in Hs. apply orb_false_elim in Hs as [Hb Hs].
    cbn [concat List.map]. rewrite app_assoc.
    destruct t as [|c t].
    + rewrite app_nil_r. by apply IH.
    + rewrite IH.
      * rewrite replace_crlf_app by done. by rewrite <- app_assoc.
      * by rewrite ends_with_CR_app.
Qed.

(** Feeding the chunks one at a time or all at once leaves the loop in the
    same state when no chunk boundary separates a CR from its LF. *)
Lemma after_concat reads l :
  settled_buffer l ->
  splits_crlf false (texts (decoder l) reads) = false ->
  after reads l = after [concat reads] l.
Proof.
  intros Hl Hs. rewrite !after_texts.
  cbn [texts fold_left List.map]. rewrite decode_stream_concat.
  cbn [fst snd]. rewrite absorb_all by exact Hl.
  pose proof (replace_crlf_concat [] _ Hs) as Hc. simpl in Hc.
  by rewrite <- Hc.
Qed.

Lemma chunking_harmless reads last l :
  settled_buffer l ->
  splits_crlf false (texts (decoder l) reads) = false ->
  read_loop onChunk reads last l = read_loop onChunk [concat reads] last l.
Proof.
  intros Hl Hs.
  rewrite (read_loop_after reads), (read_loop_after [concat reads]).
  by rewrite after_concat.
Qed.

(** The same, for a whole response. *)
Lemma consume_chunking (r : response) reads last (s : S) log :
  splits_crlf false (texts TextDecoder.create reads) = false ->
  consumeSseResponse onChunk r reads last s log
  = consumeSseResponse onChunk r [concat reads] last s log.
Proof.
  intros Hs. unfold consumeSseResponse.
  destruct (negb (ok r)); [done|]. destruct (negb (readable r)); [done|].
  by apply chunking_harmless.
Qed.

(** *** The end of the stream *)

Lemma on_done_eq l :
  on_done onChunk l
  = (Normal (chunks (record_state onChunk
                       (trim (buffer l
                              ++ replace_crlf (decode_end (decoder l))))
                       (sse_state l))),
     record_state onChunk
       (trim (buffer l ++ replace_crlf (decode_end (decoder l))))
       (sse_state l)).
Proof. unfold on_done. by rewrite emitBlock_state. Qed.






(** An ok response without a readable body: the empty list, no callback
    call, no exception. *)
Lemma consume_unreadable (r : response) reads last (s : S) log :
  ok r = true -> readable r = false ->
  consumeSseResponse onChunk r reads last s log
  = (Normal [], {| chunks := []; observer := s; console := log |}).
Proof. unfold consumeSseResponse. by intros -> ->. Qed.

End Loop.

(** ** The events of a run do not depend on the callback *)

Section Uniform.
Context {num : Type} `{!JsNumber num}.

Import TextDecoder.

Lemma drain_uniform (b : jsstring) :
  exists (rest : jsstring) (events : list (json num)),
  forall S (cb : option (callback num S)) (st : sse num S),
    drain cb b st = (Normal tt, (rest, emit_all cb events st)).
Proof.
  induction b as [b Hb | b i Hb (rest & es & IH)] using drain_ind.
  - exists b, []. intros S cb st. by rewrite drain_none.
  - destruct (decode (num := num) (trim (take i b))) as [e|] eqn:He.
    + exists rest, (e :: es). intros S cb st.
      rewrite (drain_found cb _ _ _ Hb), IH. unfold record_state.
      by rewrite He.
    + exists rest, es. intros S cb st.
      rewrite (drain_found cb _ _ _ Hb), IH. unfold record_state.
      by rewrite He.
Qed.

Lemma read_loop_uniform (reads : list (list byte)) (last : completion unit)
      (d : TextDecoder.t) (b : jsstring) :
  exists events : list (json num),
  forall S (cb : option (callback num S)) (st : sse num S),
    read_loop cb reads last
      {| decoder := d; buffer := b; sse_state := st |}
    = (match last with
       | Normal _ => Normal (chunks st ++ events)
       | Throw e => Throw e
       end, emit_all cb events st).
Proof.
  revert d b. induction reads as [|value reads IH]; intros d b.
  - destruct last as [[]|e].
    + destruct (decode (num := num)
                  (trim (b ++ replace_crlf (decode_end d)))) as [e|] eqn:He.
      * exists [e]. intros S cb st. cbn [read_loop]. rewrite on_done_eq.
        cbn [decoder buffer sse_state]. unfold record_state. rewrite He.
        by rewrite chunks_notify.
      * exists []. intros S cb st. cbn [read_loop]. rewrite on_done_eq.
        cbn [decoder buffer sse_state]. unfold record_state. rewrite He.
        by rewrite app_nil_r.
    + exists []. intros S cb st. reflexivity.
  - destruct (drain_uniform
                (b ++ replace_crlf (snd (decode_stream d value))))
      as (rest & es1 & Hd).
    destruct (IH (fst (decode_stream d value)) rest) as (es2 & Hr).
    exists (es1 ++ es2). intros S cb st.
    rewrite read_loop_cons. unfold feed_value. rewrite on_value_eq.
    cbn [snd decoder buffer sse_state]. unfold absorb. cbn [fst snd].
    rewrite Hd. cbn [fst snd]. rewrite Hr, emit_all_app, chunks_emit_all.
    destruct last; by rewrite ?app_assoc.
Qed.

(** A call of [postSse] that returns has run the callback on the returned
    events, one after the other, and on nothing else. *)
Lemma postSse_returns {S} (cb : option (callback num S)) fetched reads last
      (s : S) log received st :
  postSse cb fetched reads last s log = (Normal received, st) ->
  st = emit_all cb received
         {| chunks := []; observer := s; console := log |}.
Proof.
  unfold postSse, consumeSseResponse. destruct fetched as [r|e]; [|done].
  destruct (negb (ok r)); [done|]. destruct (negb (readable r)).
  - by intros [= <- <-].
  - destruct (read_loop_uniform reads last TextDecoder.create [])
      as (events & Hr).
    unfold start. rewrite Hr. destruct last; [|done].
    by intros [= <- <-].
Qed.

(** The events returned do not depend on the callback. *)
Lemma postSse_events {S1 S2} (cb1 : option (callback num S1))
      (cb2 : option (callback num S2)) fetched reads last s1 s2 log1 log2 :
  fst (postSse cb1 fetched reads last s1 log1)
  = fst (postSse cb2 fetched reads last s2 log2).
Proof.
  unfold postSse, consumeSseResponse. destruct fetched as [r|e]; [|done].
  destruct (negb (ok r)); [done|]. destruct (negb (readable r)); [done|].
  destruct (read_loop_uniform reads last TextDecoder.create [])
    as (events & Hr).
  unfold start. by rewrite !Hr.
Qed.

End Uniform.

(** ** The aggregators *)

Local Close Scope N_scope.

Section AggregateFacts.
Context {num : Type} `{!JsNumber num}.

(** *** Events as the aggregator reads them *)

Definition is_null (e : json num) : bool :=
  match e with
  | JNull => true
  | _ => false
  end.

Definition field (e : json num) (k : jsstring) : option (json num) :=
  match e with
  | JObj props => obj_get props k
  | _ => None
  end.

(** The truthy value of [name] in an event whose [type] is [tag]. *)
Definition payload (e : json num) (tag name : jsstring)
  : option (json num) :=
  if is_string (field e (js "type")) tag then
    match field e name with
    | Some v => if truthy v then Some v else None
    | None => None
    end
  else None.

(** The content of a content event, as text; nothing when it cannot be
    converted to a string. *)
Definition content_of (e : json num) : jsstring :=
  match payload e (js "content") (js "content") with
  | Some v => default [] (to_string v)
  | None => []
  end.

(** The tool name of a tool-start event. *)
Definition tool_of (e : json num) : option (json num) :=
  payload e (js "tool_start") (js "toolName").

(** The usage payload of a done event. *)
Definition usage_of (e : json num) : option (json num) :=
  payload e (js "done") (js "usage").

(** The concatenation, in arrival order, of the contents. *)
Definition all_content (events : list (json num)) : jsstring :=
  concat (List.map content_of events).

(** The set of tool names of the events numbered from [id], added to
    [acc] in arrival order. *)
Fixpoint tool_set (id : nat) (events : list (json num))
         (acc : list (nat * json num)) : list (nat * json num) :=
  match events with
  | [] => acc
  | e :: rest =>
      tool_set (S id) rest
        (match tool_of e with
         | Some v => set_add acc (id, v)
         | None => acc
         end)
  end.

(** The usage payload of the last done event that has one. *)
Definition last_usage (events : list (json num)) : option (json num) :=
  last (omap usage_of events).

(** Membership in a [Set]. *)
Definition has (s : list (nat * json num)) (x : nat * json num) : Prop :=
  existsb (same_value_zero x) s = true.

(** No element of the list is the same value as an earlier one. *)
Definition distinct (s : list (nat * json num)) : Prop :=
  forall s1 x s2, s = s1 ++ x :: s2 ->
                  existsb (same_value_zero x) s1 = false.

(** The events before the first [null]. *)
Fixpoint before_null (events : list (json num)) : list (json num) :=
  match events with
  | [] => []
  | e :: rest => if is_null e then [] else e :: before_null rest
  end.

(** *** [Set] *)

Lemma same_value_zero_refl (x : nat * json num) : same_value_zero x x = true.
Proof.
  unfold same_value_zero. destruct (snd x) as [ | b | n | s | items | props].
  - done.
  - by destruct b.
  - apply num_same_refl.
  - by apply bool_decide_eq_true.
  - apply Nat.eqb_refl.
  - apply Nat.eqb_refl.
Qed.

Lemma has_set_add s x : has (set_add s x) x.
Proof.
  unfold has, set_add. destruct (existsb (same_value_zero x) s) eqn:E;
    [done|].
  rewrite existsb_app. simpl. rewrite same_value_zero_refl.
  by rewrite orb_true_r.
Qed.

Lemma has_set_add_mono s x y : has s y -> has (set_add s x) y.
Proof.
  unfold has, set_add. intros Hy.
  destruct (existsb (same_value_zero x) s); [done|].
  by rewrite existsb_app, Hy.
Qed.

Lemma set_add_has s x : has s x -> set_add s x = s.
Proof. unfold has, set_add. by intros ->. Qed.

Lemma distinct_nil : distinct [].
Proof. intros s1 x s2 Hs. by destruct s1. Qed.

Lemma distinct_set_add s x : distinct s -> distinct (set_add s x).
Proof.
  intros Hs. unfold set_add.
  destruct (existsb (same_value_zero x) s) eqn:E; [done|].
  intros s1 y s2 Heq.
  destruct s2 as [|z s2 _] using rev_ind.
  - apply app_inj_tail in Heq as [-> ->]. exact E.
  - rewrite app_comm_cons, app_assoc in Heq.
    apply app_inj_tail in Heq as [-> _]. by apply (Hs s1 y s2).
Qed.

Lemma tool_set_mono events id acc x :
  has acc x -> has (tool_set id events acc) x.
Proof.
  revert id acc. induction events as [|e events IH]; intros id acc Hx;
    [done|].
  simpl. apply IH. destruct (tool_of e); [by apply has_set_add_mono|done].
Qed.

Lemma tool_set_has events id acc i e v :
  events !! i = Some e -> tool_of e = Some v ->
  has (tool_set id events acc) ((id + i)%nat, v).
Proof.
  revert id acc i. induction events as [|e' events IH]; intros id acc i;
    [done|].
  destruct i as [|i]; simpl.
  - intros [= ->] ->. apply tool_set_mono. rewrite Nat.add_0_r.
    apply has_set_add.
  - intros He Hv. replace (id + S i)%nat with (S id + i)%nat by lia.
    by apply IH.
Qed.

Lemma tool_set_covered events id s :
  (forall i e v, events !! i = Some e -> tool_of e = Some v ->
                 has s ((id + i)%nat, v)) ->
  tool_set id events s = s.
Proof.
  revert id. induction events as [|e events IH]; intros id Hc; [done|].
  simpl. destruct (tool_of e) as [v|] eqn:Ev.
  - rewrite set_add_has.
    + apply IH. intros i e' v' He' Hv'.
      replace (S id + i)%nat with (id + S i)%nat by lia. by apply (Hc (S i) e').
    + specialize (Hc 0 e v eq_refl Ev). by rewrite Nat.add_0_r in Hc.
  - apply IH. intros i e' v' He' Hv'.
    replace (S id + i)%nat with (id + S i)%nat by lia. by apply (Hc (S i) e').
Qed.

Lemma tool_set_distinct events id acc :
  distinct acc -> distinct (tool_set id events acc).
Proof.
  revert id acc. induction events as [|e events IH]; intros id acc Ha;
    [done|].
  simpl. apply IH. destruct (tool_of e); [by apply distinct_set_add|done].
Qed.

Lemma before_null_lookup events i e :
  before_null events !! i = Some e -> events !! i = Some e.
Proof.
  revert i. induction events as [|e' events IH]; intros i; [done|].
  simpl. destruct (is_null e'); [done|].
  destruct i; [done|]. apply IH.
Qed.

Lemma before_null_all events :
  existsb is_null events = false -> before_null events = events.
Proof.
  induction events as [|e events IH]; [done|]. simpl.
  destruct (is_null e); [done|]. simpl. intros H. by rewrite IH.
Qed.

(** *** The callback of [runStream] *)

Variable onChunk : option (listener num).

Lemma when_tagged_eq chunk tag name action (a : agg num) :
  when_tagged chunk tag name action a
  = if is_null chunk then (Throw (null_property_error (js "type")), a)
    else match payload chunk tag name with
         | Some v => action v a
         | None => (Normal tt, a)
         end.
Proof.
  unfold when_tagged, payload, bind, get_prop, ret, throw.
  destruct chunk as [ | b | n | s | items | props]; try reflexivity.
  cbn [field is_null]. destruct (is_string _ tag); [|reflexivity].
  destruct (obj_get props name) as [v|]; [|reflexivity].
  by destruct (truthy v).
Qed.

(** An event has one type. *)
Lemma payload_exclusive e tag1 name1 tag2 name2 v :
  payload e tag1 name1 = Some v -> tag1 <> tag2 ->
  payload e tag2 name2 = None.
Proof.
  unfold payload.
  destruct (field e (js "type")) as [[ | | | s | | ]|]; simpl; try done.
  case_bool_decide; [|done]. subst s. intros _ Hne.
  by rewrite bool_decide_eq_false_2.
Qed.

(** The variables after the callback has run on one event. *)
Lemma agent_callback_fields id e (a : agg num) :
  let a' := snd (agent_callback onChunk id e a) in
  toolsUsed a' = match tool_of e with
                 | Some v => set_add (toolsUsed a) (id, v)
                 | None => toolsUsed a
                 end
  /\ content a' = content a ++ content_of e
  /\ usage a' = match usage_of e with
                | Some v => Some v
                | None => usage a
                end.
Proof.
  unfold agent_callback, bind. rewrite !when_tagged_eq.
  unfold tool_of, content_of, usage_of.
  destruct (is_null e) eqn:En.
  - destruct e; try discriminate. cbn. by rewrite app_nil_r.
  - destruct (payload e (js "content") (js "content")) as [c|] eqn:Ec.
    + rewrite (payload_exclusive e _ _ (js "tool_start") (js "toolName")
                 c Ec) by (by intros ?).
      rewrite (payload_exclusive e _ _ (js "done") (js "usage") c Ec)
        by (by intros ?).
      unfold add_content. destruct (to_string c) as [text|].
      * cbn [modify]. rewrite when_tagged_eq, En.
        rewrite (payload_exclusive e _ _ (js "tool_start") (js "toolName")
                   c Ec) by (by intros ?).
        rewrite when_tagged_eq, En.
        rewrite (payload_exclusive e _ _ (js "done") (js "usage") c Ec)
          by (by intros ?).
        unfold call_listener.
        match goal with
        | |- context [deliver ?f ?c ?d] => destruct (deliver f c d)
        end. done.
      * cbn. by rewrite app_nil_r.
    + rewrite when_tagged_eq, En.
      destruct (payload e (js "tool_start") (js "toolName")) as [t|];
        cbn [add_tool modify fst snd]; rewrite when_tagged_eq, En;
        (destruct (payload e (js "done") (js "usage")) as [u|];
         cbn [set_usage modify fst snd];
         unfold call_listener;
         match goal with
         | |- context [deliver ?f ?c ?d] => destruct (deliver f c d)
         end; cbn; by rewrite ?app_nil_r).
Qed.

(** The variables after the callback has run on a list of events. *)
Fixpoint replay (id : nat) (events : list (json num)) (a : agg num)
  : agg num :=
  match events with
  | [] => a
  | e :: rest => replay (S id) rest (snd (agent_callback onChunk id e a))
  end.

Lemma fold_usage_last events (u : option (json num)) :
  fold_left (fun u e => match usage_of e with
                        | Some v => Some v
                        | None => u
                        end) events u
  = match last_usage events with
    | Some v => Some v
    | None => u
    end.
Proof.
  unfold last_usage. revert u.
  induction events as [|e events IH]; intros u; [done|].
  cbn [fold_left]. rewrite IH.
  change (omap usage_of (e :: events))
    with (match usage_of e with
          | Some v => v :: omap usage_of events
          | None => omap usage_of events
          end).
  destruct (usage_of e) as [v|]; [|done].
  rewrite last_cons. by destruct (last (omap usage_of events)).
Qed.

Lemma replay_fields events id (a : agg num) :
  toolsUsed (replay id events a) = tool_set id events (toolsUsed a)
  /\ content (replay id events a) = content a ++ all_content events
  /\ usage (replay id events a)
     = match last_usage events with
       | Some v => Some v
       | None => usage a
       end.
Proof.
  rewrite <- fold_usage_last.
  revert id a. induction events as [|e events IH]; intros id a.
  - unfold all_content. simpl. by rewrite app_nil_r.
  - destruct (agent_callback_fields id e a) as (Ht & Hc & Hu).
    destruct (IH (S id) (snd (agent_callback onChunk id e a)))
      as (IHt & IHc & IHu).
    cbn [replay tool_set fold_left]. rewrite IHt, IHc, IHu, Ht, Hc, Hu.
    unfold all_content. cbn [List.map concat].
    by rewrite app_assoc.
Qed.

Lemma observer_notify e (st : sse num (agg num)) :
  observer (notify (Some (agent_callback onChunk)) e st)
  = snd (agent_callback onChunk (length (chunks st)) e (observer st)).
Proof.
  unfold notify.
  by destruct (agent_callback onChunk _ e (observer st)) as [[] ?].
Qed.

Lemma observer_emit_all events (st : sse num (agg num)) :
  observer (emit_all (Some (agent_callback onChunk)) events st)
  = replay (length (chunks st)) events (observer st).
Proof.
  revert st. induction events as [|e events IH]; intros st; [done|].
  change (emit_all (Some (agent_callback onChunk)) (e :: events) st)
    with (emit_all (Some (agent_callback onChunk)) events
            (notify (Some (agent_callback onChunk)) e st)).
  rewrite IH, chunks_notify, observer_notify, length_app. cbn [replay].
  simpl length. by rewrite Nat.add_1_r.
Qed.

(** *** The second scan *)

Lemma rescan_eq events id (a : agg num) :
  rescan id events a
  = (if existsb is_null events
     then Throw (null_property_error (js "type")) else Normal tt,
     {| toolsUsed := tool_set id (before_null events) (toolsUsed a);
        content := content a; usage := usage a;
        delivered := delivered a |}).
Proof.
  revert id a. induction events as [|e events IH]; intros id a.
  - by destruct a.
  - cbn [rescan]. unfold bind. rewrite when_tagged_eq.
    cbn [existsb before_null]. destruct (is_null e) eqn:En.
    + by destruct a.
    + fold (tool_of e). cbn [orb tool_set].
      destruct (tool_of e) as [v|]; [|apply IH].
      cbn [add_tool modify]. by rewrite IH.
Qed.

(** *** The result of [runStream] *)

Lemma tool_set_twice events id :
  tool_set id (before_null events) (tool_set id events [])
  = tool_set id events [].
Proof.
  apply tool_set_covered. intros i e v He Hv.
  apply (tool_set_has _ _ _ _ e); [|done]. by apply before_null_lookup.
Qed.

Lemma agent_catch_fails (e : js_error) :
  exists msg, agent_catch (num := num) e = AgentFailure msg.
Proof. unfold agent_catch. destruct (bool_decide _); eauto. Qed.

Lemma runStream_returned fetched reads last events st :
  postSse (Some (agent_callback onChunk)) fetched reads last agg_init []
  = (Normal events, st) ->
  fst (runStream_body onChunk fetched reads last)
  = if existsb is_null events
    then AgentFailure (err_message (null_property_error (js "type")))
    else AgentSuccess (all_content events)
                      (List.map snd (tool_set 0 events []))
                      (length (tool_set 0 events []))
                      (last_usage events).
Proof.
  intros Hp. unfold runStream_body, agent_finish. rewrite Hp.
  apply postSse_returns in Hp.
  assert (Ho : observer st = replay 0 events agg_init)
    by (rewrite Hp; apply observer_emit_all).
  destruct (replay_fields events 0 agg_init) as (Ht & Hc & Hu).
  rewrite rescan_eq, Ho, Ht, Hc, Hu.
  destruct (existsb is_null events) eqn:En; [reflexivity|].
  cbn [fst toolsUsed content usage agg_init].
  rewrite tool_set_twice. cbn [app].
  by destruct (last_usage events).
Qed.

Definition ok_response : response :=
  {| ok := true; status := 200%N; statusText := js "OK";
     readable := true |}.

(** The body of scenario A: three records, each followed by a blank
    line. *)
Definition scenario_A : list byte :=
  TextDecoder.wire "data: {'type':'content','content':'Hi'}"
  ++ DecoderFacts.blank_bytes
  ++ TextDecoder.wire "data: {'type':'tool_start','toolName':'search'}"
  ++ DecoderFacts.blank_bytes
  ++ TextDecoder.wire "data: {'type':'done','usage':{'tokens':5}}"
  ++ DecoderFacts.blank_bytes.

Definition scenario_A_events : list (json num) :=
  [JObj [(js "type", JStr (js "content")); (js "content", JStr (js "Hi"))];
   JObj [(js "type", JStr (js "tool_start"));
         (js "toolName", JStr (js "search"))];
   JObj [(js "type", JStr (js "done"));
         (js "usage", JObj [(js "tokens", JNum (num_of_literal (js "5")))])]].

Lemma scenario_A_received :
  fst (postSse (Some (agent_callback onChunk)) (Normal ok_response)
         [scenario_A] (Normal tt) agg_init [])
  = Normal scenario_A_events.
Proof.
  rewrite (postSse_events _ (@None (callback num unit)) _ _ _ _ tt _ []).
  vm_compute. reflexivity.
Qed.

(** C5.  When [runStream] succeeds, its result is made of the events
    [postSse] returned: the content is the concatenation, in arrival
    order, of the contents of the content events; the tools are the set of
    the tool names of the tool-start events, without repetition, and the
    number of rounds is the size of that set; the usage is the usage
    payload of the last done event that has one.  It succeeds whenever
    the stream is read to its end and holds no [null] event.  On the
    three records of scenario A the result is content "Hi", tools
    ["search"], one round and usage {tokens: 5}. *)
Theorem agent_run_aggregation :
  (forall fetched reads last c ts n u,
      fst (runStream_body onChunk fetched reads last)
      = AgentSuccess c ts n u ->
      exists events,
        fst (postSse (Some (agent_callback onChunk)) fetched reads last
               agg_init []) = Normal events
        /\ c = all_content events
        /\ ts = List.map snd (tool_set 0 events [])
        /\ n = length (tool_set 0 events [])
        /\ distinct (tool_set 0 events [])
        /\ u = last_usage events)
  /\ (forall fetched reads last events,
         fst (postSse (Some (agent_callback onChunk)) fetched reads last
                agg_init []) = Normal events ->
         existsb is_null events = false ->
         exists c ts n u,
           fst (runStream_body onChunk fetched reads last)
           = AgentSuccess c ts n u)
  /\ fst (runStream_body onChunk (Normal ok_response) [scenario_A]
            (Normal tt))
     = AgentSuccess (js "Hi") [JStr (js "search")] 1
         (Some (JObj [(js "tokens", JNum (num_of_literal (js "5")))])).
Proof.
  split; [|split].
  - intros fetched reads last c ts n u Hr.
    destruct (postSse (Some (agent_callback onChunk)) fetched reads last
                agg_init []) as [[events|e] st] eqn:Hp.
    + rewrite (runStream_returned _ _ _ _ _ Hp) in Hr.
      destruct (existsb is_null events); [done|].
      injection Hr as <- <- <- <-. exists events.
      repeat split; try done.
      apply tool_set_distinct, distinct_nil.
    + unfold runStream_body, agent_finish in Hr. rewrite Hp in Hr.
      destruct (agent_catch_fails e) as [msg Hm]. simpl in Hr.
      congruence.
  - intros fetched reads last events Hp Hn.
    destruct (postSse (Some (agent_callback onChunk)) fetched reads last
                agg_init []) as [r st] eqn:Hq.
    simpl in Hp. subst r.
    rewrite (runStream_returned _ _ _ _ _ Hq), Hn. eauto.
  - pose proof scenario_A_received as Hp.
    destruct (postSse (Some (agent_callback onChunk)) (Normal ok_response)
                [scenario_A] (Normal tt) agg_init []) as [r st] eqn:Hq.
    simpl in Hp. subst r.
    rewrite (runStream_returned _ _ _ _ _ Hq).
    vm_compute. reflexivity.
Qed.

(** C8.  When [postSse] has returned, the set of tool names built by the
    callback during delivery is the set of the tool names of the returned
    events; the second scan, which adds to that set, leaves it as it is;
    and a scan of the returned list that starts from an empty set and
    reaches its end builds the same set. *)
Theorem tool_sets_agree fetched reads last received st :
  postSse (Some (agent_callback onChunk)) fetched reads last agg_init []
  = (Normal received, st) ->
  toolsUsed (observer st) = tool_set 0 received []
  /\ (forall r a, rescan 0 received (observer st) = (r, a) ->
                  toolsUsed a = toolsUsed (observer st))
  /\ (forall a, rescan 0 received agg_init = (Normal tt, a) ->
                toolsUsed a = toolsUsed (observer st)).
Proof.
  intros Hp. apply postSse_returns in Hp.
  assert (Ho : observer st = replay 0 received agg_init)
    by (rewrite Hp; apply observer_emit_all).
  destruct (replay_fields received 0 agg_init) as (Ht & _).
  rewrite Ho, Ht. split; [done|]. split.
  - intros r a. rewrite rescan_eq. intros [= _ <-]. cbn [toolsUsed].
    rewrite Ht. apply tool_set_twice.
  - intros a. rewrite rescan_eq. intros [= Hn <-]. cbn [toolsUsed].
    destruct (existsb is_null received) eqn:En; [done|].
    by rewrite before_null_all.
Qed.

(** C10.  For a response that is ok but whose body is absent or has no
    [getReader], [consumeSseResponse] returns the empty list without
    calling the callback and without raising, and [chatStream] resolves
    to a success with the empty content, its listener never called. *)
Theorem unreadable_body {S} (cb : option (callback num S)) (r : response)
        reads last (s : S) log :
  ok r = true -> readable r = false ->
  consumeSseResponse cb r reads last s log
  = (Normal [], {| chunks := []; observer := s; console := log |})
  /\ chatStream onChunk (Normal r) reads last
     = (ChatSuccess [],
        {| chunks := []; observer := []; console := [] |}).
Proof.
  intros Hok Hr. split; [by apply consume_unreadable|].
  unfold chatStream, postSse. by rewrite consume_unreadable.
Qed.

End AggregateFacts.

(** ** The registry *)

Section RegistryFacts.
Context {num : Type} `{!JsNumber num}.

(** How many times an entry for [id] has been removed from the map. *)
Definition removals (id : jsstring) (w : world num) : nat :=
  length (List.filter (fun x => bool_decide (x = id)) (removed w)).

Definition aborted_result : agent_result num := AgentFailure (js "aborted").

(** *** [Map.prototype.delete] *)

Lemma registry_delete_lookup id id' (w : world num) :
  activeAgentRequests (registry_delete id w) !! id'
  = if decide (id = id') then None else activeAgentRequests w !! id'.
Proof.
  unfold registry_delete.
  destruct (activeAgentRequests w !! id) eqn:E; simpl.
  - apply lookup_delete.
  - case_decide; [by subst|done].
Qed.

Lemma registry_delete_other id (w : world num) :
  aborted (registry_delete id w) = aborted w
  /\ pending (registry_delete id w) = pending w
  /\ settled (registry_delete id w) = settled w
  /\ controllers (registry_delete id w) = controllers w.
Proof. unfold registry_delete. by destruct (activeAgentRequests w !! id). Qed.

Lemma registry_delete_removals id id' (w : world num) :
  removals id' (registry_delete id w)
  = removals id' w
    + (if decide (id = id')
       then match activeAgentRequests w !! id with
            | Some _ => 1
            | None => 0
            end
       else 0).
Proof.
  unfold registry_delete, removals.
  destruct (activeAgentRequests w !! id) eqn:E; simpl.
  - rewrite List.filter_app, length_app. simpl.
    case_bool_decide; case_decide; done.
  - case_decide; lia.
Qed.

(** *** The steps of a request *)

Lemma resume_idle c' i (w : world num) :
  pending w !! c' = None -> resume c' i w = w.
Proof. unfold resume. by intros ->. Qed.

(** A resumed body is left alone, returns, or is suspended again. *)
Lemma resume_cases c' i (w : world num) req :
  pending w !! c' = Some req ->
  resume c' i w = w
  \/ (exists res log, resume c' i w = settle c' req res log w)
  \/ (exists l, resume c' i w = suspend c' req l w).
Proof.
  intros Hp. unfold resume. rewrite Hp.
  destruct (suspended req) as [|l], i as [[r|e]|[value| |e]];
    try (by left); try (right; left; by eauto).
  - destruct (negb (ok r)); [right; left; by eauto|].
    destruct (negb (readable r)).
    + match goal with
      | |- context [agent_finish ?x] =>
          destruct (agent_finish x) as [res st]
      end. right. left. by eauto.
    + right. right. by eauto.
  - match goal with
    | |- context [on_value ?f value l] =>
        destruct (on_value f value l) as [[[]|e] l']
    end.
    + right. right. by eauto.
    + right. left. by eauto.
  - match goal with
    | |- context [agent_finish ?x] =>
        destruct (agent_finish x) as [res st]
    end. right. left. by eauto.
Qed.

(** A body that resumes with the rejection of a cancelled [fetch] or read
    returns [{success: false, error: "aborted"}]. *)
Lemma resume_cancelled c' e (w : world num) req :
  pending w !! c' = Some req -> err_name e = js "AbortError" ->
  exists log,
    resume c' (cancellation (suspended req) e) w
    = settle c' req aborted_result log w.
Proof.
  intros Hp He. unfold resume. rewrite Hp.
  assert (Hc : agent_catch (num := num) e = aborted_result)
    by (unfold agent_catch; by rewrite bool_decide_eq_true_2).
  destruct (suspended req) as [|l]; cbn [cancellation]; rewrite Hc;
    by eauto.
Qed.

(** *** One request among the others *)

(** The request [id], whose controller is [c], is the only one with that
    id and that controller. *)
Definition tracked (id : jsstring) (c : nat) (w : world num) : Prop :=
  c < controllers w
  /\ (forall c' req, pending w !! c' = Some req -> requestId req = id ->
                     c' = c)
  /\ (forall id', activeAgentRequests w !! id' = Some c -> id' = id).

(** Where the request is in its life: registered and running; aborted and
    not yet returned; returned. [base] counts the removals of [id] that
    happened before the request started. *)
Inductive stage (id : jsstring) (c : nat) (base : nat) (w : world num)
  : Prop :=
| Active (req : request num) :
    activeAgentRequests w !! id = Some c ->
    pending w !! c = Some req -> requestId req = id ->
    c ∉ aborted w -> settled w !! c = None ->
    removals id w = base -> stage id c base w
| Aborting (req : request num) :
    activeAgentRequests w !! id = None ->
    pending w !! c = Some req -> requestId req = id ->
    c ∈ aborted w -> settled w !! c = None ->
    removals id w = S base -> stage id c base w
| Returned (r : agent_result num) :
    activeAgentRequests w !! id = None ->
    pending w !! c = None -> settled w !! c = Some r ->
    removals id w = S base -> stage id c base w.

Lemma settle_fields c' req res log (w : world num) :
  aborted (settle c' req res log w) = aborted w
  /\ pending (settle c' req res log w) = delete c' (pending w)
  /\ settled (settle c' req res log w) = <[c' := res]> (settled w)
  /\ controllers (settle c' req res log w) = controllers w.
Proof.
  unfold settle.
  destruct (registry_delete_other (requestId req)
              {| activeAgentRequests := activeAgentRequests w;
                 aborted := aborted w; pending := delete c' (pending w);
                 settled := <[c' := res]> (settled w);
                 controllers := controllers w; removed := removed w;
                 logged := logged w ++ log |}) as (-> & -> & -> & ->).
  done.
Qed.

Lemma settle_lookup c' req res log (w : world num) id :
  activeAgentRequests (settle c' req res log w) !! id
  = if decide (requestId req = id) then None
    else activeAgentRequests w !! id.
Proof. unfold settle. by rewrite registry_delete_lookup. Qed.

Lemma settle_removals c' req res log (w : world num) id :
  removals id (settle c' req res log w)
  = removals id w
    + (if decide (requestId req = id)
       then match activeAgentRequests w !! requestId req with
            | Some _ => 1
            | None => 0
            end
       else 0).
Proof. unfold settle. by rewrite registry_delete_removals. Qed.

(** The local part of [abort]. *)
Definition abort_local (id : jsstring) (w : world num) : world num :=
  match activeAgentRequests w !! id with
  | Some controller =>
      registry_delete id
        {| activeAgentRequests := activeAgentRequests w;
           aborted := {[controller]} ∪ aborted w;
           pending := pending w; settled := settled w;
           controllers := controllers w; removed := removed w;
           logged := logged w |}
  | None => w
  end.

(** What [abort] returns to its caller, and what it logs. *)
Definition notification (id : jsstring) (fetched : completion response)
           (parsed : completion (json num)) (log : list js_error)
  : completion (json num) * list js_error :=
  if well_formed_utf16 id then httpRequest fetched parsed log
  else (Throw URIError, log).

Lemma abort_eq id fetched parsed (w : world num) :
  abort id fetched parsed w
  = (fst (notification id fetched parsed (logged (abort_local id w))),
     {| activeAgentRequests := activeAgentRequests (abort_local id w);
        aborted := aborted (abort_local id w);
        pending := pending (abort_local id w);
        settled := settled (abort_local id w);
        controllers := controllers (abort_local id w);
        removed := removed (abort_local id w);
        logged := snd (notification id fetched parsed
                         (logged (abort_local id w))) |}).
Proof.
  unfold abort. fold (abort_local id w).
  fold (notification id fetched parsed (logged (abort_local id w))).
  by destruct (notification id fetched parsed (logged (abort_local id w))).
Qed.

Lemma abort_snd id fetched parsed (w : world num) :
  activeAgentRequests (snd (abort id fetched parsed w))
  = activeAgentRequests (abort_local id w)
  /\ aborted (snd (abort id fetched parsed w)) = aborted (abort_local id w)
  /\ pending (snd (abort id fetched parsed w)) = pending (abort_local id w)
  /\ settled (snd (abort id fetched parsed w)) = settled (abort_local id w)
  /\ controllers (snd (abort id fetched parsed w))
     = controllers (abort_local id w)
  /\ forall id', removals id' (snd (abort id fetched parsed w))
                 = removals id' (abort_local id w).
Proof. rewrite abort_eq. by repeat split. Qed.

Lemma abort_local_lookup id' (w : world num) id :
  activeAgentRequests (abort_local id' w) !! id
  = if decide (id' = id) then None else activeAgentRequests w !! id.
Proof.
  unfold abort_local. destruct (activeAgentRequests w !! id') eqn:E.
  - by rewrite registry_delete_lookup.
  - case_decide; [by subst|done].
Qed.

Lemma abort_local_fields id' (w : world num) :
  aborted (abort_local id' w)
  = match activeAgentRequests w !! id' with
    | Some c' => {[c']} ∪ aborted w
    | None => aborted w
    end
  /\ pending (abort_local id' w) = pending w
  /\ settled (abort_local id' w) = settled w
  /\ controllers (abort_local id' w) = controllers w.
Proof.
  unfold abort_local. destruct (activeAgentRequests w !! id') eqn:E; [|done].
  match goal with
  | |- context [registry_delete id' ?x] =>
      destruct (registry_delete_other id' x) as (-> & -> & -> & ->)
  end. done.
Qed.

Lemma abort_local_removals id' (w : world num) id :
  removals id (abort_local id' w)
  = removals id w
    + (if decide (id' = id)
       then match activeAgentRequests w !! id' with
            | Some _ => 1
            | None => 0
            end
       else 0).
Proof.
  unfold abort_local. destruct (activeAgentRequests w !! id') eqn:E.
  - rewrite registry_delete_removals. simpl. by rewrite E.
  - case_decide; lia.
Qed.

Lemma step_tracked id c (w : world num) e :
  tracked id c w -> draws id e = false -> tracked id c (step w e).
Proof.
  intros (Hc & Hp & Hr) Hd. destruct e as [id' pl f | c' i | id' fe pa].
  - simpl in Hd. apply bool_decide_eq_false in Hd.
    assert (Hreg : forall id'', <[id' := controllers w]>
                                  (activeAgentRequests w) !! id'' = Some c ->
                                id'' = id).
    { intros id''. rewrite lookup_insert. case_decide.
      - intros [= Heq]. lia.
      - apply Hr. }
    destruct pl as [[]|e0]; (split; [|split]); simpl; [lia| |done|lia|done..].
    intros c'' req. rewrite lookup_insert. case_decide.
    + intros [= <-] Hid. simpl in Hid. congruence.
    + apply Hp.
  - simpl. destruct (pending w !! c') as [req|] eqn:Ep;
      [|by rewrite resume_idle].
    destruct (resume_cases c' i w req Ep)
      as [-> | [(res & log & ->) | (l & ->)]]; [done| |].
    + destruct (settle_fields c' req res log w) as (_ & Hpe & _ & Hco).
      repeat split.
      * by rewrite Hco.
      * intros c'' req'. rewrite Hpe, lookup_delete. case_decide; [done|].
        apply Hp.
      * intros id''. rewrite settle_lookup. case_decide; [done|]. apply Hr.
    + repeat split; simpl; [done| |done].
      intros c'' req'. rewrite lookup_insert. case_decide.
      * intros [= <-] Hid. simpl in Hid. subst c''. by apply (Hp c' req).
      * apply Hp.
  - cbn [step]. rewrite abort_eq. cbn [snd].
    destruct (abort_local_fields id' w) as (_ & Hpe & _ & Hco).
    unfold tracked. cbn [controllers pending activeAgentRequests].
    rewrite Hco, Hpe. repeat split; [done|done|].
    intros id''. rewrite abort_local_lookup. case_decide; [done|].
    apply Hr.
Qed.

(** A stage depends on the world only through the entry of [id], the
    body and result of [c], whether [c] is aborted, and the removals. *)
Lemma stage_view id c base (w w' : world num) :
  activeAgentRequests w' !! id = activeAgentRequests w !! id ->
  pending w' !! c = pending w !! c ->
  (c ∈ aborted w' <-> c ∈ aborted w) ->
  settled w' !! c = settled w !! c ->
  removals id w' = removals id w ->
  stage id c base w -> stage id c base w'.
Proof.
  intros Hr Hp Ha Hs Hn [req | req | r]; intros.
  - apply (Active _ _ _ _ req); rewrite ?Hr, ?Hp, ?Ha, ?Hs, ?Hn; done.
  - apply (Aborting _ _ _ _ req); rewrite ?Hr, ?Hp, ?Ha, ?Hs, ?Hn; done.
  - apply (Returned _ _ _ _ r); rewrite ?Hr, ?Hp, ?Ha, ?Hs, ?Hn; done.
Qed.

Lemma step_stage id c base (w : world num) e :
  tracked id c w -> stage id c base w -> draws id e = false ->
  stage id c base (step w e).
Proof.
  intros (Hc & Hp & Hr) Hst Hd. destruct e as [id' pl f | c' i | id' fe pa].
  - simpl in Hd. apply bool_decide_eq_false in Hd.
    destruct pl as [[]|e0]; apply (stage_view id c base w); simpl;
      try done; try (by rewrite lookup_insert_ne).
    rewrite lookup_insert_ne; [done | lia].
  - cbn [step]. destruct (pending w !! c') as [req|] eqn:Ep;
      [|by rewrite resume_idle].
    destruct (resume_cases c' i w req Ep)
      as [-> | [(res & log & ->) | (l & ->)]]; [done| |].
    + destruct (settle_fields c' req res log w) as (Hab & Hpe & Hse & Hco).
      destruct (decide (c' = c)) as [->|Hne].
      * assert (Hret : forall req0,
                   pending w !! c = Some req0 -> requestId req0 = id ->
                   removals id w
                   + match activeAgentRequests w !! id with
                     | Some _ => 1
                     | None => 0
                     end = S base ->
                   stage id c base (settle c req res log w)).
        { intros req0 G2 G3 Hn.
          assert (req0 = req) by congruence. subst req0.
          apply (Returned _ _ _ _ res).
          - rewrite settle_lookup. by rewrite decide_True.
          - rewrite Hpe. apply lookup_delete_eq.
          - rewrite Hse. apply lookup_insert_eq.
          - rewrite settle_removals, decide_True by done.
            by rewrite G3. }
        destruct Hst as [req0 H1 H2 H3 H4 H5 H6
                        | req0 H1 H2 H3 H4 H5 H6 | r H1 H2 H3 H4];
          [| |congruence]; apply (Hret req0); try done; rewrite H1; lia.
      * assert (Hid : requestId req <> id)
          by (intros Hid; apply Hne; by apply (Hp c' req)).
        apply (stage_view id c base w); try done.
        -- rewrite settle_lookup. by rewrite decide_False.
        -- rewrite Hpe. by apply lookup_delete_ne.
        -- by rewrite Hab.
        -- rewrite Hse. by apply lookup_insert_ne.
        -- rewrite settle_removals, decide_False by done. lia.
    + destruct (decide (c' = c)) as [->|Hne].
      * destruct Hst as [req0 H1 H2 H3 H4 H5 H6
                        | req0 H1 H2 H3 H4 H5 H6 | r H1 H2 H3 H4];
          [| |congruence]; assert (req0 = req) by congruence; subst req0.
        -- apply (Active _ _ _ _ {| requestId := requestId req;
                                    onChunk := onChunk req;
                                    suspended := AwaitRead l |});
             simpl; try done.
           apply lookup_insert_eq.
        -- apply (Aborting _ _ _ _ {| requestId := requestId req;
                                      onChunk := onChunk req;
                                      suspended := AwaitRead l |});
             simpl; try done.
           apply lookup_insert_eq.
      * apply (stage_view id c base w); simpl; try done.
        by rewrite lookup_insert_ne.
  - cbn [step].
    destruct (abort_snd id' fe pa w) as (E1 & E2 & E3 & E4 & E5 & E6).
    destruct (abort_local_fields id' w) as (Hab & Hpe & Hse & Hco).
    destruct (decide (id' = id)) as [->|Hne].
    + assert (Hlook : activeAgentRequests (snd (abort id fe pa w)) !! id
                      = None)
        by (rewrite E1, abort_local_lookup; by rewrite decide_True).
      destruct Hst as [req0 H1 H2 H3 H4 H5 H6
                      | req0 H1 H2 H3 H4 H5 H6 | r H1 H2 H3 H4].
      * apply (Aborting _ _ _ _ req0); try done.
        -- by rewrite E3, Hpe.
        -- rewrite E2, Hab, H1. apply elem_of_union_l.
           by apply elem_of_singleton.
        -- by rewrite E4, Hse.
        -- rewrite E6, abort_local_removals, decide_True, H1 by done. lia.
      * apply (Aborting _ _ _ _ req0); try done.
        -- by rewrite E3, Hpe.
        -- by rewrite E2, Hab, H1.
        -- by rewrite E4, Hse.
        -- rewrite E6, abort_local_removals, decide_True, H1 by done. lia.
      * apply (Returned _ _ _ _ r); try done.
        -- by rewrite E3, Hpe.
        -- by rewrite E4, Hse.
        -- rewrite E6, abort_local_removals, decide_True, H1 by done. lia.
    + apply (stage_view id c base w); try done.
      * rewrite E1, abort_local_lookup. by rewrite decide_False.
      * by rewrite E3, Hpe.
      * rewrite E2, Hab.
        destruct (activeAgentRequests w !! id') as [c''|] eqn:Er; [|done].
        assert (c'' <> c) by (intros ->; by apply Hne, Hr).
        rewrite elem_of_union, elem_of_singleton. split; [|tauto].
        intros [->|Hin]; [congruence | exact Hin].
      * by rewrite E4, Hse.
      * rewrite E6, abort_local_removals, decide_False by done. lia.
Qed.

(** *** Histories *)

(** No event of the list is a [runStream] call that draws [id]. *)
Definition quiet (id : jsstring) (es : list (event num)) : Prop :=
  forallb (fun e => negb (draws id e)) es = true.

(** No event of the list resumes the body of [c]. *)
Definition unresumed (c : nat) (es : list (event num)) : Prop :=
  forallb (fun e => negb (resumes c e)) es = true.

(** The id has not been drawn yet, and every controller in use was handed
    out by the counter. *)
Definition unused (id : jsstring) (w : world num) : Prop :=
  (forall c req, pending w !! c = Some req ->
                 c < controllers w /\ requestId req <> id)
  /\ (forall id' c, activeAgentRequests w !! id' = Some c ->
                    c < controllers w)
  /\ (forall c, c ∈ aborted w -> c < controllers w)
  /\ (forall c r, settled w !! c = Some r -> c < controllers w).

Lemma unused_page_load id : unused id page_load.
Proof.
  split; [|split; [|split]]; simpl.
  - intros c req Hl. by rewrite lookup_empty in Hl.
  - intros id' c Hl. by rewrite lookup_empty in Hl.
  - intros c Hc. by apply elem_of_empty in Hc.
  - intros c r Hl. by rewrite lookup_empty in Hl.
Qed.

Lemma step_unused id (w : world num) e :
  unused id w -> draws id e = false -> unused id (step w e).
Proof.
  intros (Hp & Hr & Ha & Hs) Hd. destruct e as [id' pl f | c' i | id' fe pa].
  - simpl in Hd. apply bool_decide_eq_false in Hd.
    assert (Hreg : forall id'' c,
               <[id' := controllers w]> (activeAgentRequests w) !! id''
               = Some c -> c < S (controllers w)).
    { intros id'' c. rewrite lookup_insert. case_decide.
      - intros [= <-]. lia.
      - intros Hl. apply Hr in Hl. lia. }
    destruct pl as [[]|e0]; (split; [|split; [|split]]); simpl; try done.
    + intros c req. rewrite lookup_insert. case_decide.
      * intros [= <-]. simpl. split; [lia | done].
      * intros Hl. apply Hp in Hl. split; [lia | tauto].
    + intros c Hc. apply Ha in Hc. lia.
    + intros c r Hc. apply Hs in Hc. lia.
    + intros c req Hl. apply Hp in Hl. split; [lia | tauto].
    + intros c Hc. apply Ha in Hc. lia.
    + intros c r Hc. apply Hs in Hc. lia.
  - cbn [step]. destruct (pending w !! c') as [req|] eqn:Ep;
      [|by rewrite resume_idle].
    destruct (resume_cases c' i w req Ep)
      as [-> | [(res & log & ->) | (l & ->)]]; [done| |].
    + destruct (settle_fields c' req res log w) as (Hab & Hpe & Hse & Hco).
      unfold unused. rewrite Hab, Hpe, Hse, Hco.
      split; [|split; [|split]].
      * intros c req'. rewrite lookup_delete. case_decide; [done|].
        apply Hp.
      * intros id'' c. rewrite settle_lookup. case_decide; [done|].
        apply Hr.
      * done.
      * intros c r. rewrite lookup_insert. case_decide.
        -- intros _. subst c. apply Hp in Ep. tauto.
        -- apply Hs.
    + unfold unused, suspend. simpl. split; [|split; [|split]]; try done.
      intros c req'. rewrite lookup_insert. case_decide.
      * intros [= <-]. simpl. subst c. apply Hp in Ep. tauto.
      * apply Hp.
  - cbn [step].
    destruct (abort_snd id' fe pa w) as (E1 & E2 & E3 & E4 & E5 & _).
    destruct (abort_local_fields id' w) as (Hab & Hpe & Hse & Hco).
    unfold unused. rewrite E1, E2, E3, E4, E5, Hab, Hpe, Hse, Hco.
    split; [|split; [|split]]; try done.
    + intros id'' c. rewrite abort_local_lookup. case_decide; [done|].
      apply Hr.
    + intros c. destruct (activeAgentRequests w !! id') as [c''|] eqn:Er;
        [|apply Ha].
      intros [->%elem_of_singleton | Hc]%elem_of_union; [|by apply Ha].
      by apply Hr in Er.
Qed.

Lemma run_unused id (w : world num) es :
  unused id w -> quiet id es -> unused id (run w es).
Proof.
  unfold quiet, run. revert w.
  induction es as [|e es IH]; intros w Hw; [done|].
  simpl. intros [Hd%negb_true_iff Hq]%andb_prop.
  apply IH; [by apply step_unused | done].
Qed.

(** Right after [runStream] the request is active. *)
Lemma runStream_stage id f (w : world num) :
  unused id w ->
  tracked id (controllers w) (snd (runStream id (Normal tt) f w))
  /\ stage id (controllers w) (removals id w)
       (snd (runStream id (Normal tt) f w)).
Proof.
  intros (Hp & Hr & Ha & Hs). split.
  - split; [|split]; simpl.
    + lia.
    + intros c' req. rewrite lookup_insert. case_decide; [done|].
      intros Hl Hid. apply Hp in Hl. tauto.
    + intros id'. rewrite lookup_insert. case_decide; [done|].
      intros Hl. apply Hr in Hl. lia.
  - eapply Active; simpl.
    + apply lookup_insert_eq.
    + apply lookup_insert_eq.
    + done.
    + intros Hc. apply Ha in Hc. lia.
    + destruct (settled w !! controllers w) as [r|] eqn:E; [|done].
      apply Hs in E. lia.
    + done.
Qed.

Lemma run_stage id c base (w : world num) es :
  tracked id c w -> stage id c base w -> quiet id es ->
  tracked id c (run w es) /\ stage id c base (run w es).
Proof.
  unfold quiet, run. revert w.
  induction es as [|e es IH]; intros w Ht Hs; [done|].
  simpl. intros [Hd%negb_true_iff Hq]%andb_prop.
  apply IH; [by apply step_tracked | by apply step_stage | done].
Qed.

(** Events that do not resume [c] leave its body suspended where it is,
    and no event takes back an abort. *)
Lemma step_pending_other c (w : world num) e :
  c < controllers w -> resumes c e = false ->
  pending (step w e) !! c = pending w !! c
  /\ c < controllers (step w e).
Proof.
  intros Hc He. destruct e as [id' pl f | c' i | id' fe pa].
  - destruct pl as [[]|e0]; simpl; (split; [|lia]); [|done].
    rewrite lookup_insert_ne; [done | lia].
  - simpl in He. apply bool_decide_eq_false in He. cbn [step].
    destruct (pending w !! c') as [req|] eqn:Ep;
      [|by rewrite resume_idle].
    destruct (resume_cases c' i w req Ep)
      as [-> | [(res & log & ->) | (l & ->)]]; [done| |].
    + destruct (settle_fields c' req res log w) as (_ & -> & _ & ->).
      split; [|done]. by apply lookup_delete_ne.
    + simpl. split; [|done]. by apply lookup_insert_ne.
  - cbn [step].
    destruct (abort_snd id' fe pa w) as (_ & _ & -> & _ & -> & _).
    by destruct (abort_local_fields id' w) as (_ & -> & _ & ->).
Qed.

Lemma step_aborted_mono c (w : world num) e :
  c ∈ aborted w -> c ∈ aborted (step w e).
Proof.
  intros Hc. destruct e as [id' pl f | c' i | id' fe pa].
  - by destruct pl as [[]|e0].
  - cbn [step]. destruct (pending w !! c') as [req|] eqn:Ep;
      [|by rewrite resume_idle].
    destruct (resume_cases c' i w req Ep)
      as [-> | [(res & log & ->) | (l & ->)]]; [done| |done].
    by destruct (settle_fields c' req res log w) as (-> & _).
  - cbn [step].
    destruct (abort_snd id' fe pa w) as (_ & -> & _).
    destruct (abort_local_fields id' w) as (-> & _).
    destruct (activeAgentRequests w !! id'); set_solver.
Qed.

Lemma run_pending_other c (w : world num) es :
  c < controllers w -> unresumed c es ->
  pending (run w es) !! c = pending w !! c.
Proof.
  unfold unresumed, run. revert w.
  induction es as [|e es IH]; intros w Hc; [done|].
  simpl. intros [He%negb_true_iff Hq]%andb_prop.
  destruct (step_pending_other c w e Hc He) as [<- Hc'].
  by apply IH.
Qed.

Lemma run_aborted_mono c (w : world num) es :
  c ∈ aborted w -> c ∈ aborted (run w es).
Proof.
  unfold run. revert w. induction es as [|e es IH]; intros w Hc; [done|].
  simpl. by apply IH, step_aborted_mono.
Qed.

Lemma run_app (w : world num) es1 es2 :
  run w (es1 ++ es2) = run (run w es1) es2.
Proof. apply fold_left_app. Qed.

(** *** A call that throws *)

(** An entry whose id no suspended body carries stays where it is until
    [abort] is called on that id. *)
Lemma step_entry_stays id c (w : world num) e :
  unused id w -> draws id e = false -> aborts id e = false ->
  activeAgentRequests w !! id = Some c ->
  activeAgentRequests (step w e) !! id = Some c
  /\ removals id (step w e) = removals id w.
Proof.
  intros (Hp & _) Hd Ha Hl. destruct e as [id' pl f | c' i | id' fe pa].
  - simpl in Hd. apply bool_decide_eq_false in Hd.
    destruct pl as [[]|e0]; simpl; by rewrite lookup_insert_ne.
  - cbn [step]. destruct (pending w !! c') as [req|] eqn:Ep;
      [|by rewrite resume_idle].
    assert (Hid : requestId req <> id) by (apply Hp in Ep; tauto).
    destruct (resume_cases c' i w req Ep)
      as [-> | [(res & log & ->) | (l & ->)]]; [done| |done].
    rewrite settle_lookup, settle_removals, !decide_False by done.
    split; [done | lia].
  - simpl in Ha. apply bool_decide_eq_false in Ha. cbn [step].
    destruct (abort_snd id' fe pa w) as (-> & _ & _ & _ & _ & ->).
    rewrite abort_local_lookup, abort_local_removals, !decide_False by done.
    split; [done | lia].
Qed.

Lemma run_entry_stays id c (w : world num) es :
  unused id w -> quiet id es ->
  forallb (fun e => negb (aborts id e)) es = true ->
  activeAgentRequests w !! id = Some c ->
  activeAgentRequests (run w es) !! id = Some c
  /\ removals id (run w es) = removals id w.
Proof.
  unfold quiet, run. revert w.
  induction es as [|e es IH]; intros w Hu Hq Ha Hl; [done|].
  simpl in Hq, Ha. apply andb_prop in Hq as [Hd%negb_true_iff Hq].
  apply andb_prop in Ha as [Hb%negb_true_iff Ha].
  destruct (step_entry_stays id c w e Hu Hd Hb Hl) as [Hl' Hn].
  simpl. rewrite <- Hn. apply IH; [by apply step_unused | done..].
Qed.

(** A controller without a body never gets one, nor a result. *)
Lemma step_bodiless c (w : world num) e :
  c < controllers w -> pending w !! c = None -> settled w !! c = None ->
  c < controllers (step w e)
  /\ pending (step w e) !! c = None
  /\ settled (step w e) !! c = None.
Proof.
  intros Hc Hp Hs. destruct e as [id' pl f | c' i | id' fe pa].
  - destruct pl as [[]|e0]; simpl; (split; [lia|]); [|done].
    rewrite lookup_insert_ne; [done | lia].
  - cbn [step]. destruct (pending w !! c') as [req|] eqn:Ep;
      [|by rewrite resume_idle].
    assert (Hne : c' <> c) by congruence.
    destruct (resume_cases c' i w req Ep)
      as [-> | [(res & log & ->) | (l & ->)]]; [done| |].
    + destruct (settle_fields c' req res log w) as (_ & -> & -> & ->).
      by rewrite lookup_delete_ne, lookup_insert_ne.
    + simpl. by rewrite lookup_insert_ne.
  - cbn [step].
    destruct (abort_snd id' fe pa w) as (_ & _ & -> & -> & -> & _).
    by destruct (abort_local_fields id' w) as (_ & -> & -> & ->).
Qed.

Lemma run_bodiless c (w : world num) es :
  c < controllers w -> pending w !! c = None -> settled w !! c = None ->
  pending (run w es) !! c = None /\ settled (run w es) !! c = None.
Proof.
  unfold run. revert w.
  induction es as [|e es IH]; intros w Hc Hp Hs; [done|].
  destruct (step_bodiless c w e Hc Hp Hs) as (Hc' & Hp' & Hs').
  simpl. by apply IH.
Qed.

(** When the payload literal throws (a [null] context), [runStream]
    throws after [activeAgentRequests.set]: no body is started and no
    promise is returned, and the entry stays in the map, without a
    removal, until [abort] is called on its id. *)
Lemma runStream_throws id e f es1 es2 :
  quiet id es1 -> quiet id es2 ->
  forallb (fun e => negb (aborts id e)) es2 = true ->
  let w0 := run page_load es1 in
  let c := controllers w0 in
  let w := run w0 (CallRunStream id (Throw e) f :: es2) in
  fst (runStream id (Throw e) f w0) = Throw e
  /\ activeAgentRequests w !! id = Some c
  /\ pending w !! c = None
  /\ settled w !! c = None
  /\ removals id w = removals id w0.
Proof.
  intros Hq1 Hq2 Ha w0 c w.
  assert (Hu : unused id w0)
    by (apply run_unused; [apply unused_page_load|done]).
  set (w1 := snd (runStream id (Throw e) f w0)).
  change w with (run w1 es2).
  destruct Hu as (Hp & Hr & Hab & Hs).
  assert (Hu1 : unused id w1).
  { split; [|split; [|split]]; simpl.
    - intros c' req Hl. apply Hp in Hl. split; [lia | tauto].
    - intros id' c'. rewrite lookup_insert. case_decide.
      + intros [= <-]. lia.
      + intros Hl. apply Hr in Hl. lia.
    - intros c' Hc. apply Hab in Hc. lia.
    - intros c' r Hc. apply Hs in Hc. lia. }
  assert (Hl1 : activeAgentRequests w1 !! id = Some c)
    by apply lookup_insert_eq.
  assert (Hp1 : pending w1 !! c = None).
  { simpl. destruct (pending w0 !! c) as [req|] eqn:E; [|done].
    apply Hp in E. unfold c in E. lia. }
  assert (Hs1 : settled w1 !! c = None).
  { simpl. destruct (settled w0 !! c) as [r|] eqn:E; [|done].
    apply Hs in E. unfold c in E. lia. }
  destruct (run_entry_stays id c w1 es2 Hu1 Hq2 Ha Hl1) as [Hl2 Hn2].
  destruct (run_bodiless c w1 es2) as [Hp2 Hs2]; [simpl; lia | done..|].
  done.
Qed.


(** *** The body of [runStream], step by step and as a whole *)

(** What the platform hands to the body during one exchange. *)
Definition script (fetched : completion response) (reads : list (list byte))
           (last : completion unit) : list input :=
  Fetched fetched
  :: List.map (fun value => Read (Value value)) reads
  ++ [Read (match last with
            | Normal _ => Done
            | Throw e => ReadError e
            end)].

Lemma run_idle c (w : world num) (inputs : list input) :
  pending w !! c = None -> run w (List.map (Resume c) inputs) = w.
Proof.
  intros Hp. induction inputs as [|i inputs IH]; [done|].
  cbn [List.map run fold_left step]. rewrite resume_idle by done.
  exact IH.
Qed.

Lemma settle_then_idle c req res log (w : world num) inputs :
  settled (run (settle c req res log w) (List.map (Resume c) inputs)) !! c
  = Some res.
Proof.
  destruct (settle_fields c req res log w) as (_ & Hpe & Hse & _).
  rewrite run_idle by (rewrite Hpe; apply lookup_delete_eq).
  rewrite Hse. apply lookup_insert_eq.
Qed.

Lemma reading_runs_loop c id f l (w : world num) reads last :
  pending w !! c = Some {| requestId := id; onChunk := f;
                           suspended := AwaitRead l |} ->
  settled (run w (List.map (Resume c)
                    (List.map (fun value => Read (Value value)) reads
                     ++ [Read (match last with
                               | Normal _ => Done
                               | Throw e => ReadError e
                               end)]))) !! c
  = Some (fst (agent_finish
                 (read_loop (Some (agent_callback f)) reads last l))).
Proof.
  revert l w. induction reads as [|value reads IH]; intros l w Hp.
  - cbn [List.map app run fold_left step]. unfold resume.
    rewrite Hp. cbn [suspended onChunk].
    destruct last as [[]|e]; cbn [read_loop].
    + destruct (agent_finish (on_done (Some (agent_callback f)) l))
        as [res st]. cbn [fst].
      destruct (settle_fields c {| requestId := id; onChunk := f;
                                   suspended := AwaitRead l |}
                  res (console st) w) as (_ & _ & -> & _).
      apply lookup_insert_eq.
    + cbn [agent_finish fst].
      destruct (settle_fields c {| requestId := id; onChunk := f;
                                   suspended := AwaitRead l |}
                  (agent_catch e) (console (sse_state l)) w)
        as (_ & _ & -> & _).
      apply lookup_insert_eq.
  - rewrite read_loop_cons.
    cbn [List.map app run fold_left step]. unfold resume at 1.
    rewrite Hp. cbn [suspended onChunk].
    rewrite on_value_eq.
    apply (IH (feed_value (Some (agent_callback f)) l value)).
    unfold suspend, feed_value. rewrite on_value_eq. cbn.
    apply lookup_insert_eq.
Qed.

(** The promise of a request that is resumed with the outcome of its
    [fetch], then with each chunk, then with the end of the stream,
    settles with the result of [runStream_body]. *)
Lemma machine_runs_body id f fetched reads last (w : world num) :
  settled (run (snd (runStream id (Normal tt) f w))
             (List.map (Resume (controllers w))
                       (script fetched reads last))) !! controllers w
  = Some (fst (runStream_body f fetched reads last)).
Proof.
  unfold script, runStream_body, postSse, consumeSseResponse.
  set (c := controllers w).
  set (req := {| requestId := id; onChunk := f; suspended := AwaitFetch |}).
  cbn [List.map run fold_left step]. unfold resume at 1.
  cbn [runStream snd pending aborted]. fold c.
  rewrite lookup_insert_eq. cbn [suspended onChunk].
  destruct fetched as [r|e].
  - destruct (negb (ok r)).
    + apply settle_then_idle.
    + destruct (negb (readable r)).
      * destruct (agent_finish (Normal [], sse_state (start agg_init [])))
          as [res st]. apply settle_then_idle.
      * apply (reading_runs_loop _ id f); simpl.
        apply lookup_insert_eq.
  - apply settle_then_idle.
Qed.

(** *** [abort] *)

Lemma httpRequest_result fetched (parsed : completion (json num)) log :
  fst (httpRequest fetched parsed log)
  = match fetched with
    | Throw e => Throw e
    | Normal r => if ok r then parsed else Throw (http_error r)
    end.
Proof.
  unfold httpRequest, try_catch, bind, lift, throw, modify.
  destruct fetched as [r|e]; [|done].
  destruct (ok r); [|done]. by destruct parsed.
Qed.

(** C2 (as amended).  [abort] on an id that is not registered cancels
    nothing: the map, the controllers, the suspended bodies, their results
    and the removals are as before, whatever the notification does; the
    call then settles as the notification request does: with the reply
    when the server answers ok, with the error of the request when it
    fails (and with a URIError, no request being made, when the id cannot
    be encoded). *)
Theorem abort_unregistered id fetched parsed (w : world num) :
  activeAgentRequests w !! id = None ->
  activeAgentRequests (snd (abort id fetched parsed w))
  = activeAgentRequests w
  /\ aborted (snd (abort id fetched parsed w)) = aborted w
  /\ pending (snd (abort id fetched parsed w)) = pending w
  /\ settled (snd (abort id fetched parsed w)) = settled w
  /\ removed (snd (abort id fetched parsed w)) = removed w
  /\ fst (abort id fetched parsed w)
     = if well_formed_utf16 id then
         match fetched with
         | Throw e => Throw e
         | Normal r => if ok r then parsed else Throw (http_error r)
         end
       else Throw URIError.
Proof.
  intros Hid. rewrite abort_eq. cbn [fst snd activeAgentRequests aborted
    pending settled removed].
  unfold notification. destruct (well_formed_utf16 id).
  - rewrite httpRequest_result. unfold abort_local. by rewrite Hid.
  - unfold abort_local. by rewrite Hid.
Qed.

(** C6 (as amended).  Take any history of the page in which the id is
    drawn once, by the call of [runStream] under study, which returns its
    id and promise.  At every later moment the request is registered and
    running, or aborted and not yet returned, or returned; its entry has
    been removed at most once; once the promise is settled, on whichever
    path, the entry is gone and has been removed exactly once.  And if
    [abort] is called while the request is registered, the entry is
    removed at once; if the [fetch] or the read the body awaits was still
    pending, so that the body resumes with its rejection by an
    AbortError, the promise settles with [{success: false, error:
    "aborted"}], the entry having been removed exactly once; and if the
    body resumes instead from a read that had been fulfilled with the end
    of the stream, the promise settles with the result of the stream. *)
Theorem request_lifecycle id f es1 es2 :
  quiet id es1 -> quiet id es2 ->
  let w0 := run page_load es1 in
  let c := controllers w0 in
  let w := run w0 (CallRunStream id (Normal tt) f :: es2) in
  stage id c (removals id w0) w
  /\ removals id w <= S (removals id w0)
  /\ (forall r, settled w !! c = Some r ->
                activeAgentRequests w !! id = None
                /\ pending w !! c = None
                /\ removals id w = S (removals id w0))
  /\ (activeAgentRequests w !! id = Some c ->
      exists req,
        pending w !! c = Some req
        /\ forall fetched parsed es3 e,
            quiet id es3 -> unresumed c es3 ->
            err_name e = js "AbortError" ->
            let wa := run w (CallAbort id fetched parsed :: es3) in
            let w' := step wa (Resume c (cancellation (suspended req) e)) in
            (activeAgentRequests wa !! id = None
             /\ pending wa !! c = Some req
             /\ removals id wa = S (removals id w0))
            /\ (settled w' !! c = Some aborted_result
                /\ activeAgentRequests w' !! id = None
                /\ pending w' !! c = None
                /\ removals id w' = S (removals id w0))
            /\ forall l,
                suspended req = AwaitRead l ->
                settled (step wa (Resume c (Read Done))) !! c
                = Some (fst (agent_finish
                               (on_done
                                  (Some (agent_callback (onChunk req)))
                                  l)))).
Proof.
  intros Hq1 Hq2 w0 c w.
  assert (Hu : unused id w0)
    by (apply run_unused; [apply unused_page_load|done]).
  destruct (runStream_stage id f w0 Hu) as [Ht0 Hs0].
  destruct (run_stage id c (removals id w0) _ es2 Ht0 Hs0 Hq2) as [Ht Hs].
  change (run (snd (runStream id (Normal tt) f w0)) es2) with w in Ht, Hs.
  split; [exact Hs|]. split; [|split].
  - destruct Hs; lia.
  - intros r Hr.
    destruct Hs as [req ? ? ? ? Hn | req ? ? ? ? Hn | r' ? ? ? ?];
      [congruence | congruence | done].
  - intros Hreg.
    destruct Hs as [req H1 H2 H3 H4 H5 H6 | req H1 | r' H1]; [|congruence..].
    exists req. split; [exact H2|].
    intros fetched parsed es3 e Hq3 Hu3 He wa w'.
    set (w1 := step w (CallAbort id fetched parsed)).
    assert (Hta : tracked id c w1) by by apply step_tracked.
    assert (Hsa : stage id c (removals id w0) w1)
      by by apply step_stage; [| eapply Active |].
    assert (Hpa : pending w1 !! c = Some req).
    { unfold w1. cbn [step].
      destruct (abort_snd id fetched parsed w) as (_ & _ & -> & _).
      by destruct (abort_local_fields id w) as (_ & -> & _). }
    assert (Hla : activeAgentRequests w1 !! id = None).
    { unfold w1. cbn [step].
      destruct (abort_snd id fetched parsed w) as (-> & _).
      rewrite abort_local_lookup. by rewrite decide_True. }
    change wa with (run w1 es3) in *.
    destruct (run_stage id c (removals id w0) w1 es3 Hta Hsa Hq3)
      as [Htb Hsb].
    assert (Hpb : pending (run w1 es3) !! c = Some req).
    { rewrite run_pending_other; [done| |done]. by destruct Hta. }
    assert (Hab : c ∈ aborted (run w1 es3)).
    { apply run_aborted_mono. unfold w1. cbn [step].
      destruct (abort_snd id fetched parsed w) as (_ & -> & _).
      destruct (abort_local_fields id w) as (-> & _). rewrite H1.
      apply elem_of_union_l. by apply elem_of_singleton. }
    destruct Hsb as [req' G1 G2 G3 G4 | req' G1 G2 G3 G4 G5 G6 | r' ? G2];
      [done| |congruence].
    split; [done|]. split.
    + destruct (resume_cancelled c e _ req Hpb He) as [log Hw'].
      unfold w'. cbn [step]. rewrite Hw'.
      destruct (settle_fields c req aborted_result log (run w1 es3))
        as (_ & Hpe & Hse & _).
      rewrite Hpe, Hse, settle_lookup, settle_removals.
      assert (req' = req) by congruence. subst req'.
      rewrite !decide_True by done. rewrite G3, G1.
      rewrite lookup_insert_eq, lookup_delete_eq.
      repeat split; try done. lia.
    + intros l Hl. cbn [step]. unfold resume. rewrite Hpb, Hl.
      destruct (agent_finish
                  (on_done (Some (agent_callback (onChunk req))) l))
        as [res st]. cbn [fst].
      destruct (settle_fields c req res (console st) (run w1 es3))
        as (_ & _ & -> & _).
      apply lookup_insert_eq.
Qed.

End RegistryFacts.

(** ** The claims on concrete streams *)

Module Examples.

#[local] Existing Instance Decimal.number.

Definition empty_state : sse Decimal.t unit :=
  {| chunks := []; observer := tt; console := [] |}.

Definition no_callback : option (callback Decimal.t unit) := None.

Definition one : Decimal.t := Decimal.of_literal (js "1").
Definition two : Decimal.t := Decimal.of_literal (js "2").

(** Two records whose CR-LF line ends are cut by a chunk boundary between
    the CR and the LF of the blank line. *)
Definition first_chunk : list byte :=
  TextDecoder.wire "data: 1" ++ [x0d; x0a; x0d].

Definition second_chunk : list byte :=
  [x0a] ++ TextDecoder.wire "data: 2" ++ [x0d; x0a; x0d; x0a].

(** C1.  The body [data: 1 CR LF CR LF data: 2 CR LF CR LF] read as one
    chunk yields the two events 1 and 2; read as two chunks, the first
    one ending between the CR and the LF that close the first record, it
    yields the single event [{content: "1\n2"}]: the blank line is not
    seen, because CR-LF pairs are replaced in each chunk of text
    separately. *)
Theorem crlf_split_merges_records :
  fst (consumeSseResponse no_callback ok_response
         [first_chunk ++ second_chunk] (Normal tt) tt [])
  = Normal [JNum one; JNum two]
  /\ fst (consumeSseResponse no_callback ok_response
            [first_chunk; second_chunk] (Normal tt) tt [])
     = Normal [JObj [(js "content", JStr (js "1" ++ [LF] ++ js "2"))]].
Proof. split; vm_compute; reflexivity. Qed.

Definition network_error : js_error :=
  {| err_name := js "TypeError"; err_message := js "Failed to fetch" |}.

Definition unknown_id : list N := js "agent_1700000000000_k3x9q2ab".

(** [abort] on an id that is not registered, the notification failing:
    the promise returned to the caller is rejected with the error. *)
Lemma abort_unknown_rejects :
  activeAgentRequests (page_load (num := Decimal.t)) !! unknown_id = None
  /\ fst (abort unknown_id (Throw network_error) (Normal JNull)
            (page_load (num := Decimal.t)))
     = Throw network_error.
Proof. split; [apply lookup_empty | reflexivity]. Qed.

Lemma abort_unregistered_witness :
  activeAgentRequests (page_load (num := Decimal.t)) !! unknown_id = None
  /\ pending (snd (abort unknown_id (Normal ok_response) (Normal JNull)
                     (page_load (num := Decimal.t))))
     = pending (page_load (num := Decimal.t))
  /\ fst (abort unknown_id (Normal ok_response) (Normal JNull)
            (page_load (num := Decimal.t)))
     = Normal JNull.
Proof.
  split; [apply lookup_empty|].
  pose proof (abort_unregistered unknown_id (Normal ok_response)
                (Normal JNull) (page_load (num := Decimal.t))
                (lookup_empty _)) as H.
  split; [apply H | apply H].
Defined.

(** A data line with two spaces after the prefix: both are removed, where
    the one-space reading keeps the second. *)
Lemma two_spaces_removed :
  dataText (js "data:  x") <> dataText_one_space (js "data:  x").
Proof. vm_compute. discriminate. Qed.



Lemma agent_run_aggregation_witness :
  fst (runStream_body None (Normal ok_response) [scenario_A] (Normal tt))
  = AgentSuccess (js "Hi") [JStr (js "search")] 1
      (Some (JObj [(js "tokens",
                    JNum (Decimal.of_literal (js "5")))]))
  /\ exists events,
      fst (postSse (Some (agent_callback None)) (Normal ok_response)
             [scenario_A] (Normal tt) agg_init []) = Normal events
      /\ js "Hi" = all_content events.
Proof.
  assert (H : fst (runStream_body None (Normal ok_response) [scenario_A]
                     (Normal tt))
              = AgentSuccess (js "Hi") [JStr (js "search")] 1
                  (Some (JObj [(js "tokens",
                                JNum (Decimal.of_literal (js "5")))])))
    by (vm_compute; reflexivity).
  split; [exact H|].
  destruct (proj1 (agent_run_aggregation None) _ _ _ _ _ _ _ H)
    as (events & He & Hc & _).
  exists events. split; [exact He | exact Hc].
Defined.

Definition agent_id : list N := js "agent_1700000000000_a1b2c3d4".

Definition history : list (event Decimal.t) :=
  [Resume 0 (Fetched (Normal ok_response));
   Resume 0 (Read (Value (TextDecoder.wire "data: {'type':'content'")))].

Lemma request_lifecycle_witness :
  quiet agent_id (@nil (event Decimal.t)) /\ quiet agent_id history
  /\ stage agent_id 0 0
       (run page_load (CallRunStream agent_id (Normal tt) None :: history))
  /\ settled (run (run page_load
                        (CallRunStream agent_id (Normal tt) None :: history))
                [CallAbort agent_id (Throw network_error) (Normal JNull);
                 Resume 0 (Read (ReadError AbortError))]) !! 0
     = Some aborted_result.
Proof.
  assert (Hq : quiet agent_id history) by reflexivity.
  pose proof (request_lifecycle agent_id None [] history eq_refl Hq)
    as (Hs & _ & _ & Ha).
  split; [reflexivity|]. split; [exact Hq|]. split; [exact Hs|].
  destruct Ha as (req & Hp & Hc); [vm_compute; reflexivity|].
  vm_compute in Hp. injection Hp as <-.
  exact (proj1 (proj1 (proj2 (Hc (Throw network_error) (Normal JNull) []
                                AbortError eq_refl eq_refl eq_refl)))).
Defined.

(** C6, as the claim states it.  The listener reacts to the last chunk
    of the stream by a deferred call of [abort]: the call runs while the
    request is registered, before the body resumes from the read that
    had already been fulfilled with the end of the stream.  The body
    never looks at the signal: the promise settles with the success. *)
Definition in_flight : world Decimal.t :=
  run page_load
    [CallRunStream agent_id (Normal tt) None;
     Resume 0 (Fetched (Normal ok_response));
     Resume 0 (Read (Value scenario_A))].

Lemma abort_after_last_read :
  activeAgentRequests in_flight !! agent_id = Some 0
  /\ settled in_flight !! 0 = None
  /\ settled (run in_flight
                [CallAbort agent_id (Normal ok_response) (Normal JNull);
                 Resume 0 (Read Done)]) !! 0
     = Some (AgentSuccess (js "Hi") [JStr (js "search")] 1
               (Some (JObj [(js "tokens",
                             JNum (Decimal.of_literal (js "5")))])))
  /\ AgentSuccess (js "Hi") [JStr (js "search")] 1
       (Some (JObj [(js "tokens", JNum (Decimal.of_literal (js "5")))]))
     <> aborted_result.
Proof.
  split; [vm_compute; reflexivity|]. split; [vm_compute; reflexivity|].
  split; [vm_compute; reflexivity | discriminate].
Qed.



Lemma tool_sets_agree_witness :
  postSse (Some (agent_callback None)) (Normal ok_response) [scenario_A]
    (Normal tt) agg_init []
  = (Normal scenario_A_events,
     snd (postSse (Some (agent_callback None)) (Normal ok_response)
            [scenario_A] (Normal tt) agg_init []))
  /\ toolsUsed (observer
                  (snd (postSse (Some (agent_callback None))
                          (Normal ok_response) [scenario_A] (Normal tt)
                          agg_init [])))
     = tool_set 0 scenario_A_events [].
Proof.
  assert (H : postSse (Some (agent_callback None)) (Normal ok_response)
                [scenario_A] (Normal tt) agg_init []
              = (Normal scenario_A_events,
                 snd (postSse (Some (agent_callback None))
                        (Normal ok_response) [scenario_A] (Normal tt)
                        agg_init []))) by (vm_compute; reflexivity).
  split; [exact H|].
  exact (proj1 (tool_sets_agree None _ _ _ _ _ H)).
Defined.

Definition wire_event : json Decimal.t :=
  JObj [(js "tool_name", JStr (js "search"));
        (js "items", JArr [JObj [(js "start_ts", JNull)]])].




Definition bodiless : response :=
  {| ok := true; status := 204; statusText := js "No Content";
     readable := false |}.

Lemma unreadable_body_witness :
  ok bodiless = true /\ readable bodiless = false
  /\ chatStream (num := Decimal.t) None (Normal bodiless) [] (Normal tt)
     = (ChatSuccess [], {| chunks := []; observer := []; console := [] |}).
Proof.
  split; [reflexivity|]. split; [reflexivity|].
  exact (proj2 (unreadable_body None no_callback bodiless [] (Normal tt)
                  tt [] eq_refl eq_refl)).
Defined.

End Examples.

(** ** More on the stream consumer *)

Section ConsumerExtras.
Context {num : Type} `{!JsNumber num}.

Import TextDecoder DecoderFacts.

(** The state in which [consumeSseResponse] starts. *)
Definition fresh {S} (s : S) (log : list js_error) : sse num S :=
  {| chunks := []; observer := s; console := log |}.

Lemma consume_uniform (r : response) reads last :
  exists (events : list (json num)) (result : completion (list (json num))),
    (forall received, result = Normal received -> received = events)
    /\ forall S (cb : option (callback num S)) (s : S) log,
        consumeSseResponse cb r reads last s log
        = (result, emit_all cb events (fresh s log)).
Proof.
  unfold consumeSseResponse.
  destruct (negb (ok r)); [by exists [], (Throw (http_error r))|].
  destruct (negb (readable r)).
  { exists [], (Normal []). split; [|done]. by intros ? [= <-]. }
  destruct (read_loop_uniform reads last TextDecoder.create [])
    as (events & Hr).
  exists events, (match last with
                  | Normal _ => Normal events
                  | Throw e => Throw e
                  end).
  split.
  - destruct last; [|done]. by intros ? [= <-].
  - intros S cb s log. unfold start. by rewrite Hr.
Qed.

(** *** Callbacks that write to their events *)














(** The payloads of the data lines of a record. *)
Definition data_payloads (block : jsstring) : list jsstring :=
  List.map (fun line => trimStart (slice_from 5 line))
    (List.filter (fun line => startsWith line (js "data:"))
                 (split_lines block)).

Lemma join_empty (sep : jsstring) (parts : list jsstring) :
  sep <> [] -> join sep parts = [] -> parts = [] \/ parts = [[]].
Proof.
  intros Hsep. destruct parts as [|p [|q parts]]; simpl.
  - by left.
  - intros ->. by right.
  - intros [_ [Hs _]%app_eq_nil]%app_eq_nil. done.
Qed.

Lemma notify_changes {S} (cb : option (callback num S)) e st :
  notify cb e st <> st.
Proof.
  intros Heq. pose proof (chunks_notify cb e st) as Hc.
  rewrite Heq in Hc. apply (f_equal length) in Hc.
  rewrite length_app in Hc. simpl in Hc. lia.
Qed.

(** X2.  A record is passed over in silence, no event being appended or
    delivered, exactly when it has no data line, or a single data line
    with nothing but white space after the prefix: comment lines and
    [event:], [id:] or [retry:] fields alone never make an event. *)
Theorem silent_records {S} (cb : option (callback num S))
        (block : jsstring) (st : sse num S) :
  emitBlock cb block st = (Normal tt, st)
  <-> data_payloads block = [] \/ data_payloads block = [[]].
Proof.
  rewrite emitBlock_eq. unfold decode.
  change (dataText block) with (join [LF] (data_payloads block)).
  split.
  - destruct (bool_decide (block = [])) eqn:Eb.
    + apply bool_decide_eq_true in Eb as ->. intros _. by left.
    + destruct (bool_decide (join [LF] (data_payloads block) = [])) eqn:Ed.
      * apply bool_decide_eq_true in Ed. intros _.
        by apply (join_empty [LF]).
      * intros [= Hn]. by apply notify_changes in Hn.
  - intros Hp. destruct (bool_decide (block = [])); [done|].
    rewrite bool_decide_eq_true_2; [done|].
    by destruct Hp as [-> | ->].
Qed.

End ConsumerExtras.

(** ** Chunk boundaries *)

Module CarriageReturns.
Import TextDecoder DecoderFacts.
Local Open Scope N_scope.

(** A pending sequence cannot end on a code point of the ASCII range:
    either some bits are already there, or the next byte is bound to bring
    some. *)
Definition heavy (m : utf8) : Prop :=
  bytes_needed m = 0
  \/ 1 <= code_point m
  \/ (0x90 <= lower_boundary m /\ upper_boundary m <= 0xBF).

Lemma heavy_init : heavy utf8_init.
Proof. by left. Qed.

Lemma mod_in_block (b k q : N) :
  k * q <= b -> b < k * q + k -> b mod k = b - k * q.
Proof. intros H1 H2. symmetry. apply (N.mod_unique b k q); lia. Qed.

Lemma land_ones_5 b : N.land b 0x1F = b mod 32.
Proof. apply (N.land_ones b 5). Qed.

Lemma land_ones_4 b : N.land b 0xF = b mod 16.
Proof. apply (N.land_ones b 4). Qed.

Lemma land_ones_3 b : N.land b 0x7 = b mod 8.
Proof. apply (N.land_ones b 3). Qed.

Lemma land_ones_6 b : N.land b 0x3F = b mod 64.
Proof. apply (N.land_ones b 6). Qed.

Lemma lead_heavy (b : N) :
  b <> CR ->
  heavy (fst (lead b)) /\ Forall (fun cp => cp <> CR) (snd (lead b)).
Proof.
  intros Hb. unfold lead.
  destruct (b <=? 0x7F) eqn:E1.
  { split; [apply heavy_init|]. repeat constructor; done. }
  apply N.leb_gt in E1.
  destruct ((0xC2 <=? b) && (b <=? 0xDF)) eqn:E2.
  { apply andb_prop in E2 as [H1%N.leb_le H2%N.leb_le].
    split; [|constructor]. right. left. cbn [fst code_point].
    rewrite land_ones_5.
    rewrite (mod_in_block b 32 6) by lia. lia. }
  destruct ((0xE0 <=? b) && (b <=? 0xEF)) eqn:E3.
  { apply andb_prop in E3 as [H1%N.leb_le H2%N.leb_le].
    split; [|constructor]. unfold heavy.
    cbn [fst code_point lower_boundary upper_boundary].
    destruct (b =? 0xE0) eqn:E0.
    - apply N.eqb_eq in E0 as ->. right. right. cbn. lia.
    - apply N.eqb_neq in E0. right. left. rewrite land_ones_4.
      rewrite (mod_in_block b 16 14) by lia. lia. }
  destruct ((0xF0 <=? b) && (b <=? 0xF4)) eqn:E4.
  { apply andb_prop in E4 as [H1%N.leb_le H2%N.leb_le].
    split; [|constructor]. unfold heavy.
    cbn [fst code_point lower_boundary upper_boundary].
    destruct (b =? 0xF0) eqn:E0.
    - apply N.eqb_eq in E0 as ->. right. right. cbn. lia.
    - apply N.eqb_neq in E0. right. left. rewrite land_ones_3.
      rewrite (mod_in_block b 8 30) by lia. lia. }
  split; [apply heavy_init|].
  repeat constructor; unfold REPLACEMENT, CR; lia.
Qed.

Lemma continuation_heavy (cp b : N) :
  1 <= cp -> 64 <= N.lor (N.shiftl cp 6) (N.land b 0x3F).
Proof.
  intros Hcp.
  destruct (N.lt_ge_cases (N.lor (N.shiftl cp 6) (N.land b 0x3F)) 64)
    as [Hlt|Hge]; [exfalso|exact Hge].
  assert (Hs : N.shiftr (N.lor (N.shiftl cp 6) (N.land b 0x3F)) 6 = 0).
  { rewrite N.shiftr_div_pow2. apply N.div_small. exact Hlt. }
  rewrite N.shiftr_lor, N.shiftr_shiftl_l in Hs by lia.
  change (6 - 6) with 0 in Hs. rewrite N.shiftl_0_r in Hs.
  apply N.lor_eq_0_l in Hs. lia.
Qed.

Lemma first_continuation (b lo hi : N) :
  0x90 <= lo -> hi <= 0xBF -> lo <= b -> b <= hi ->
  16 <= N.lor (N.shiftl 0 6) (N.land b 0x3F).
Proof.
  intros Hlo Hhi H1 H2. rewrite N.shiftl_0_l, N.lor_0_l, land_ones_6.
  rewrite (mod_in_block b 64 2) by lia. lia.
Qed.

Lemma handler_heavy (m : utf8) (b : N) :
  heavy m -> b <> CR ->
  heavy (fst (handler m b))
  /\ Forall (fun cp => cp <> CR) (snd (handler m b)).
Proof.
  intros Hm Hb. unfold handler.
  destruct (bytes_needed m =? 0) eqn:E0.
  { destruct (lead_heavy b Hb) as [H1 H3]. by split. }
  apply N.eqb_neq in E0.
  destruct ((lower_boundary m <=? b) && (b <=? upper_boundary m)) eqn:Er;
    cbn [negb].
  - apply andb_prop in Er as [H1%N.leb_le H2%N.leb_le].
    assert (Hcp : 16 <= N.lor (N.shiftl (code_point m) 6) (N.land b 0x3F)).
    { destruct Hm as [Hm | [Hm | [Hlo Hhi]]]; [done| |].
      - pose proof (continuation_heavy (code_point m) b Hm). lia.
      - destruct (N.eq_dec (code_point m) 0) as [Hz|Hz].
        + rewrite Hz. by apply (first_continuation b _ _ Hlo Hhi).
        + pose proof (continuation_heavy (code_point m) b). lia. }
    destruct (bytes_seen m + 1 =? bytes_needed m).
    + split; [apply heavy_init|]. constructor; [|constructor].
      unfold CR. lia.
    + split; [|constructor]. right. left. cbn [fst code_point]. lia.
  - destruct (lead_heavy b Hb) as [H1 H3].
    destruct (lead b) as [m' out]. cbn [fst snd] in *.
    split; [done|]. constructor; [|done]. unfold REPLACEMENT, CR. lia.
Qed.

Lemma code_units_no_CR (cp : N) : cp <> CR -> CR ∉ code_units cp.
Proof.
  intros Hcp. unfold code_units. destruct (cp <? 0x10000).
  - intros Hin%list_elem_of_singleton. congruence.
  - intros [Hin | Hin%list_elem_of_singleton]%elem_of_cons;
      unfold CR in Hin; lia.
Qed.

Lemma serialize_all_no_CR seen cps :
  Forall (fun cp => cp <> CR) cps -> CR ∉ snd (serialize_all seen cps).
Proof.
  intros Hall. revert seen.
  induction Hall as [|cp cps Hcp _ IH]; intros seen Hin; simpl in Hin.
  - by apply elem_of_nil in Hin.
  - unfold serialize in Hin. specialize (IH true).
    destruct (negb seen && (cp =? BOM));
      destruct (serialize_all true cps) as [seen2 out2]; cbn [snd] in *.
    + by apply IH.
    + apply elem_of_app in Hin as [Hin | Hin]; [|by apply IH].
      by apply code_units_no_CR in Hin.
Qed.

Lemma byte_not_CR (b : byte) : b <> x0d -> Byte.to_N b <> CR.
Proof.
  intros Hb Heq. apply Hb. apply Byte.to_of_N_iff in Heq.
  change (Byte.of_N CR) with (Some x0d) in Heq. congruence.
Qed.

Lemma feed_no_CR (d : t) (b : byte) :
  heavy (machine d) -> b <> x0d ->
  heavy (machine (fst (feed d b))) /\ CR ∉ snd (feed d b).
Proof.
  intros Hd Hb. unfold feed.
  destruct (handler_heavy (machine d) (Byte.to_N b) Hd (byte_not_CR b Hb))
    as [Hh Hc].
  destruct (handler (machine d) (Byte.to_N b)) as [m cps].
  pose proof (serialize_all_no_CR (bom_seen d) cps Hc) as Hs.
  destruct (serialize_all (bom_seen d) cps) as [seen out]. by split.
Qed.

(** Bytes other than 0x0D never decode to a carriage return. *)
Lemma decode_stream_no_CR (d : t) (value : list byte) :
  heavy (machine d) -> x0d ∉ value ->
  heavy (machine (fst (decode_stream d value)))
  /\ CR ∉ snd (decode_stream d value).
Proof.
  revert d. induction value as [|b value IH]; intros d Hd Hv.
  - split; [done|]. simpl. by intros ?%elem_of_nil.
  - simpl. destruct (feed_no_CR d b Hd) as [H1 H2].
    { intros ->. apply Hv. left. }
    destruct (feed d b) as [d1 out1]. cbn [fst snd] in *.
    destruct (IH d1 H1) as [H3 H4]. { intros Hin. apply Hv. by right. }
    destruct (decode_stream d1 value) as [d2 out2]. cbn [fst snd] in *.
    split; [done|]. intros [Hin|Hin]%elem_of_app; tauto.
Qed.

Lemma texts_no_CR (d : t) (reads : list (list byte)) :
  heavy (machine d) -> Forall (fun value => x0d ∉ value) reads ->
  Forall (fun text => CR ∉ text) (texts d reads).
Proof.
  intros Hd Hall. revert d Hd.
  induction Hall as [|value reads Hv _ IH]; intros d Hd; [constructor|].
  destruct (decode_stream_no_CR d value Hd Hv) as [H1 H2].
  cbn [texts]. constructor; [done|]. by apply IH.
Qed.

Lemma ends_with_CR_absent (text : jsstring) :
  CR ∉ text -> ends_with_CR text = false.
Proof.
  intros Ht. unfold ends_with_CR.
  destruct (last text) as [c|] eqn:El; [|done].
  apply N.eqb_neq. intros ->. apply Ht.
  apply last_Some in El as [l' ->]. apply elem_of_app. right. left.
Qed.

Lemma splits_crlf_absent (ts : list jsstring) :
  Forall (fun text => CR ∉ text) ts -> splits_crlf false ts = false.
Proof.
  induction 1 as [|t ts Ht _ IH]; [done|].
  cbn [splits_crlf andb orb]. rewrite (ends_with_CR_absent t Ht).
  by destruct t.
Qed.

End CarriageReturns.

Section Chunking.
Context {num : Type} `{!JsNumber num} {S : Type}.
Variable onChunk : option (callback num S).

(** X4.  For a body in which no carriage return byte occurs, the way the
    transport cuts it into chunks is immaterial: read in any number of
    chunks, cut anywhere (inside a multi-byte character, inside a blank
    line), it gives the result, the deliveries and the console lines of
    the same bytes read as one chunk. *)
Theorem chunking_without_CR (r : response) (reads : list (list byte))
        (last : completion unit) (s : S) (log : list js_error) :
  Forall (fun value => x0d ∉ value) reads ->
  consumeSseResponse onChunk r reads last s log
  = consumeSseResponse onChunk r [concat reads] last s log.
Proof.
  intros Hall. apply consume_chunking.
  apply CarriageReturns.splits_crlf_absent, CarriageReturns.texts_no_CR;
    [apply CarriageReturns.heavy_init | exact Hall].
Qed.

End Chunking.

(** ** More on the aggregators *)

Section AggregatorExtras.
Context {num : Type} `{!JsNumber num}.

Lemma postSse_uniform fetched reads last :
  exists (events : list (json num)) (result : completion (list (json num))),
    (forall received, result = Normal received -> received = events)
    /\ (forall e, fetched = Throw e -> result = Throw e /\ events = [])
    /\ forall S (cb : option (callback num S)) (s : S) log,
        postSse cb fetched reads last s log
        = (result, emit_all cb events (fresh s log)).
Proof.
  destruct fetched as [r|e].
  - destruct (consume_uniform r reads last) as (events & result & Hr & He).
    exists events, result. split; [done|]. split; [done|]. exact He.
  - exists [], (Throw e). split; [done|]. split; [|done].
    by intros ? [= <-].
Qed.

(** *** [llmApi.chatStream] *)

(** The exceptions a listener raises on a sequence of deliveries, [seen]
    being what it was handed before. *)
Fixpoint raised (f : listener num) (seen events : list (json num))
  : list js_error :=
  match events with
  | [] => []
  | e :: rest =>
      match f (seen ++ [e]) with
      | Some err => err :: raised f (seen ++ [e]) rest
      | None => raised f (seen ++ [e]) rest
      end
  end.

(** The text an event adds to the content: [String(e.content || '')]. *)
Definition chat_part (e : json num) : option jsstring :=
  match property_of e (js "content") with
  | Some v => if truthy v then to_string v else Some []
  | None => Some []
  end.

(** What [chatStream] resolves to once [postSse] has returned. *)
Definition chat_outcome (events : list (json num)) : chat_result :=
  if existsb is_null events
  then ChatFailure (err_message (null_property_error (js "content")))
  else match all_some (List.map chat_part events) with
       | Some texts => ChatSuccess (concat texts)
       | None => ChatFailure (err_message primitive_error)
       end.

Lemma emit_deliver (f : listener num) events cs d log :
  emit_all (Some (fun _ chunk => deliver (Some f) chunk)) events
    {| chunks := cs; observer := d; console := log |}
  = {| chunks := cs ++ events; observer := d ++ events;
       console := log ++ raised f d events |}.
Proof.
  revert cs d log. induction events as [|e events IH]; intros cs d log.
  - simpl. by rewrite !app_nil_r.
  - change (emit_all ?cb (e :: events) ?st)
      with (emit_all cb events (notify cb e st)).
    unfold notify, deliver. cbn [chunks observer console raised].
    destruct (f (d ++ [e])) as [err|]; rewrite IH;
      by rewrite <- ?app_assoc.
Qed.

Lemma join_concat (texts : list jsstring) : join [] texts = concat texts.
Proof.
  induction texts as [|t [|t' texts] IH]; [done| |].
  - simpl. by rewrite app_nil_r.
  - change (join [] (t :: t' :: texts)) with (t ++ [] ++ join [] (t' :: texts)).
    rewrite IH. reflexivity.
Qed.

Lemma contents_eq (events : list (json num)) :
  contents events
  = if existsb is_null events
    then Throw (null_property_error (js "content"))
    else Normal (List.map
                   (fun e =>
                      if is_truthy (property_of e (js "content"))
                      then default (JStr []) (property_of e (js "content"))
                      else JStr []) events).
Proof.
  induction events as [|e events IH]; [done|].
  cbn [contents existsb List.map]. rewrite IH.
  destruct e as [ | b | n | s | items | props]; try reflexivity;
    cbn [get_prop is_null orb ret fst];
    by destruct (existsb is_null events).
Qed.

Lemma chat_part_eq (e : json num) :
  to_string (if is_truthy (property_of e (js "content"))
             then default (JStr []) (property_of e (js "content"))
             else JStr [])
  = chat_part e.
Proof.
  unfold chat_part, is_truthy.
  destruct (property_of e (js "content")) as [v|]; [|done].
  by destruct (truthy v).
Qed.

(** X5.  [chatStream] never rejects, and its result is read off the
    events the stream holds.  When the exchange fails, the result is a
    failure carrying the message of the error.  When it succeeds, the
    listener has been handed every event once, in order, each exception it
    raised being logged without stopping the stream; the result is a
    failure if some event is [null] or some content cannot be converted to
    a string, and otherwise the success whose content is the
    concatenation, in arrival order, of the [content] of the events,
    whatever their type, an absent or falsy [content] counting for
    nothing. *)
Theorem chat_stream_result (f : listener num) fetched reads last :
  match fst (postSse (@None (callback num unit)) fetched reads last tt [])
  with
  | Normal events =>
      chatStream (Some f) fetched reads last
      = (chat_outcome events,
         {| chunks := events; observer := events;
            console := raised f [] events |})
  | Throw e =>
      fst (chatStream (Some f) fetched reads last)
      = ChatFailure (err_message e)
  end.
Proof.
  destruct (postSse_uniform fetched reads last)
    as (events & result & Hr & _ & He).
  unfold chatStream. rewrite !He. cbn [fst].
  destruct result as [received|e]; [|done].
  rewrite (Hr received eq_refl). unfold fresh. rewrite emit_deliver.
  cbn [app]. rewrite contents_eq. unfold chat_outcome.
  destruct (existsb is_null events); [done|].
  rewrite List.map_map.
  rewrite (List.map_ext _ chat_part chat_part_eq).
  destruct (all_some (List.map chat_part events)) as [texts|]; [|done].
  by rewrite join_concat.
Qed.

(** *** The failures of [agentApi.runStream] *)

Lemma agent_catch_message (e : js_error) :
  agent_catch (num := num) e
  = AgentFailure (if bool_decide (err_name e = js "AbortError")
                  then js "aborted" else err_message e).
Proof. unfold agent_catch. by destruct (bool_decide _). Qed.

(** X6.  [runStream]'s promise never rejects on a transport failure: the
    failure becomes the result [{success: false, error}].  When [fetch]
    rejects, or a read does, the error is ["aborted"] if the exception is
    an AbortError and its message otherwise; a response that is not ok
    gives ["HTTP <status>: <statusText>"].  When the exchange fails before
    the body is read the listener is never called. *)
Theorem agent_transport_failures (onChunk : option (listener num)) reads
        last :
  (forall e,
      runStream_body onChunk (Throw e) reads last
      = (AgentFailure (if bool_decide (err_name e = js "AbortError")
                       then js "aborted" else err_message e),
         fresh agg_init []))
  /\ (forall r,
         ok r = false ->
         runStream_body onChunk (Normal r) reads last
         = (AgentFailure (js "HTTP " ++ decimal (status r) ++ js ": "
                          ++ statusText r),
            fresh agg_init []))
  /\ (forall r e,
         ok r = true -> readable r = true ->
         fst (runStream_body onChunk (Normal r) reads (Throw e))
         = AgentFailure (if bool_decide (err_name e = js "AbortError")
                         then js "aborted" else err_message e)).
Proof.
  split; [|split].
  - intros e. unfold runStream_body, postSse, agent_finish.
    by rewrite agent_catch_message.
  - intros r Hok. unfold runStream_body, postSse, consumeSseResponse,
      agent_finish. rewrite Hok. cbn [negb].
    rewrite agent_catch_message. reflexivity.
  - intros r e Hok Hr.
    unfold runStream_body, postSse, consumeSseResponse, agent_finish.
    rewrite Hok, Hr. cbn [negb].
    rewrite (read_loop_after _ reads (Throw e)). cbn [read_loop fst].
    apply agent_catch_message.
Qed.

End AggregatorExtras.

(** ** More on the registry *)

Section RegistryExtras.
Context {num : Type} `{!JsNumber num}.

(** What holds of the page at every moment: controllers are handed out by
    the counter, a body that has returned is no longer suspended, and no
    two ids share a controller. *)
Definition sound (w : world num) : Prop :=
  (forall c req, pending w !! c = Some req -> c < controllers w)
  /\ (forall id c, activeAgentRequests w !! id = Some c -> c < controllers w)
  /\ (forall c r, settled w !! c = Some r ->
                  c < controllers w /\ pending w !! c = None)
  /\ (forall id1 id2 c, activeAgentRequests w !! id1 = Some c ->
                        activeAgentRequests w !! id2 = Some c -> id1 = id2).

Lemma sound_page_load : sound page_load.
Proof.
  split; [|split; [|split]]; simpl.
  - intros c req Hl. by rewrite lookup_empty in Hl.
  - intros id c Hl. by rewrite lookup_empty in Hl.
  - intros c r Hl. by rewrite lookup_empty in Hl.
  - intros id1 id2 c Hl. by rewrite lookup_empty in Hl.
Qed.

Lemma step_sound (w : world num) e : sound w -> sound (step w e).
Proof.
  intros (Hp & Hr & Hs & Hi). destruct e as [id pl f | c' i | id fe pa].
  - assert (Hreg : forall id' c,
               <[id := controllers w]> (activeAgentRequests w) !! id'
               = Some c -> c < S (controllers w)).
    { intros id' c. rewrite lookup_insert. case_decide.
      - intros [= <-]. lia.
      - intros Hl. apply Hr in Hl. lia. }
    assert (Hinj : forall id1 id2 c,
               <[id := controllers w]> (activeAgentRequests w) !! id1
               = Some c ->
               <[id := controllers w]> (activeAgentRequests w) !! id2
               = Some c -> id1 = id2).
    { intros id1 id2 c. rewrite !lookup_insert.
      repeat case_decide; subst.
      - done.
      - intros [= <-] Hl. apply Hr in Hl. lia.
      - intros Hl [= <-]. apply Hr in Hl. lia.
      - apply Hi. }
    destruct pl as [[]|e0]; (split; [|split; [|split]]); simpl; try done.
    + intros c req. rewrite lookup_insert. case_decide.
      * intros _. lia.
      * intros Hl. apply Hp in Hl. lia.
    + intros c r Hl. destruct (Hs c r Hl) as [Hc Hn].
      split; [lia|]. rewrite lookup_insert_ne; [done | lia].
    + intros c req Hl. apply Hp in Hl. lia.
    + intros c r Hl. destruct (Hs c r Hl) as [Hc Hn]. split; [lia | done].
  - cbn [step]. destruct (pending w !! c') as [req|] eqn:Ep;
      [|by rewrite resume_idle].
    destruct (resume_cases c' i w req Ep)
      as [-> | [(res & log & ->) | (l & ->)]]; [done| |].
    + destruct (settle_fields c' req res log w) as (Hab & Hpe & Hse & Hco).
      unfold sound. rewrite Hpe, Hse, Hco.
      split; [|split; [|split]].
      * intros c req'. rewrite lookup_delete. case_decide; [done|].
        apply Hp.
      * intros id c. rewrite settle_lookup. case_decide; [done|]. apply Hr.
      * intros c r. rewrite lookup_insert, lookup_delete. case_decide.
        -- intros _. subst c. split; [by apply Hp in Ep | done].
        -- apply Hs.
      * intros id1 id2 c. rewrite !settle_lookup.
        repeat case_decide; try done. apply Hi.
    + unfold sound, suspend. simpl. split; [|split; [|split]]; try done.
      * intros c req'. rewrite lookup_insert. case_decide.
        -- intros _. subst c. by apply Hp in Ep.
        -- apply Hp.
      * intros c r Hl. destruct (Hs c r Hl) as [Hc Hn]. split; [done|].
        rewrite lookup_insert_ne; [done|]. intros <-. congruence.
  - cbn [step].
    destruct (abort_snd id fe pa w) as (E1 & E2 & E3 & E4 & E5 & _).
    destruct (abort_local_fields id w) as (Hab & Hpe & Hse & Hco).
    unfold sound. rewrite E1, E3, E4, E5, Hpe, Hse, Hco.
    split; [|split; [|split]]; try done.
    + intros id' c. rewrite abort_local_lookup. case_decide; [done|].
      apply Hr.
    + intros id1 id2 c. rewrite !abort_local_lookup.
      repeat case_decide; try done. apply Hi.
Qed.

Lemma run_sound (w : world num) es : sound w -> sound (run w es).
Proof.
  unfold run. revert w. induction es as [|e es IH]; intros w Hw; [done|].
  simpl. by apply IH, step_sound.
Qed.

Lemma step_settled_stays (w : world num) e c r :
  sound w -> settled w !! c = Some r ->
  settled (step w e) !! c = Some r.
Proof.
  intros (Hp & Hr & Hs & Hi) Hc. destruct e as [id pl f | c' i | id fe pa].
  - by destruct pl as [[]|e0].
  - cbn [step]. destruct (pending w !! c') as [req|] eqn:Ep;
      [|by rewrite resume_idle].
    destruct (resume_cases c' i w req Ep)
      as [-> | [(res & log & ->) | (l & ->)]]; [done| |done].
    destruct (settle_fields c' req res log w) as (_ & _ & -> & _).
    rewrite lookup_insert_ne; [done|]. intros <-.
    destruct (Hs c' r Hc) as [_ Hn]. congruence.
  - cbn [step].
    destruct (abort_snd id fe pa w) as (_ & _ & _ & -> & _).
    by destruct (abort_local_fields id w) as (_ & _ & -> & _).
Qed.

(** X7.  A promise of [runStream] settles once: whatever happens on the
    page afterwards (resumptions, aborts, new requests, under any ids),
    the result it settled with stays, and its body is never resumed
    again. *)
Theorem settles_once (es es' : list (event num)) (c : nat)
        (r : agent_result num) :
  settled (run page_load es) !! c = Some r ->
  settled (run page_load (es ++ es')) !! c = Some r
  /\ pending (run page_load (es ++ es')) !! c = None.
Proof.
  rewrite run_app.
  pose proof (run_sound page_load es sound_page_load) as Hw.
  revert Hw. generalize (run page_load es). intros w Hw Hc.
  assert (Hrun : settled (run w es') !! c = Some r).
  { revert w Hw Hc. induction es' as [|e es' IH]; intros w Hw Hc; [done|].
    cbn [run fold_left]. apply IH; [by apply step_sound|].
    by apply step_settled_stays. }
  split; [exact Hrun|].
  pose proof (run_sound w es' Hw) as (_ & _ & Hs & _).
  by destruct (Hs c r Hrun).
Qed.

(** X8.  Aborting one request leaves the others alone: at any moment of
    any history of the page, [abort] on an id keeps every other id
    registered, with its controller, and changes neither the signal of
    that controller nor the body or the result of its request. *)
Theorem abort_spares_others (es : list (event num)) (id id' : jsstring)
        (c : nat) fetched parsed :
  id <> id' ->
  activeAgentRequests (run page_load es) !! id = Some c ->
  let w := run page_load es in
  let w' := snd (abort id' fetched parsed w) in
  activeAgentRequests w' !! id = Some c
  /\ (c ∈ aborted w' <-> c ∈ aborted w)
  /\ pending w' !! c = pending w !! c
  /\ settled w' !! c = settled w !! c.
Proof.
  intros Hne Hl w w'.
  pose proof (run_sound page_load es sound_page_load) as (_ & _ & _ & Hi).
  fold w in Hi, Hl. unfold w'.
  destruct (abort_snd id' fetched parsed w) as (-> & -> & -> & -> & _).
  destruct (abort_local_fields id' w) as (-> & -> & -> & _).
  rewrite abort_local_lookup, decide_False by done.
  split; [done|]. split; [|done].
  destruct (activeAgentRequests w !! id') as [c''|] eqn:Er; [|done].
  assert (c'' <> c) by (intros ->; apply Hne; by apply (Hi id id' c)).
  rewrite elem_of_union, elem_of_singleton. split; [|tauto].
  intros [->|Hin]; [congruence | exact Hin].
Qed.

(** X9.  What [abort] does to the page does not depend on what becomes of
    its notification request, which only decides what the call returns
    and logs; and a second [abort] on the same id changes nothing more. *)
Theorem abort_local_effect (id : jsstring) fetched1 parsed1 fetched2 parsed2
        (w : world num) :
  let w1 := snd (abort id fetched1 parsed1 w) in
  let w2 := snd (abort id fetched2 parsed2 w) in
  let w3 := snd (abort id fetched2 parsed2 w1) in
  (activeAgentRequests w1 = activeAgentRequests w2
   /\ aborted w1 = aborted w2 /\ pending w1 = pending w2
   /\ settled w1 = settled w2 /\ removed w1 = removed w2)
  /\ (activeAgentRequests w3 = activeAgentRequests w1
      /\ aborted w3 = aborted w1 /\ pending w3 = pending w1
      /\ settled w3 = settled w1 /\ removed w3 = removed w1).
Proof.
  intros w1 w2 w3. split.
  - unfold w1, w2. rewrite !abort_eq. done.
  - assert (Hl : activeAgentRequests w1 !! id = None).
    { unfold w1. destruct (abort_snd id fetched1 parsed1 w) as (-> & _).
      rewrite abort_local_lookup. by rewrite decide_True. }
    assert (Hw : abort_local id w1 = w1)
      by (unfold abort_local; by rewrite Hl).
    unfold w3. rewrite abort_eq, Hw. done.
Qed.

End RegistryExtras.

(** ** More on the normalisers *)

Section NormaliseExtras.
Context {num : Type} `{!JsNumber num}.

(** *** [toCamelDeep] twice *)

Lemma obj_set_keys (props : list (jsstring * json num)) k v :
  (List.map fst (obj_set props k v))
  = if bool_decide (k ∈ List.map fst props) then List.map fst props
    else List.map fst props ++ [k].
Proof.
  induction props as [|[k' v'] props IH]; cbn [obj_set List.map fst app].
  - rewrite bool_decide_eq_false_2; [done|]. by intros ?%elem_of_nil.
  - destruct (bool_decide (k' = k)) eqn:E.
    + apply bool_decide_eq_true in E as ->. cbn [List.map fst].
      rewrite bool_decide_eq_true_2; [done | left].
    + apply bool_decide_eq_false in E. cbn [List.map fst]. rewrite IH.
      destruct (bool_decide (k ∈ List.map fst props)) eqn:Ek.
      * apply bool_decide_eq_true in Ek.
        rewrite bool_decide_eq_true_2; [done | by right].
      * apply bool_decide_eq_false in Ek.
        rewrite bool_decide_eq_false_2; [done|].
        intros [Heq|Hin]%elem_of_cons; [congruence | done].
Qed.

Lemma obj_set_NoDup (props : list (jsstring * json num)) k v :
  NoDup (List.map fst props) -> NoDup (List.map fst (obj_set props k v)).
Proof.
  intros Hn. rewrite obj_set_keys. case_bool_decide as Hk; [done|].
  apply NoDup_app. split; [done|]. split; [|apply NoDup_singleton].
  intros x Hx ->%list_elem_of_singleton. done.
Qed.

Lemma rebuild_NoDup (kvs acc : list (jsstring * json num)) :
  NoDup (List.map fst acc) ->
  NoDup (List.map fst
           (fold_left (fun out kv => obj_set out (fst kv) (snd kv))
                      kvs acc)).
Proof.
  revert acc. induction kvs as [|[k v] kvs IH]; intros acc Ha; [done|].
  simpl. by apply IH, obj_set_NoDup.
Qed.

Lemma obj_set_fresh (props : list (jsstring * json num)) k v :
  k ∉ List.map fst props -> obj_set props k v = props ++ [(k, v)].
Proof.
  induction props as [|[k' v'] props IH]; simpl; [done|].
  intros Hk. rewrite bool_decide_eq_false_2
    by (intros ->; apply Hk; left).
  rewrite IH; [done|]. intros Hin. apply Hk. by right.
Qed.

Lemma rebuild_distinct (kvs acc : list (jsstring * json num)) :
  NoDup (List.map fst (acc ++ kvs)) ->
  fold_left (fun out kv => obj_set out (fst kv) (snd kv)) kvs acc
  = acc ++ kvs.
Proof.
  revert acc. induction kvs as [|[k v] kvs IH]; intros acc Hn.
  - by rewrite app_nil_r.
  - cbn [fold_left fst snd].
    assert (Hk : k ∉ List.map fst acc).
    { rewrite List.map_app in Hn. apply NoDup_app in Hn as (_ & Hd & _).
      intros Hin. apply (Hd k Hin). left. }
    rewrite (obj_set_fresh acc k v Hk).
    rewrite IH; rewrite <- app_assoc; done.
Qed.

Lemma snakeToCamel_twice (key : jsstring) :
  snakeToCamel (snakeToCamel key) = snakeToCamel key.
Proof. apply camel_fixed, snakeToCamel_normal. Qed.

Lemma toCamelDeep_twice (v : json num) :
  toCamelDeep (toCamelDeep v) = toCamelDeep v.
Proof.
  induction v as [| | | | items IH | props IH] using json_nested_ind;
    try reflexivity.
  - change (toCamelDeep (JArr items))
      with (JArr (List.map toCamelDeep items)).
    change (toCamelDeep (JArr (List.map toCamelDeep items)))
      with (JArr (List.map toCamelDeep (List.map toCamelDeep items))).
    f_equal. rewrite List.map_map. apply List.map_ext_in.
    intros x Hx. rewrite List.Forall_forall in IH. by apply IH.
  - set (g := fun kv : jsstring * json num =>
                (snakeToCamel (fst kv), toCamelDeep (snd kv))).
    set (out := fold_left (fun out kv => obj_set out (fst kv) (snd kv))
                          (List.map g props) []).
    change (toCamelDeep (JObj props)) with (JObj out).
    change (toCamelDeep (JObj out))
      with (JObj (fold_left (fun out kv => obj_set out (fst kv) (snd kv))
                            (List.map g out) [])).
    f_equal.
    assert (Hfix : List.map g out = out).
    { rewrite <- (List.map_id out) at 2. apply List.map_ext_in.
      intros kv Hin. apply list_elem_of_In in Hin.
      apply fold_obj_set_elem in Hin as [Hin | Hin];
        [by apply elem_of_nil in Hin|].
      apply list_elem_of_In, List.in_map_iff in Hin
        as ([k0 v0] & <- & Hin0).
      unfold g. cbn [fst snd]. rewrite snakeToCamel_twice.
      rewrite List.Forall_forall in IH.
      pose proof (IH (k0, v0) Hin0) as Hv. cbn [snd] in Hv.
      by rewrite Hv. }
    rewrite Hfix. rewrite rebuild_distinct; [done|].
    cbn [app]. apply rebuild_NoDup. constructor.
Qed.

Lemma property_normalised (v : json num) k a :
  property_of (toCamelDeep v) k = Some a -> toCamelDeep a = a.
Proof.
  destruct v as [ | b | n | s | items | props]; try discriminate.
  destruct (toCamelDeep_get props k) as (out & -> & Hg).
  cbn [property_of]. rewrite Hg.
  destruct (last_named k props) as [v1|]; [|discriminate].
  intros [= <-]. apply toCamelDeep_twice.
Qed.

(** X10.  Normalising twice is normalising once: [toCamelDeep] leaves its
    own results as they are, at every depth, so the helpers that normalise
    a value already normalised by their caller get the same value. *)
Theorem toCamelDeep_idempotent :
  (forall v : json num, toCamelDeep (toCamelDeep v) = toCamelDeep v)
  /\ (forall (v a : json num) k,
         property_of (toCamelDeep v) k = Some a -> toCamelDeep a = a)
  /\ (forall (items : list (json num)) a,
         a ∈ List.map toCamelDeep items -> toCamelDeep a = a).
Proof.
  split; [exact toCamelDeep_twice|]. split.
  - intros v a k. apply property_normalised.
  - intros items a Hin. apply list_elem_of_In, List.in_map_iff in Hin
      as (x & <- & _). apply toCamelDeep_twice.
Qed.

(** *** [normalizeTimeFilter] *)

Lemma nullish_normalised (v : json num) k :
  toCamelDeep (nullish (property_of (toCamelDeep v) k) JNull)
  = nullish (property_of (toCamelDeep v) k) JNull.
Proof.
  destruct (property_of (toCamelDeep v) k) as [a|] eqn:E; [|done].
  apply property_normalised in E. by destruct a.
Qed.

Lemma nullish_twice (x : json num) : nullish (Some x) JNull = x.
Proof. by destruct x. Qed.

Lemma snakeToCamel_nil_inv (key : jsstring) :
  snakeToCamel key = [] -> key = [].
Proof.
  destruct key as [|c [|d key]]; [done..|].
  rewrite snakeToCamel_cons2. by destruct (_ && _).
Qed.

(** How a character of a normalised name came about. *)
Lemma snakeToCamel_inv (c : N) (key out : jsstring) (o : N) :
  snakeToCamel (c :: key) = o :: out ->
  (c = o /\ snakeToCamel key = out)
  \/ (exists d key', key = d :: key' /\ c = UNDERSCORE
                     /\ (97 <= d <= 122)%N /\ o = (d - 32)%N
                     /\ snakeToCamel key' = out).
Proof.
  destruct key as [|d key].
  - intros [= -> <-]. by left.
  - rewrite snakeToCamel_cons2.
    destruct ((c =? UNDERSCORE)%N && is_lower d) eqn:E.
    + apply andb_prop in E as [Hc%N.eqb_eq Hd].
      apply andb_prop in Hd as [H1%N.leb_le H2%N.leb_le].
      intros [= <- <-]. right. by exists d, key.
    + intros [= -> <-]. by left.
Qed.

Ltac unsnake H :=
  match type of H with
  | snakeToCamel ?k = [] => apply snakeToCamel_nil_inv in H; subst k
  | snakeToCamel ?k = _ :: _ =>
      let d := fresh "d" in
      let k' := fresh "k" in
      let Hd := fresh "Hd" in
      let Ho := fresh "Ho" in
      destruct k as [|? k']; [discriminate H|];
      apply snakeToCamel_inv in H
        as [[-> H] | (d & ? & -> & -> & Hd & Ho & H)];
      [| try (exfalso; lia);
         assert (d = 116%N) by lia; subst d; clear Hd Ho]
  end.

Lemma startTs_names (key : jsstring) :
  snakeToCamel key = js "startTs"
  <-> key = js "startTs" \/ key = js "start_ts".
Proof.
  split; [|by intros [-> | ->]].
  change (js "startTs") with [115; 116; 97; 114; 116; 84; 115]%N.
  intros H. repeat unsnake H; [by left | by right].
Qed.

Lemma endTs_names (key : jsstring) :
  snakeToCamel key = js "endTs"
  <-> key = js "endTs" \/ key = js "end_ts".
Proof.
  split; [|by intros [-> | ->]].
  change (js "endTs") with [101; 110; 100; 84; 115]%N.
  intros H. repeat unsnake H; [by left | by right].
Qed.

(** X11.  [normalizeTimeFilter] reads a filter written in either casing:
    for an object, each bound is the normalised value of the last property
    whose name is the camel-case or the snake-case one, [null] when there
    is none or when it holds [null].  A falsy filter gives the empty
    object.  A filter it has made of a truthy filter goes through it
    unchanged; the empty object it makes of a falsy filter does not, and
    comes out with two [null] bounds. *)
Theorem time_filter_casing :
  (forall props : list (jsstring * json num),
      normalizeTimeFilter (Some (JObj props))
      = JObj [(js "start_ts",
               nullish (toCamelDeep <$> last_named (js "startTs") props)
                       JNull);
              (js "end_ts",
               nullish (toCamelDeep <$> last_named (js "endTs") props)
                       JNull)])
  /\ (forall key : jsstring,
         (snakeToCamel key = js "startTs"
          <-> key = js "startTs" \/ key = js "start_ts")
         /\ (snakeToCamel key = js "endTs"
             <-> key = js "endTs" \/ key = js "end_ts"))
  /\ (forall filter : option (json num),
         is_truthy filter = false -> normalizeTimeFilter filter = JObj [])
  /\ (forall filter : option (json num),
         normalizeTimeFilter (Some (normalizeTimeFilter filter))
         = if is_truthy filter then normalizeTimeFilter filter
           else JObj [(js "start_ts", JNull); (js "end_ts", JNull)]).
Proof.
  split; [|split; [|split]].
  - intros props. unfold normalizeTimeFilter. cbn [truthy negb].
    destruct (toCamelDeep_get props (js "startTs")) as (out & Ho & Hs).
    destruct (toCamelDeep_get props (js "endTs")) as (out' & Ho' & He).
    rewrite Ho in Ho'. injection Ho' as <-.
    rewrite Ho. cbn [property_of]. by rewrite Hs, He.
  - intros key. split; [apply startTs_names | apply endTs_names].
  - intros [v|] Hf; [|done]. unfold normalizeTimeFilter.
    simpl in Hf. by rewrite Hf.
  - intros [v|]; [|reflexivity]. cbn [is_truthy].
    destruct (truthy v) eqn:Hv;
      [|unfold normalizeTimeFilter at 2; rewrite Hv; reflexivity].
    unfold normalizeTimeFilter at 2 3. rewrite Hv. cbn [negb].
    set (a := nullish (property_of (toCamelDeep v) (js "startTs")) JNull).
    set (b := nullish (property_of (toCamelDeep v) (js "endTs")) JNull).
    unfold normalizeTimeFilter. cbn [truthy negb].
    assert (Ha : toCamelDeep a = a) by apply nullish_normalised.
    assert (Hb : toCamelDeep b = b) by apply nullish_normalised.
    change (toCamelDeep (JObj [(js "start_ts", a); (js "end_ts", b)]))
      with (JObj [(js "startTs", toCamelDeep a);
                  (js "endTs", toCamelDeep b)]).
    rewrite Ha, Hb.
    change (property_of (JObj [(js "startTs", a); (js "endTs", b)])
                        (js "startTs")) with (Some a).
    change (property_of (JObj [(js "startTs", a); (js "endTs", b)])
                        (js "endTs")) with (Some b).
    by rewrite !nullish_twice.
Qed.

End NormaliseExtras.

(** ** Request paths and queries *)

Module UrlFacts.
Local Open Scope N_scope.

Lemma hex_digit_alphanumeric (n : N) :
  n < 16 -> is_alphanumeric (hex_digit n) = true.
Proof.
  intros Hn. unfold hex_digit, is_alphanumeric.
  destruct (n <? 10) eqn:E.
  - apply N.ltb_lt in E.
    replace (48 <=? 48 + n) with true by (symmetry; apply N.leb_le; lia).
    replace (48 + n <=? 57) with true by (symmetry; apply N.leb_le; lia).
    reflexivity.
  - apply N.ltb_ge in E.
    replace (65 <=? 55 + n) with true by (symmetry; apply N.leb_le; lia).
    replace (55 + n <=? 90) with true by (symmetry; apply N.leb_le; lia).
    by rewrite orb_true_r.
Qed.

(** What an escape is made of: the percent sign and hexadecimal digits. *)
Lemma percent_byte_chars (b : N) :
  Forall (fun c => c = 37 \/ is_alphanumeric c = true) (percent_byte b).
Proof.
  unfold percent_byte.
  constructor; [by left|].
  constructor; [right; apply hex_digit_alphanumeric; by apply N.mod_lt|].
  constructor; [right; apply hex_digit_alphanumeric; by apply N.mod_lt|].
  constructor.
Qed.

Lemma unreserved_alphanumeric (c : N) :
  is_alphanumeric c = true -> uri_unreserved c = true.
Proof. unfold uri_unreserved. by intros ->. Qed.

Lemma form_safe_alphanumeric (c : N) :
  is_alphanumeric c = true -> form_safe c = true.
Proof. unfold form_safe. by intros ->. Qed.

(** The characters of an encoded component. *)
Definition component_char (c : N) : Prop :=
  c = 37 \/ uri_unreserved c = true.

Lemma encode_point_chars (cp : N) : Forall component_char (encode_point cp).
Proof.
  unfold encode_point. destruct (uri_unreserved cp) eqn:E.
  - constructor; [by right | constructor].
  - apply Forall_flat_map, Forall_forall. intros b _.
    eapply Forall_impl; [apply percent_byte_chars|].
    intros c [-> | Hc]; [by left|]. right.
    by apply unreserved_alphanumeric.
Qed.

Lemma unreserved_plain (c : N) :
  uri_unreserved c = true ->
  is_high_surrogate c = false /\ is_low_surrogate c = false.
Proof.
  unfold uri_unreserved, is_alphanumeric, is_high_surrogate,
    is_low_surrogate.
  intros Hc. split; apply andb_false_iff.
  - destruct (0xD800 <=? c) eqn:E; [|by left]. apply N.leb_le in E.
    exfalso.
    repeat (apply orb_prop in Hc as [Hc | Hc]);
      try (apply andb_prop in Hc as [H1%N.leb_le H2%N.leb_le]);
      try apply N.eqb_eq in Hc; lia.
  - destruct (0xDC00 <=? c) eqn:E; [|by left]. apply N.leb_le in E.
    exfalso.
    repeat (apply orb_prop in Hc as [Hc | Hc]);
      try (apply andb_prop in Hc as [H1%N.leb_le H2%N.leb_le]);
      try apply N.eqb_eq in Hc; lia.
Qed.

Lemma unreserved_well_formed (s : jsstring) :
  Forall (fun c => uri_unreserved c = true) s ->
  well_formed_utf16 s = true /\ scalar_values s = s
  /\ flat_map encode_point s = s.
Proof.
  induction 1 as [|c s Hc _ (IH1 & IH2 & IH3)]; [done|].
  destruct (unreserved_plain c Hc) as [Hh Hl].
  cbn [well_formed_utf16 scalar_values flat_map].
  rewrite Hh, Hl, IH1, IH2, IH3. unfold encode_point. rewrite Hc.
  done.
Qed.

(** The characters of a serialized query: [%XX] escapes, [+], and the
    characters left alone. *)
Definition form_char (c : N) : Prop :=
  c = 37 \/ c = 43 \/ form_safe c = true.

Lemma form_byte_chars (b : N) : Forall form_char (form_byte b).
Proof.
  unfold form_byte. destruct (b =? 32).
  { constructor; [right; by left | constructor]. }
  destruct (form_safe b) eqn:E.
  { constructor; [right; by right | constructor]. }
  eapply Forall_impl; [apply percent_byte_chars|].
  intros c [-> | Hc]; [by left|]. right. right.
  by apply form_safe_alphanumeric.
Qed.

Lemma form_encode_chars (text : list N) : Forall form_char (form_encode text).
Proof.
  unfold form_encode. apply Forall_flat_map, Forall_forall.
  intros b _. apply form_byte_chars.
Qed.

(** *** The path of a request *)

Lemma component_plain (c : N) :
  component_char c ->
  32 < c /\ c < 127 /\ c <> 47 /\ c <> 92 /\ c <> 63 /\ c <> 35
  /\ path_encode_set c = false.
Proof.
  intros Hc.
  assert (Hr : 32 < c /\ c < 127 /\ c <> 47 /\ c <> 92 /\ c <> 63
               /\ c <> 35 /\ c <> 34 /\ c <> 60 /\ c <> 62 /\ c <> 94
               /\ c <> 96 /\ c <> 123 /\ c <> 125).
  { destruct Hc as [-> | Hc]; [lia|].
    unfold uri_unreserved, is_alphanumeric in Hc.
    repeat (apply orb_prop in Hc as [Hc | Hc]);
      try (apply andb_prop in Hc as [H1%N.leb_le H2%N.leb_le]);
      try apply N.eqb_eq in Hc; lia. }
  repeat (split; [lia|]).
  unfold path_encode_set. apply orb_false_iff. split.
  - apply orb_false_iff. split; [apply N.leb_gt | apply N.ltb_ge]; lia.
  - apply bool_decide_eq_false. intros Hin.
    repeat (apply elem_of_cons in Hin as [Hin | Hin]; [lia|]).
    by apply elem_of_nil in Hin.
Qed.

Lemma path_state_plain (text : jsstring) (segment : jsstring)
      (path : list jsstring) :
  Forall component_char text ->
  path_state text segment path
  = close_segment (segment ++ text) true path.
Proof.
  intros Hall. revert segment.
  induction Hall as [|c text Hc _ IH]; intros segment.
  - by rewrite app_nil_r.
  - destruct (component_plain c Hc) as (_ & _ & H1 & H2 & H3 & H4 & H5).
    cbn [path_state]. unfold path_char. rewrite H5.
    apply N.eqb_neq in H1, H2, H3, H4. rewrite H1, H2, H3, H4.
    cbn [orb]. rewrite IH. by rewrite <- app_assoc.
Qed.

Lemma path_state_slash (text rest : jsstring) (segment : jsstring)
      (path : list jsstring) :
  Forall component_char text ->
  path_state (text ++ 47 :: rest) segment path
  = path_state rest [] (close_segment (segment ++ text) false path).
Proof.
  intros Hall. revert segment.
  induction Hall as [|c text Hc _ IH]; intros segment.
  - cbn [app path_state N.eqb orb]. by rewrite app_nil_r.
  - destruct (component_plain c Hc) as (_ & _ & H1 & H2 & H3 & H4 & H5).
    cbn [app path_state]. unfold path_char. rewrite H5.
    apply N.eqb_neq in H1, H2, H3, H4. rewrite H1, H2, H3, H4.
    cbn [orb]. rewrite IH. by rewrite <- app_assoc.
Qed.

Lemma scalar_values_plain (s : jsstring) :
  Forall (fun c => c < 0xD800) s -> scalar_values s = s.
Proof.
  induction 1 as [|c s Hc _ IH]; [done|].
  cbn [scalar_values]. unfold is_high_surrogate, is_low_surrogate.
  replace (0xD800 <=? c) with false by (symmetry; apply N.leb_gt; lia).
  replace (0xDC00 <=? c) with false by (symmetry; apply N.leb_gt; lia).
  cbn [andb]. by rewrite IH.
Qed.

(** The scalar values of a string of 16-bit code units. *)
Lemma scalar_values_bound (s : jsstring) :
  Forall (fun c => c < 0x10000) s ->
  Forall (fun cp => cp < 0x110000) (scalar_values s).
Proof.
  remember (length s) as n eqn:Hn. revert s Hn.
  induction n as [n IH] using lt_wf_ind. intros s -> Hall.
  destruct s as [|c rest]; [constructor|].
  apply Forall_cons in Hall as [Hc Hrest]. cbn [scalar_values].
  destruct (is_high_surrogate c) eqn:Eh.
  - destruct rest as [|d rest']; [repeat constructor; lia|].
    apply Forall_cons in Hrest as [Hd Hrest'].
    destruct (is_low_surrogate d) eqn:El.
    + constructor.
      * unfold is_high_surrogate, is_low_surrogate in Eh, El.
        apply andb_prop in Eh as [H1%N.leb_le H2%N.leb_le].
        apply andb_prop in El as [H3%N.leb_le H4%N.leb_le]. lia.
      * by apply (IH (length rest') ltac:(simpl; lia) rest' eq_refl).
    + constructor; [lia|].
      apply (IH (length (d :: rest')) ltac:(simpl; lia) _ eq_refl).
      by constructor.
  - destruct (is_low_surrogate c).
    + constructor; [lia|].
      by apply (IH (length rest) ltac:(simpl; lia) rest eq_refl).
    + constructor; [lia|].
      by apply (IH (length rest) ltac:(simpl; lia) rest eq_refl).
Qed.

(** A string whose scalar values are below the surrogates is the list of
    its scalar values. *)
Lemma scalar_values_low (s : jsstring) :
  Forall (fun cp => cp < 0xD800) (scalar_values s) -> scalar_values s = s.
Proof.
  remember (length s) as n eqn:Hn. revert s Hn.
  induction n as [n IH] using lt_wf_ind. intros s ->.
  destruct s as [|c rest]; [done|]. cbn [scalar_values].
  destruct (is_high_surrogate c) eqn:Eh.
  - destruct rest as [|d rest'].
    + intros [Hc _]%Forall_cons. lia.
    + destruct (is_low_surrogate d).
      * intros [Hc _]%Forall_cons. lia.
      * intros [Hc _]%Forall_cons. lia.
  - destruct (is_low_surrogate c).
    + intros [Hc _]%Forall_cons. lia.
    + intros [Hc Hrest]%Forall_cons. f_equal.
      by apply (IH (length rest) ltac:(simpl; lia) rest eq_refl).
Qed.

Lemma lower_ascii_low (c x : N) :
  lower_ascii c = x -> x < 97 -> c = x.
Proof.
  unfold lower_ascii. destruct ((65 <=? c) && (c <=? 90)) eqn:E; [|done].
  apply andb_prop in E as [H1%N.leb_le H2%N.leb_le]. lia.
Qed.

Lemma lower_hex_two (n : N) :
  n < 16 -> lower_ascii (hex_digit n) = 50 -> n = 2.
Proof.
  intros Hn Hl. apply (lower_ascii_low _ 50) in Hl; [|lia].
  unfold hex_digit in Hl. destruct (n <? 10) eqn:E.
  - lia.
  - apply N.ltb_ge in E. lia.
Qed.

Lemma lower_hex_e (n : N) :
  n < 16 -> lower_ascii (hex_digit n) = 101 -> n = 14.
Proof.
  intros Hn. unfold hex_digit, lower_ascii. destruct (n <? 10) eqn:E.
  - apply N.ltb_lt in E.
    destruct ((65 <=? 48 + n) && (48 + n <=? 90)) eqn:E2.
    + apply andb_prop in E2 as [H1%N.leb_le H2%N.leb_le]. lia.
    + lia.
  - apply N.ltb_ge in E.
    destruct ((65 <=? 55 + n) && (55 + n <=? 90)) eqn:E2; lia.
Qed.

(** The first octet of the UTF-8 form of a scalar value. *)
Lemma utf8_first (cp : N) :
  cp < 0x110000 ->
  exists b bs, utf8_bytes cp = b :: bs /\ b < 256 /\ (b < 0x80 -> cp = b).
Proof.
  intros Hcp. unfold utf8_bytes.
  destruct (cp <? 0x80) eqn:E1.
  { apply N.ltb_lt in E1. exists cp, []. split; [done|]. split; [lia | done]. }
  destruct (cp <? 0x800) eqn:E2.
  { apply N.ltb_lt in E2. eexists _, _. split; [reflexivity|].
    assert (cp / 0x40 < 0x20) by (apply N.Div0.div_lt_upper_bound; lia).
    set (q := cp / 0x40) in *. clearbody q. lia. }
  destruct (cp <? 0x10000) eqn:E3.
  { apply N.ltb_lt in E3. eexists _, _. split; [reflexivity|].
    assert (cp / 0x1000 < 0x10) by (apply N.Div0.div_lt_upper_bound; lia).
    set (q := cp / 0x1000) in *. clearbody q. lia. }
  eexists _, _. split; [reflexivity|].
  assert (cp / 0x40000 < 0x5) by (apply N.Div0.div_lt_upper_bound; lia).
  set (q := cp / 0x40000) in *. clearbody q. lia.
Qed.

Lemma octet_of_digits (b : N) :
  b < 256 -> (b / 16) mod 16 = 2 -> b mod 16 = 14 -> b = 46.
Proof.
  intros Hb H1 H2.
  assert (Hd : b / 16 < 16) by (apply N.Div0.div_lt_upper_bound; lia).
  rewrite N.mod_small in H1 by exact Hd.
  pose proof (N.div_mod b 16 ltac:(lia)) as Hdm.
  rewrite H1, H2 in Hdm. lia.
Qed.

(** How a dot segment can start: an escaped text never spells the
    escape [%2e], since the dot it stands for is not escaped, and it
    starts with a dot only if the text does. *)
Lemma no_escaped_dot (cp : N) (tail rest : jsstring) :
  cp < 0x110000 ->
  List.map lower_ascii (encode_point cp ++ tail) <> 37 :: 50 :: 101 :: rest.
Proof.
  intros Hcp Heq. unfold encode_point in Heq.
  destruct (uri_unreserved cp) eqn:Eu.
  - cbn [app List.map] in Heq. injection Heq as Hc _.
    apply (lower_ascii_low _ 37) in Hc; [|lia]. subst cp. discriminate Eu.
  - destruct (utf8_first cp Hcp) as (b & bs & Hb & Hlt & Hsmall).
    rewrite Hb in Heq. cbn [flat_map percent_byte app List.map] in Heq.
    injection Heq as H1 H2 _.
    apply lower_hex_two in H1; [|by apply N.mod_lt].
    apply lower_hex_e in H2; [|by apply N.mod_lt].
    pose proof (octet_of_digits b Hlt H1 H2) as ->.
    assert (cp = 46) by (apply Hsmall; lia). subst cp. discriminate Eu.
Qed.

Lemma leading_dot (cp : N) (tail rest : jsstring) :
  List.map lower_ascii (encode_point cp ++ tail) = 46 :: rest ->
  cp = 46 /\ List.map lower_ascii tail = rest.
Proof.
  unfold encode_point. destruct (uri_unreserved cp) eqn:Eu.
  - cbn [app List.map]. intros [= Hc Ht].
    apply (lower_ascii_low _ 46) in Hc; [done | lia].
  - destruct (utf8_bytes cp) as [|b bs] eqn:Hb.
    + unfold utf8_bytes in Hb. by repeat destruct (_ <? _).
    + cbn [flat_map percent_byte app List.map]. intros Heq.
      apply (f_equal (hd 0)) in Heq. discriminate Heq.
Qed.

Lemma encode_point_nonempty (cp : N) : encode_point cp <> [].
Proof.
  unfold encode_point. destruct (uri_unreserved cp); [done|].
  destruct (utf8_bytes cp) as [|b bs] eqn:Hb.
  - unfold utf8_bytes in Hb. by repeat destruct (_ <? _).
  - done.
Qed.

Lemma encoded_nil (cps : list N) :
  flat_map encode_point cps = [] -> cps = [].
Proof.
  destruct cps as [|cp cps]; [done|]. cbn [flat_map].
  intros [H _]%app_eq_nil. by apply encode_point_nonempty in H.
Qed.

Lemma encoded_single_dot (cps : list N) :
  Forall (fun cp => cp < 0x110000) cps ->
  single_dot (flat_map encode_point cps) = true -> cps = [46].
Proof.
  intros Hall Hd. apply bool_decide_eq_true in Hd.
  destruct cps as [|cp cps];
    [repeat (apply elem_of_cons in Hd as [Hd | Hd]; [discriminate|]);
     by apply elem_of_nil in Hd|].
  apply Forall_cons in Hall as [Hcp Hall]. cbn [flat_map] in Hd.
  apply elem_of_cons in Hd as [Hd | Hd].
  - apply leading_dot in Hd as [-> Ht].
    apply map_eq_nil, encoded_nil in Ht. by subst.
  - apply elem_of_cons in Hd as [Hd | Hd];
      [by apply no_escaped_dot in Hd | by apply elem_of_nil in Hd].
Qed.

Lemma encoded_double_dot (cps : list N) :
  Forall (fun cp => cp < 0x110000) cps ->
  double_dot (flat_map encode_point cps) = true -> cps = [46; 46].
Proof.
  intros Hall Hd. apply bool_decide_eq_true in Hd.
  destruct cps as [|cp cps];
    [repeat (apply elem_of_cons in Hd as [Hd | Hd]; [discriminate|]);
     by apply elem_of_nil in Hd|].
  apply Forall_cons in Hall as [Hcp Hall]. cbn [flat_map] in Hd.
  assert (Hrest : forall rest,
             List.map lower_ascii (flat_map encode_point cps) = rest ->
             rest = [46] \/ rest = [37; 50; 101] -> cps = [46]).
  { intros rest Hr Hcase. apply encoded_single_dot; [done|].
    apply bool_decide_eq_true. rewrite Hr.
    destruct Hcase as [-> | ->]; [left | right; left]. }
  repeat (apply elem_of_cons in Hd as [Hd | Hd]);
    [| | by apply no_escaped_dot in Hd | by apply no_escaped_dot in Hd
     | by apply elem_of_nil in Hd].
  - apply leading_dot in Hd as [-> Ht].
    by rewrite (Hrest _ Ht (or_introl eq_refl)).
  - apply leading_dot in Hd as [-> Ht].
    by rewrite (Hrest _ Ht (or_intror eq_refl)).
Qed.

End UrlFacts.

Section UrlExtras.
Context {num : Type} `{!JsNumber num}.

Import UrlFacts.

Lemma component_no_separator (segment : jsstring) (c : N) :
  Forall component_char segment ->
  c <> 37%N -> uri_unreserved c = false -> c ∉ segment.
Proof.
  intros Hall Hc Hu Hin. rewrite Forall_forall in Hall.
  destruct (Hall c Hin) as [? | Hc']; congruence.
Qed.

Lemma dot_free_segment (requestId : jsstring) :
  Forall (fun c => (c < 65536)%N) requestId ->
  requestId <> js "." -> requestId <> js ".." ->
  single_dot (flat_map encode_point (scalar_values requestId)) = false
  /\ double_dot (flat_map encode_point (scalar_values requestId)) = false.
Proof.
  intros Hunits H1 H2.
  pose proof (scalar_values_bound requestId Hunits) as Hb.
  assert (Hlow : forall cps,
             scalar_values requestId = cps ->
             Forall (fun cp => (cp < 0xD800)%N) cps -> requestId = cps).
  { intros cps <- Hall. symmetry. by apply scalar_values_low. }
  split.
  - destruct (single_dot _) eqn:E; [|done]. exfalso. apply H1.
    apply Hlow; [by apply encoded_single_dot|]. by repeat constructor.
  - destruct (double_dot _) eqn:E; [|done]. exfalso. apply H2.
    apply Hlow; [by apply encoded_double_dot|]. by repeat constructor.
Qed.

Lemma abort_url_path (segment : jsstring) :
  Forall component_char segment ->
  single_dot segment = false -> double_dot segment = false ->
  url_path (js "/api" ++ js "/agent/abort/" ++ segment)
  = Some [js "api"; js "agent"; js "abort"; segment].
Proof.
  intros Hall Hs Hd.
  assert (Hplain : Forall (fun c => (32 < c)%N /\ (c < 0xD800)%N)
                          (js "/api" ++ js "/agent/abort/" ++ segment)).
  { rewrite !Forall_app. split; [|split].
    - repeat constructor.
    - repeat constructor.
    - eapply Forall_impl; [exact Hall|]. intros c Hc.
      destruct (component_plain c Hc) as (? & ? & _). lia. }
  unfold url_path. rewrite scalar_values_plain
    by (eapply Forall_impl; [exact Hplain|]; by intros c [_ ?]).
  rewrite (proj2 (forallb_forall _ _)).
  2: { intros c Hin%list_elem_of_In. rewrite Forall_forall in Hplain.
       apply N.ltb_lt. by apply Hplain. }
  set (rest := js "pi" ++ 47%N :: js "agent" ++ 47%N :: js "abort"
                  ++ 47%N :: segment).
  change (js "/api" ++ js "/agent/abort/" ++ segment)
    with (47%N :: 97%N :: rest).
  cbv beta iota.
  change (97%N :: rest)
    with (js "api" ++ 47%N :: js "agent" ++ 47%N :: js "abort"
                 ++ 47%N :: segment).
  clear rest.
  assert (Hword : forall word : string,
             forallb is_alphanumeric (js word) = true ->
             Forall component_char (js word)).
  { intros word Hw. apply Forall_forall. intros c Hin%list_elem_of_In.
    right. apply unreserved_alphanumeric.
    by apply (proj1 (forallb_forall _ _) Hw). }
  rewrite !path_state_slash by (by apply Hword).
  rewrite path_state_plain by done.
  cbn [app]. unfold close_segment at 1. rewrite Hd, Hs. reflexivity.
Qed.

(** X12.  The URL of the abort notification.  The request id is escaped
    into letters, digits, [- _ . ! ~ * ' ( )] and [%XX] escapes, so that
    no slash, question mark or hash of the id reaches the path; and for
    every id other than [.] and [..] the path of the URL has four
    segments, [api], [agent], [abort] and the escaped id.  The ids [.]
    and [..] are sent as they are and read by the URL parser as dot
    segments: the request goes to [/api/agent/abort/] for the first and
    to [/api/agent/] for the second.  An id made of unreserved characters
    only, as those [randomId] makes, is sent as it is.  An id with a
    surrogate that stands alone cannot be escaped: [abort] then rejects
    with a URIError, no request being made; on every other id it settles
    as the request does. *)
Theorem abort_path_segment (requestId : jsstring) :
  (forall path,
      abort_path requestId = Some path ->
      exists segment,
        path = js "/agent/abort/" ++ segment
        /\ Forall (fun c => c = 37%N \/ uri_unreserved c = true) segment
        /\ (47%N ∉ segment) /\ (63%N ∉ segment) /\ (35%N ∉ segment)
        /\ (Forall (fun c => (c < 65536)%N) requestId ->
            requestId <> js "." -> requestId <> js ".." ->
            url_path (js "/api" ++ path)
            = Some [js "api"; js "agent"; js "abort"; segment]))
  /\ (abort_path (js ".") = Some (js "/agent/abort/.")
      /\ url_path (js "/api" ++ js "/agent/abort/.")
         = Some [js "api"; js "agent"; js "abort"; []]
      /\ abort_path (js "..") = Some (js "/agent/abort/..")
      /\ url_path (js "/api" ++ js "/agent/abort/..")
         = Some [js "api"; js "agent"; []])
  /\ (Forall (fun c => uri_unreserved c = true) requestId ->
      abort_path requestId = Some (js "/agent/abort/" ++ requestId))
  /\ (abort_path requestId = None <-> well_formed_utf16 requestId = false)
  /\ (forall fetched parsed (w : world num),
         fst (abort requestId fetched parsed w)
         = match abort_path requestId with
           | Some _ =>
               match fetched with
               | Throw e => Throw e
               | Normal r => if ok r then parsed else Throw (http_error r)
               end
           | None => Throw URIError
           end).
Proof.
  unfold abort_path, encodeURIComponent.
  split; [|split; [|split; [|split]]].
  - destruct (well_formed_utf16 requestId); [|done].
    intros path [= <-]. eexists. split; [reflexivity|].
    assert (Hall : Forall component_char
                     (flat_map encode_point (scalar_values requestId))).
    { apply Forall_flat_map, Forall_forall. intros cp _.
      apply encode_point_chars. }
    split; [exact Hall|].
    split; [|split; [|split]]; try by apply component_no_separator.
    intros Hunits H1 H2.
    destruct (dot_free_segment requestId Hunits H1 H2) as [Hs Hd].
    by apply abort_url_path.
  - repeat split; vm_compute; reflexivity.
  - intros Hall.
    destruct (unreserved_well_formed requestId Hall) as (-> & -> & ->).
    reflexivity.
  - by destruct (well_formed_utf16 requestId).
  - intros fetched parsed w. rewrite abort_eq. cbn [fst].
    unfold notification.
    destruct (well_formed_utf16 requestId); [|reflexivity].
    cbn [fmap option_fmap option_map]. apply httpRequest_result.
Qed.

(** *** [toQuery] *)

Definition not_null (item : json num) : bool :=
  match item with
  | JNull => false
  | _ => true
  end.

(** The pairs an entry of [params] contributes to the query. *)
Definition item_pairs (key : jsstring) (items : list (json num))
  : option search_params :=
  all_some
    (List.map (fun item =>
                 (fun text => (scalar_values key, scalar_values text))
                 <$> to_string item)
              (List.filter not_null items)).

Definition entry_pairs (entry : jsstring * option (json num))
  : option search_params :=
  match snd entry with
  | None | Some JNull => Some []
  | Some (JArr items) => item_pairs (fst entry) items
  | Some value =>
      (fun text => [(scalar_values (fst entry), scalar_values text)])
      <$> to_string value
  end.

(** What [toQuery] makes of the pairs. *)
Definition query_text (pairs : search_params) : jsstring :=
  if bool_decide (params_toString pairs = []) then []
  else 63%N :: params_toString pairs.

Lemma forEach_items key (items : list (json num)) (q : search_params) :
  match item_pairs key items with
  | Some ps => forEach (toQuery_item key) items q = (Normal tt, q ++ ps)
  | None => fst (forEach (toQuery_item key) items q) = Throw primitive_error
  end.
Proof.
  unfold item_pairs. revert q.
  induction items as [|item items IH]; intros q.
  - simpl. by rewrite app_nil_r.
  - cbn [forEach]. unfold bind.
    destruct (not_null item) eqn:En.
    + cbn [List.filter]. rewrite En. cbn [List.map all_some].
      assert (Hi : toQuery_item key item q
                   = match to_string item with
                     | Some text => (Normal tt, params_append q key text)
                     | None => (Throw primitive_error, q)
                     end).
      { unfold toQuery_item, String_of, bind, modify, ret, throw.
        destruct item; try done; by destruct (to_string _). }
      rewrite Hi. destruct (to_string item) as [text|]; [|done].
      cbn [fmap option_fmap option_map].
      specialize (IH (params_append q key text)).
      destruct (all_some _) as [ps|]; [|exact IH].
      rewrite IH. unfold params_append. by rewrite <- app_assoc.
    + cbn [List.filter]. rewrite En.
      destruct item; try discriminate. cbn [toQuery_item ret]. apply IH.
Qed.

Lemma item_pairs_names key (items : list (json num)) ps :
  item_pairs key items = Some ps ->
  Forall (fun p => fst p = scalar_values key) ps.
Proof.
  unfold item_pairs. generalize (List.filter not_null items). clear items.
  intros items. revert ps. induction items as [|item items IH]; intros ps.
  - intros [= <-]. constructor.
  - cbn [List.map all_some]. destruct (to_string item) as [text|]; [|done].
    cbn [fmap option_fmap option_map].
    destruct (all_some _) as [ps'|]; [|done].
    intros [= <-]. constructor; [done|]. by apply IH.
Qed.

Lemma entry_pairs_names entry ps :
  entry_pairs entry = Some ps ->
  Forall (fun p => fst p = scalar_values (fst entry)) ps.
Proof.
  unfold entry_pairs.
  destruct (snd entry) as [[ | b | n | s | items | props]|];
    first [ apply item_pairs_names
          | by intros [= <-]; constructor
          | destruct (to_string _) as [text|]; [|done];
            intros [= <-]; by repeat constructor ].
Qed.

Lemma params_set_fresh (q : search_params) (name value : jsstring) :
  scalar_values name ∉ List.map fst q ->
  params_set q name value = params_append q name value.
Proof.
  intros Hn. unfold params_set.
  destruct (existsb _ q) eqn:E; [|done]. exfalso.
  apply existsb_exists in E as (p & Hin & Hp).
  apply bool_decide_eq_true in Hp. apply Hn. rewrite <- Hp.
  apply list_elem_of_In, List.in_map, Hin.
Qed.

Lemma toQuery_entry_eq entry (q : search_params) :
  scalar_values (fst entry) ∉ List.map fst q ->
  match entry_pairs entry with
  | Some ps => toQuery_entry entry q = (Normal tt, q ++ ps)
  | None => fst (toQuery_entry entry q) = Throw primitive_error
  end.
Proof.
  intros Hn. unfold toQuery_entry, entry_pairs.
  destruct (snd entry) as [[ | b | n | s | items | props]|];
    try (by rewrite app_nil_r);
    try (unfold String_of, bind, modify, ret, throw;
         destruct (to_string _) as [text|]; [|done];
         by rewrite params_set_fresh).
  apply forEach_items.
Qed.

Lemma forEach_entries (params : list (jsstring * option (json num)))
      (q : search_params) :
  NoDup (List.map (fun e => scalar_values (fst e)) params) ->
  (forall e, e ∈ params -> scalar_values (fst e) ∉ List.map fst q) ->
  match all_some (List.map entry_pairs params) with
  | Some pss => forEach toQuery_entry params q = (Normal tt, q ++ concat pss)
  | None => fst (forEach toQuery_entry params q) = Throw primitive_error
  end.
Proof.
  revert q. induction params as [|e params IH]; intros q Hnd Hq.
  - simpl. by rewrite app_nil_r.
  - cbn [List.map all_some forEach]. unfold bind.
    apply NoDup_cons in Hnd as [Hfresh Hnd].
    pose proof (toQuery_entry_eq e q (Hq e ltac:(left))) as He.
    destruct (entry_pairs e) as [ps|] eqn:Ep.
    + rewrite He.
      assert (Hq' : forall e', e' ∈ params ->
                    scalar_values (fst e') ∉ List.map fst (q ++ ps)).
      { intros e' He'. rewrite List.map_app.
        intros [Hin|Hin]%elem_of_app.
        - by apply (Hq e' ltac:(by right)).
        - apply entry_pairs_names in Ep. rewrite Forall_forall in Ep.
          apply list_elem_of_In, List.in_map_iff in Hin as (p & Hp & Hin).
          apply list_elem_of_In in Hin. rewrite (Ep p Hin) in Hp.
          apply Hfresh. rewrite Hp.
          apply list_elem_of_In,
            (List.in_map (fun e => scalar_values (fst e))).
          by apply list_elem_of_In. }
      specialize (IH (q ++ ps) Hnd Hq').
      destruct (all_some (List.map entry_pairs params)) as [pss|];
        [|exact IH].
      rewrite IH. by rewrite <- app_assoc.
    + destruct (toQuery_entry e q) as [[[]|err] q']; cbn [fst] in He;
        [discriminate | by injection He as ->].
Qed.

Lemma join_chars (P : N -> Prop) (sep : jsstring)
      (parts : list jsstring) :
  Forall P sep -> Forall (Forall P) parts -> Forall P (join sep parts).
Proof.
  intros Hsep Hall. induction Hall as [|p parts Hp Hparts IH]; [constructor|].
  destruct parts as [|p' parts]; [done|].
  change (join sep (p :: p' :: parts))
    with (p ++ sep ++ join sep (p' :: parts)).
  apply Forall_app. split; [done|]. apply Forall_app. by split.
Qed.

(** The characters of a query after its question mark. *)
Definition query_char (c : N) : Prop :=
  c = 38%N \/ c = 61%N \/ c = 37%N \/ c = 43%N \/ form_safe c = true.

Lemma params_toString_chars (q : search_params) :
  Forall query_char (params_toString q).
Proof.
  unfold params_toString. apply join_chars.
  - constructor; [by left | constructor].
  - apply Forall_forall. intros part Hin.
    apply list_elem_of_In, List.in_map_iff in Hin as (p & <- & _).
    assert (Hf : forall text, Forall query_char (form_encode text)).
    { intros text. eapply Forall_impl; [apply form_encode_chars|].
      intros c [-> | [-> | Hc]]; unfold query_char; tauto. }
    apply Forall_app. split; [apply Hf|].
    apply Forall_app. split; [|apply Hf].
    constructor; [right; by left | constructor].
Qed.

Lemma toQuery_shape (params : list (jsstring * option (json num))) q :
  toQuery params = Normal q ->
  q = [] \/ exists text, q = 63%N :: text /\ text <> []
                         /\ Forall query_char text.
Proof.
  unfold toQuery.
  destruct (forEach toQuery_entry params []) as [[[]|e] query]; [|done].
  intros [= <-]. case_bool_decide as Ht; [by left|]. right.
  eexists. split; [reflexivity|]. split; [done|].
  apply params_toString_chars.
Qed.

Lemma toQuery_distinct (params : list (jsstring * option (json num))) :
  NoDup (List.map (fun e => scalar_values (fst e)) params) ->
  toQuery params
  = match all_some (List.map entry_pairs params) with
    | Some pss => Normal (query_text (concat pss))
    | None => Throw primitive_error
    end.
Proof.
  intros Hnd. unfold toQuery.
  assert (Hq : forall e, e ∈ params ->
               scalar_values (fst e) ∉ List.map fst (@nil (list N * list N)))
    by (intros e _; by intros ?%elem_of_nil).
  pose proof (forEach_entries params [] Hnd Hq) as He.
  destruct (all_some (List.map entry_pairs params)) as [pss|].
  - by rewrite He.
  - destruct (forEach toQuery_entry params []) as [[[]|e] query];
      cbn [fst] in He; [discriminate | by injection He as ->].
Qed.

(** X13.  [toQuery] gives the empty string or a question mark followed by
    a non-empty text made of [name=value] pairs joined by [&], in which
    names and values are escaped: apart from these separators the text
    holds only letters, digits, [* - . _], [+] and [%XX] escapes.  When the
    names of [params] are distinct, each property contributes, in order,
    nothing if it holds [null] or [undefined], one pair per item that is
    not [null] if it holds an array, and one pair otherwise; the call
    throws when a value cannot be converted to a string. *)
Theorem toQuery_pairs (params : list (jsstring * option (json num))) :
  (forall q,
      toQuery params = Normal q ->
      q = [] \/ exists text, q = 63%N :: text /\ text <> []
                             /\ Forall query_char text)
  /\ (NoDup (List.map (fun e => scalar_values (fst e)) params) ->
      toQuery params
      = match all_some (List.map entry_pairs params) with
        | Some pss => Normal (query_text (concat pss))
        | None => Throw primitive_error
        end).
Proof.
  split; [apply toQuery_shape | apply toQuery_distinct].
Qed.

(** The pair a bound of a time filter contributes. *)
Definition bound_pair (name : jsstring) (bound : json num)
  : search_params :=
  match bound with
  | JBool _ | JNum _ | JStr _ =>
      [(scalar_values name, scalar_values (default [] (to_string bound)))]
  | _ => []
  end.

Definition plain_bound (bound : json num) : Prop :=
  match bound with
  | JArr _ | JObj _ => False
  | _ => True
  end.

Lemma entry_pairs_bound (name : jsstring) (bound : json num) :
  plain_bound bound ->
  entry_pairs (name, Some bound) = Some (bound_pair name bound).
Proof. destruct bound as [ | [] | n | s | items | props]; done. Qed.

(** X14.  The query of a time filter.  An absent filter and a falsy one
    give the empty query, as does a filter without bounds.  Bounds that
    are [null], numbers, strings or booleans give one pair for each bound
    that is not [null], the start before the end; with both bounds the
    query is [?start_ts=<start>&end_ts=<end>], each escaped. *)
Theorem time_filter_query :
  (forall filter : option (json num),
      is_truthy filter = false ->
      toQuery (entries (normalizeTimeFilter filter)) = Normal [])
  /\ (forall v : json num,
         truthy v = true ->
         let a := nullish (property_of (toCamelDeep v) (js "startTs")) JNull in
         let b := nullish (property_of (toCamelDeep v) (js "endTs")) JNull in
         plain_bound a -> plain_bound b ->
         toQuery (entries (normalizeTimeFilter (Some v)))
         = Normal (query_text (bound_pair (js "start_ts") a
                               ++ bound_pair (js "end_ts") b)))
  /\ (forall start_text end_text : jsstring,
         query_text [(scalar_values (js "start_ts"), scalar_values start_text);
                     (scalar_values (js "end_ts"), scalar_values end_text)]
         = js "?start_ts=" ++ form_encode (scalar_values start_text)
           ++ js "&end_ts=" ++ form_encode (scalar_values end_text)).
Proof.
  split; [|split].
  - intros filter Hf.
    assert (Hn : normalizeTimeFilter filter = JObj []).
    { destruct filter as [v|]; [|done]. unfold normalizeTimeFilter.
      simpl in Hf. by rewrite Hf. }
    by rewrite Hn.
  - intros v Hv a b Ha Hb. unfold normalizeTimeFilter. rewrite Hv.
    cbn [negb entries List.map fst snd]. fold a b.
    rewrite toQuery_distinct.
    + cbn [List.map all_some].
      rewrite !entry_pairs_bound by done.
      cbn [concat]. by rewrite app_nil_r.
    + cbn [List.map fst]. apply NoDup_cons. split; [|apply NoDup_singleton].
      intros Hin%list_elem_of_singleton. vm_compute in Hin. discriminate.
  - intros start_text end_text. unfold query_text, params_toString.
    cbn [List.map join fst snd].
    rewrite bool_decide_eq_false_2.
    + change (form_encode (scalar_values (js "start_ts")))
        with (js "start_ts").
      change (form_encode (scalar_values (js "end_ts"))) with (js "end_ts").
      rewrite <- !app_assoc. reflexivity.
    + change (form_encode (scalar_values (js "start_ts")))
        with (js "start_ts"). discriminate.
Qed.

End UrlExtras.

(** ** Aliases, snapshots and subscriptions *)

Section HelperExtras.
Context {num : Type} `{!JsNumber num}.

(** *** [parseAliases] *)

Lemma filter_all {A} (f : A -> bool) (l : list A) :
  Forall (fun x => f x = true) l -> List.filter f l = l.
Proof.
  induction 1 as [|x l Hx _ IH]; [done|]. simpl. by rewrite Hx, IH.
Qed.

Lemma filter_kept {A} (f : A -> bool) (l : list A) :
  Forall (fun x => f x = true) (List.filter f l).
Proof.
  apply Forall_forall. intros x Hin.
  apply list_elem_of_In, List.filter_In in Hin. tauto.
Qed.

Lemma filter_sublist {A} (f : A -> bool) (l : list A) :
  sublist (List.filter f l) l.
Proof.
  induction l as [|x l IH]; simpl; [constructor|].
  destruct (f x); by constructor.
Qed.

(** The strings among the items of an array, in their order. *)
Definition strings_of (items : list (json num)) : list jsstring :=
  omap (fun x => match x with
                 | JStr s => Some s
                 | _ => None
                 end) items.

Lemma filter_strings (items : list (json num)) :
  List.filter is_string_value items = JStr <$> strings_of items.
Proof.
  induction items as [|x items IH]; [done|].
  destruct x; cbn [List.filter is_string_value strings_of omap list_omap];
    try exact IH.
  cbn [fmap list_fmap]. f_equal. exact IH.
Qed.

(** X15.  [parseAliases] never throws and returns strings only.  An array
    gives its strings, in their order, and nothing else; a string gives
    the strings of the array it spells in JSON, and nothing when it spells
    something else or is not JSON at all (a plain name is not an alias
    list); any other value gives nothing.  A list it has returned goes
    through it unchanged. *)
Theorem parseAliases_strings (value : option (json num)) :
  Forall (fun x => is_string_value x = true) (parseAliases value)
  /\ parseAliases (Some (JArr (parseAliases value))) = parseAliases value
  /\ (forall items,
         value = Some (JArr items) ->
         parseAliases value = JStr <$> strings_of items
         /\ sublist (parseAliases value) items
         /\ (Forall (fun x => is_string_value x = true) items ->
             parseAliases value = items))
  /\ (forall text,
         value = Some (JStr text) ->
         parseAliases value
         = match JSON_parse text with
           | Some (JArr items) => JStr <$> strings_of items
           | _ => []
           end)
  /\ ((forall items, value <> Some (JArr items)) ->
      (forall text, value <> Some (JStr text)) ->
      parseAliases value = []).
Proof.
  assert (Hs : Forall (fun x => is_string_value x = true)
                      (parseAliases value)).
  { unfold parseAliases.
    destruct value as [[ | b | n | s | items | props]|];
      try constructor; [|apply filter_kept].
    destruct (JSON_parse s) as [[ | b | n | s' | items | props]|];
      try constructor. apply filter_kept. }
  split; [exact Hs|]. split; [by apply filter_all|]. split; [|split].
  - intros items ->. split; [apply filter_strings|].
    split; [apply filter_sublist | apply filter_all].
  - intros text ->. cbn [parseAliases].
    destruct (JSON_parse text) as [[ | b | n | s' | items | props]|];
      try reflexivity. apply filter_strings.
  - intros Harr Hstr.
    destruct value as [[ | b | n | s | items | props]|]; try reflexivity.
    + by destruct (Hstr s).
    + by destruct (Harr items).
Qed.

(** *** [readImportProgressSnapshot] *)

(** What the snapshot reader makes of one line. *)
Definition snapshot_line (line : jsstring) : option jsstring :=
  if startsWith line (js "data:") then Some (trim (slice_from 5 line))
  else None.

Lemma dataLine_omap (text : jsstring) :
  dataLine text = join [LF] (omap snapshot_line (split_lines text)).
Proof.
  unfold dataLine. f_equal. generalize (split_lines text).
  intros lines. induction lines as [|l lines IH]; [done|].
  cbn [List.filter omap list_omap]. unfold snapshot_line at 1.
  destruct (startsWith l (js "data:")); [|exact IH].
  cbn [List.map]. by rewrite IH.
Qed.

Lemma startsWith_snoc (s p : jsstring) (c : N) :
  c ∉ p -> startsWith (s ++ [c]) p = startsWith s p.
Proof.
  revert s. induction p as [|x p IH]; intros s Hc; [by destruct s|].
  destruct s as [|y s]; cbn [app startsWith].
  - destruct (N.eqb_spec x c) as [->|Hne]; [|done].
    exfalso. apply Hc. left.
  - rewrite IH; [done|]. intros Hin. apply Hc. by right.
Qed.

Lemma startsWith_length (s p : jsstring) :
  startsWith s p = true -> length p <= length s.
Proof.
  revert s. induction p as [|x p IH]; intros s; simpl; [lia|].
  destruct s as [|y s]; [done|].
  intros [_ Hs]%andb_prop. apply IH in Hs. simpl. lia.
Qed.

(** A carriage return at the end of a line is lost in the trimming. *)
Lemma snapshot_line_CR (line : jsstring) :
  snapshot_line (line ++ [CR]) = snapshot_line line.
Proof.
  unfold snapshot_line. rewrite startsWith_snoc.
  - destruct (startsWith line (js "data:")) eqn:E; [|done].
    apply startsWith_length in E. unfold slice_from.
    rewrite drop_app_le by exact E. by rewrite trim_snoc_space.
  - vm_compute. intros Hin.
    repeat (apply elem_of_cons in Hin as [Hin|Hin]; [discriminate|]).
    by apply elem_of_nil in Hin.
Qed.

Lemma trimEnd_black_start (s : jsstring) :
  starts_black s -> starts_black (trimEnd s).
Proof.
  unfold trimEnd. destruct s as [|c s]; [done|]. simpl. intros Hc.
  rewrite reverse_cons.
  assert (Hgen : forall t : jsstring,
             exists u, reverse (trimStart (t ++ [c])) = c :: u).
  { intros t. induction t as [|d t (u & Hu)]; simpl.
    - rewrite Hc. by exists [].
    - destruct (is_whitespace d); [by exists u|].
      rewrite reverse_cons, reverse_app. simpl. eauto. }
  destruct (Hgen (reverse s)) as (u & ->). exact Hc.
Qed.

Lemma trim_payload (space payload : jsstring) :
  forallb is_whitespace space = true -> starts_black payload ->
  trim (space ++ payload) = trimEnd payload.
Proof.
  intros Hs Hp. unfold trim. by rewrite trimStart_space.
Qed.

Lemma snapshot_line_render (l : wire_line) :
  well_formed l ->
  snapshot_line (render l)
  = match l with
    | DataLine _ payload => Some (trimEnd payload)
    | OtherLine _ => None
    end.
Proof.
  destruct l as [space payload | text]; cbn [render well_formed].
  - intros (Hs & _ & _ & Hp). unfold snapshot_line.
    change (startsWith (js "data:" ++ space ++ payload) (js "data:"))
      with true. cbv iota.
    change (slice_from 5 (js "data:" ++ space ++ payload))
      with (space ++ payload).
    by rewrite trim_payload.
  - intros [_ Ht]. unfold snapshot_line. by rewrite Ht.
Qed.

(** The lines of a text whose lines end with CR-LF, as [split] cuts
    them. *)
Fixpoint crlf_pieces (lines : list jsstring) : list jsstring :=
  match lines with
  | [] => []
  | [l] => [l]
  | l :: rest => (l ++ [CR]) :: crlf_pieces rest
  end.

Lemma split_lines_crlf (lines : list jsstring) :
  lines <> [] -> Forall (fun l => LF ∉ l) lines ->
  split_lines (join [CR; LF] lines) = crlf_pieces lines.
Proof.
  intros Hne Hall. unfold split_lines.
  induction Hall as [|l ls Hl Hls IH]; [done|].
  destruct ls as [|l' ls].
  - simpl. by rewrite split_lines_aux_last.
  - replace (join [CR; LF] (l :: l' :: ls))
      with ((l ++ [CR]) ++ LF :: join [CR; LF] (l' :: ls))
      by (cbn [join]; by rewrite <- !app_assoc).
    rewrite split_lines_aux_line.
    + cbn [reverse app crlf_pieces]. by rewrite IH.
    + intros [Hin | Hin%list_elem_of_singleton]%elem_of_app; [done|].
      discriminate.
Qed.

Lemma omap_crlf_pieces (lines : list jsstring) :
  omap snapshot_line (crlf_pieces lines) = omap snapshot_line lines.
Proof.
  induction lines as [|l [|l' ls] IH]; [done..|].
  cbn [crlf_pieces omap list_omap]. rewrite snapshot_line_CR.
  cbn [crlf_pieces omap list_omap] in IH. by rewrite IH.
Qed.

Lemma omap_snapshot_render (lines : list wire_line) :
  Forall well_formed lines ->
  omap snapshot_line (List.map render lines)
  = List.map trimEnd (payloads lines).
Proof.
  induction 1 as [|l lines Hl _ IH]; [done|].
  cbn [List.map omap list_omap]. rewrite (snapshot_line_render l Hl).
  unfold payloads in *. cbn [omap list_omap].
  destruct l; cbn [List.map]; by rewrite IH.
Qed.

(** What the snapshot reader resolves to, given the text of the data
    lines. *)
Definition snapshot_of (payload : jsstring) : json num :=
  if bool_decide (payload = []) then JNull
  else default JNull (JSON_parse payload).

Lemma dataLine_lines (lines : list wire_line) (eol : jsstring) :
  lines <> [] -> Forall well_formed lines ->
  eol = [LF] \/ eol = [CR; LF] ->
  dataLine (join eol (List.map render lines))
  = join [LF] (List.map trimEnd (payloads lines)).
Proof.
  intros Hne Hwf Heol. rewrite dataLine_omap.
  assert (Hno : Forall (fun l => LF ∉ l) (List.map render lines)).
  { apply Forall_fmap. eapply Forall_impl; [exact Hwf|].
    intros l Hl. by apply render_no_LF. }
  assert (Hne' : List.map render lines <> []) by by destruct lines.
  destruct Heol as [-> | ->].
  - rewrite split_lines_join by done. by rewrite omap_snapshot_render.
  - rewrite split_lines_crlf by done.
    by rewrite omap_crlf_pieces, omap_snapshot_render.
Qed.

(** X16.  [readImportProgressSnapshot] reads a body whose lines end with
    LF or with CR-LF alike: it keeps the data lines, takes from each what
    follows the prefix without the white space around it, and joins these
    payloads with a newline.  Once the response is ok and its text is
    read it never rejects: it resolves to [null] when there is no payload
    or when the payload is not JSON, and to the parsed payload otherwise.
    When no payload ends with white space, that value is the one the
    stream decoder makes an event of, before the keys are normalised. *)
Theorem snapshot_reading (lines : list wire_line) (eol : jsstring)
        (r : response) :
  lines <> [] -> Forall well_formed lines ->
  eol = [LF] \/ eol = [CR; LF] -> ok r = true ->
  readImportProgressSnapshot (Normal r)
    (Normal (join eol (List.map render lines)))
  = Normal (snapshot_of (join [LF] (List.map trimEnd (payloads lines))))
  /\ (Forall (fun p => trimEnd p = p) (payloads lines) ->
      forall v : json num,
        JSON_parse (join [LF] (payloads lines)) = Some v ->
        readImportProgressSnapshot (Normal r)
          (Normal (join eol (List.map render lines)))
        = Normal v
        /\ decode (join [LF] (List.map render lines))
           = Some (toCamelDeep v)).
Proof.
  intros Hne Hwf Heol Hok.
  assert (Hr : readImportProgressSnapshot (Normal r)
                 (Normal (join eol (List.map render lines)))
               = Normal (snapshot_of
                           (join [LF] (List.map trimEnd (payloads lines))))).
  { unfold readImportProgressSnapshot. rewrite Hok. cbn [negb].
    rewrite (dataLine_lines lines eol Hne Hwf Heol). unfold snapshot_of.
    destruct (bool_decide _); [done|].
    by destruct (JSON_parse _). }
  split; [exact Hr|].
  intros Htrim v Hv. rewrite Hr.
  assert (Hp : List.map trimEnd (payloads lines) = payloads lines).
  { rewrite <- (List.map_id (payloads lines)) at 2.
    apply List.map_ext_in. intros p Hin.
    rewrite Forall_forall in Htrim. by apply Htrim, list_elem_of_In. }
  rewrite Hp.
  assert (Hpayload : join [LF] (payloads lines) <> []).
  { intros Heq. rewrite Heq in Hv. discriminate Hv. }
  split.
  - unfold snapshot_of. rewrite bool_decide_eq_false_2 by done.
    by rewrite Hv.
  - unfold decode. rewrite (dataText_lines lines Hne Hwf).
    rewrite (bool_decide_eq_false_2 (join [LF] (payloads lines) = []))
      by done.
    rewrite bool_decide_eq_false_2.
    + by rewrite Hv.
    + intros Heq. apply Hpayload.
      rewrite <- (dataText_lines lines Hne Hwf), Heq. reflexivity.
Qed.

(** *** [subscribeSse] *)

(** What the exchange of a subscription comes to: the rejection of
    [fetch], or what [consumeSseResponse] returns or throws. *)
Definition stream_outcome (fetched : completion response)
           (reads : list (list byte)) (last : completion unit)
  : completion (list (json num)) :=
  match fetched with
  | Normal response =>
      fst (consumeSseResponse (@None (callback num unit)) response reads
             last tt [])
  | Throw e => Throw e
  end.

(** What the subscription logs when it ends. *)
Definition subscription_log (result : completion (list (json num)))
  : list js_error :=
  match result with
  | Normal _ => []
  | Throw error =>
      if bool_decide (err_name error = js "AbortError") then [] else [error]
  end.

Lemma stream_outcome_eq fetched reads last :
  stream_outcome fetched reads last
  = fst (postSse (@None (callback num unit)) fetched reads last tt []).
Proof. by destruct fetched. Qed.

(** X17.  A subscription never surfaces an error.  The listener of
    [onExportProgress] is handed each event of the stream once, in order,
    up to the point where the stream ends or fails, its own exceptions
    being logged one by one without ending the subscription; when the
    stream fails, the error is logged once, after those, except for the
    AbortError that follows a call of the unsubscribe function, which
    leaves no trace. *)
Theorem export_progress_subscription (f : listener num) fetched reads
        last :
  exists events : list (json num),
    (forall received,
        stream_outcome fetched reads last = Normal received ->
        received = events)
    /\ onExportProgress (Some f) fetched reads last
       = {| chunks := events; observer := events;
            console :=
              raised f [] events
              ++ subscription_log (stream_outcome fetched reads last) |}.
Proof.
  destruct (postSse_uniform fetched reads last)
    as (events & result & Hr & _ & He).
  exists events. rewrite stream_outcome_eq, He. cbn [fst].
  split; [exact Hr|].
  unfold onExportProgress, subscribeSse.
  change (match fetched with
          | Normal response =>
              consumeSseResponse
                (Some (fun (_ : nat) (chunk : json num) =>
                         deliver (Some f) chunk))
                response reads last [] []
          | Throw e => (Throw e, sse_state (start [] []))
          end)
    with (postSse (Some (fun (_ : nat) (chunk : json num) =>
                           deliver (Some f) chunk))
            fetched reads last [] []).
  rewrite He. unfold fresh. rewrite emit_deliver. cbn [app].
  unfold subscription_log. destruct result as [received|error].
  - by rewrite app_nil_r.
  - destruct (bool_decide (err_name error = js "AbortError"));
      [by rewrite app_nil_r | done].
Qed.

End HelperExtras.

(** ** A stream of records *)

Section Records.
Context {num : Type} `{!JsNumber num} {S : Type}.
Variable onChunk : option (callback num S).

Import TextDecoder DecoderFacts.

(** The text of a stream: records, each closed by a blank line, and what
    follows the last blank line. *)
Definition stream_text (records : list jsstring) (tail : jsstring)
  : jsstring :=
  concat (List.map (fun b => b ++ blank_line) records) ++ tail.

(** A record as a server writes it: no blank line inside, no newline at
    its end. *)
Definition framed (b : jsstring) : Prop :=
  indexOf b blank_line = None /\ last b <> Some LF.

(** The events of a sequence of records. *)
Definition events_of (records : list jsstring) : list (json num) :=
  omap (fun b => decode (trim b)) records.

Lemma first_blank (b rest : jsstring) :
  framed b ->
  indexOf (b ++ blank_line ++ rest) blank_line = Some (length b).
Proof.
  intros [Hb Hl]. rewrite app_assoc.
  destruct (indexOf_blank_end b Hb) as (i & Hi & [[Ht Hd] | [Ht Hd]]).
  - rewrite (indexOf_blank_app _ rest i Hi). f_equal.
    pose proof (indexOf_blank_bound _ _ Hi) as Hlen.
    rewrite length_app in Hlen. simpl in Hlen.
    apply (f_equal length) in Ht. rewrite length_take in Ht.
    rewrite length_app in Ht. simpl in Ht. lia.
  - exfalso. apply Hl. rewrite <- Ht. apply last_snoc.
Qed.

Lemma drain_record (b rest : jsstring) (st : sse num S) :
  framed b ->
  drain onChunk (b ++ blank_line ++ rest) st
  = drain onChunk rest (record_state onChunk (trim b) st).
Proof.
  intros Hb. rewrite (drain_found onChunk _ _ _ (first_blank b rest Hb)).
  rewrite take_app_length.
  replace (length b + 2) with (length (b ++ blank_line))
    by (rewrite length_app; reflexivity).
  by rewrite app_assoc, drop_app_length.
Qed.

Lemma record_state_emit (b : jsstring) (st : sse num S) :
  record_state onChunk (trim b) st = emit_all onChunk (events_of [b]) st.
Proof.
  unfold record_state, events_of. cbn [omap list_omap].
  by destruct (decode (trim b)).
Qed.

Lemma drain_records (records : list jsstring) (tail : jsstring)
      (st : sse num S) :
  Forall framed records -> indexOf tail blank_line = None ->
  drain onChunk (stream_text records tail) st
  = (Normal tt, (tail, emit_all onChunk (events_of records) st)).
Proof.
  intros Hall Ht. revert st.
  induction Hall as [|b records Hb _ IH]; intros st.
  - unfold stream_text. cbn [List.map concat app]. by rewrite drain_none.
  - unfold stream_text. cbn [List.map concat].
    rewrite <- !app_assoc. rewrite (drain_record b _ st Hb).
    fold (stream_text records tail). rewrite IH.
    rewrite record_state_emit, <- emit_all_app.
    unfold events_of. cbn [omap list_omap app].
    by destruct (decode (trim b)).
Qed.

Lemma replace_crlf_absent (text : jsstring) :
  CR ∉ text -> replace_crlf text = text.
Proof.
  induction text as [|c [|d text] IH]; [done..|].
  intros Hc. rewrite replace_crlf_cons2.
  destruct (N.eqb_spec c CR) as [->|Hne]; [exfalso; apply Hc; left|].
  cbn [andb]. rewrite IH; [done|]. intros Hin. apply Hc. by right.
Qed.


(** X3.  When a read fails in mid-stream the call rejects with the error
    of the read, and the record still in the buffer is never decoded.
    Take a body without carriage returns whose chunks, read before the
    failure, are the UTF-8 text of records, each followed by a blank line,
    then of a last text without a blank line.  The call throws the error
    of the read, and the callback has been handed the events of the
    records, in order, and nothing else: the last text, which a clean end
    of the stream at that point would have flushed into one more event,
    is dropped. *)
Theorem read_failure_drops_partial (r : response) (reads : list (list byte))
        (records : list jsstring) (tail : jsstring) (d : TextDecoder.t)
        (e : js_error) (s : S) (log : list js_error) :
  ok r = true -> readable r = true ->
  Forall (fun value => x0d ∉ value) reads ->
  decode_stream create (concat reads) = (d, stream_text records tail) ->
  Forall framed records -> indexOf tail blank_line = None ->
  consumeSseResponse onChunk r reads (Throw e) s log
  = (Throw e, emit_all onChunk (events_of records) (fresh s log)).
Proof.
  intros Hok Hr Hcr Hd Hrec Htail.
  rewrite consume_chunking
    by (apply CarriageReturns.splits_crlf_absent,
          CarriageReturns.texts_no_CR;
        [apply CarriageReturns.heavy_init | exact Hcr]).
  unfold consumeSseResponse. rewrite Hok, Hr. cbn [negb].
  rewrite read_loop_cons. cbn [read_loop].
  unfold feed_value. rewrite on_value_eq.
  cbn [snd decoder buffer sse_state start]. rewrite Hd. cbn [fst snd].
  assert (Hno : CR ∉ stream_text records tail).
  { pose proof (CarriageReturns.decode_stream_no_CR create (concat reads)
                  CarriageReturns.heavy_init) as Hc.
    rewrite Hd in Hc. apply Hc.
    intros Hin. apply list_elem_of_In, List.in_concat in Hin
      as (value & Hv & Hx).
    rewrite Forall_forall in Hcr.
    apply (Hcr value); by apply list_elem_of_In. }
  rewrite (replace_crlf_absent _ Hno). unfold absorb.
  cbn [fst snd app]. rewrite (drain_records records tail _ Hrec Htail).
  reflexivity.
Qed.

End Records.

(** ** Requests in flight together *)

Section Isolation.
Context {num : Type} `{!JsNumber num}.

(** The request under study is registered, suspended and not aborted. *)
Definition live (id : jsstring) (c : nat) (req : request num)
           (w : world num) : Prop :=
  tracked id c w
  /\ activeAgentRequests w !! id = Some c
  /\ pending w !! c = Some req
  /\ (c ∉ aborted w)
  /\ settled w !! c = None.

(** Events that are not about the request: they neither draw its id, nor
    resume its body, nor abort it. *)
Definition foreign (id : jsstring) (c : nat) (e : event num) : bool :=
  negb (draws id e) && negb (resumes c e) && negb (aborts id e).

Definition calm (id : jsstring) (c : nat) (es : list (event num)) : Prop :=
  forallb (foreign id c) es = true.

(** The history of a request: its resumptions, one per input, with other
    events before each of them and after the last. *)
Fixpoint weave (c : nat) (inputs : list input)
         (gaps : list (list (event num))) : list (event num) :=
  match inputs, gaps with
  | i :: inputs', gap :: gaps' => gap ++ Resume c i :: weave c inputs' gaps'
  | i :: inputs', [] => Resume c i :: weave c inputs' []
  | [], _ => concat gaps
  end.

Lemma step_live id c req (w : world num) e :
  live id c req w -> foreign id c e = true -> live id c req (step w e).
Proof.
  intros (Ht & Hr & Hp & Ha & Hs) He.
  apply andb_prop in He as [He Hab]. apply andb_prop in He as [Hd Hre].
  apply negb_true_iff in Hd, Hre, Hab.
  pose proof Ht as (Hc & Hpe & Hreg).
  destruct (step_pending_other c w e Hc Hre) as [Hp' _].
  split; [by apply step_tracked|].
  split; [|split; [by rewrite Hp'|]].
  - destruct e as [id' pl f | c' i | id' fe pa].
    + simpl in Hd. apply bool_decide_eq_false in Hd.
      destruct pl as [[]|e0]; simpl; by rewrite lookup_insert_ne.
    + cbn [step]. destruct (pending w !! c') as [req'|] eqn:Ep;
        [|by rewrite resume_idle].
      simpl in Hre. apply bool_decide_eq_false in Hre.
      destruct (resume_cases c' i w req' Ep)
        as [-> | [(res & log & ->) | (l & ->)]]; [done| |done].
      rewrite settle_lookup, decide_False; [done|].
      intros Hid. apply Hre. by apply (Hpe c' req').
    + simpl in Hab. apply bool_decide_eq_false in Hab. cbn [step].
      destruct (abort_snd id' fe pa w) as (-> & _).
      by rewrite abort_local_lookup, decide_False.
  - destruct e as [id' pl f | c' i | id' fe pa].
    + destruct pl as [[]|e0]; simpl; by split.
    + cbn [step]. destruct (pending w !! c') as [req'|] eqn:Ep;
        [|by rewrite resume_idle].
      simpl in Hre. apply bool_decide_eq_false in Hre.
      destruct (resume_cases c' i w req' Ep)
        as [-> | [(res & log & ->) | (l & ->)]]; [done| |done].
      destruct (settle_fields c' req' res log w) as (-> & _ & -> & _).
      split; [done|]. by rewrite lookup_insert_ne.
    + simpl in Hab. apply bool_decide_eq_false in Hab. cbn [step].
      destruct (abort_snd id' fe pa w) as (_ & -> & _ & -> & _).
      destruct (abort_local_fields id' w) as (-> & _ & -> & _).
      split; [|done].
      destruct (activeAgentRequests w !! id') as [c''|] eqn:Er; [|done].
      assert (c'' <> c) by (intros ->; by apply Hab, Hreg).
      intros [Heq%elem_of_singleton | Hin]%elem_of_union;
        [congruence | done].
Qed.

Lemma run_live id c req (w : world num) es :
  live id c req w -> calm id c es -> live id c req (run w es).
Proof.
  unfold calm, run. revert w.
  induction es as [|e es IH]; intros w Hw; [done|].
  simpl. intros [He Hes]%andb_prop. apply IH; [by apply step_live | done].
Qed.

(** Once the body has returned nothing changes its result. *)
Lemma step_returned c (r : agent_result num) (w : world num) e :
  c < controllers w -> pending w !! c = None -> settled w !! c = Some r ->
  c < controllers (step w e)
  /\ pending (step w e) !! c = None
  /\ settled (step w e) !! c = Some r.
Proof.
  intros Hc Hp Hs. destruct e as [id' pl f | c' i | id' fe pa].
  - destruct pl as [[]|e0]; simpl; (split; [lia|]); [|done].
    rewrite lookup_insert_ne; [done | lia].
  - cbn [step]. destruct (pending w !! c') as [req|] eqn:Ep;
      [|by rewrite resume_idle].
    assert (Hne : c' <> c) by congruence.
    destruct (resume_cases c' i w req Ep)
      as [-> | [(res & log & ->) | (l & ->)]]; [done| |].
    + destruct (settle_fields c' req res log w) as (_ & -> & -> & ->).
      by rewrite lookup_delete_ne, lookup_insert_ne.
    + simpl. by rewrite lookup_insert_ne.
  - cbn [step].
    destruct (abort_snd id' fe pa w) as (_ & _ & -> & -> & -> & _).
    by destruct (abort_local_fields id' w) as (_ & -> & -> & ->).
Qed.

Lemma run_returned c (r : agent_result num) (w : world num) es :
  c < controllers w -> pending w !! c = None -> settled w !! c = Some r ->
  settled (run w es) !! c = Some r.
Proof.
  unfold run. revert w.
  induction es as [|e es IH]; intros w Hc Hp Hs; [done|].
  destruct (step_returned c r w e Hc Hp Hs) as (Hc' & Hp' & Hs').
  simpl. by apply IH.
Qed.

Lemma settle_returned c req res log (w : world num) es :
  c < controllers w ->
  settled (run (settle c req res log w) es) !! c = Some res.
Proof.
  intros Hc.
  destruct (settle_fields c req res log w) as (_ & Hpe & Hse & Hco).
  apply run_returned.
  - by rewrite Hco.
  - rewrite Hpe. apply lookup_delete_eq.
  - rewrite Hse. apply lookup_insert_eq.
Qed.

Lemma suspend_live id c req l (w : world num) :
  live id c req w -> requestId req = id ->
  live id c {| requestId := requestId req; onChunk := onChunk req;
               suspended := AwaitRead l |} (suspend c req l w).
Proof.
  intros ((Hc & Hpe & Hreg) & Hr & Hp & Ha & Hs) Hid.
  split; [|split; [done|split; [apply lookup_insert_eq | by split]]].
  split; [done|]. split; [|done].
  intros c' req'. simpl. rewrite lookup_insert. case_decide; [done|].
  apply Hpe.
Qed.

Lemma weave_nil c (gaps : list (list (event num))) :
  weave c [] gaps = concat gaps.
Proof. by destruct gaps. Qed.

(** The history of a request from the moment it waits for a gap and an
    input. *)
Lemma weave_cons c i inputs (gaps : list (list (event num))) :
  weave c (i :: inputs) gaps
  = hd [] gaps ++ Resume c i :: weave c inputs (tl gaps).
Proof. by destruct gaps. Qed.

Lemma calm_hd id c (gaps : list (list (event num))) :
  Forall (calm id c) gaps -> calm id c (hd [] gaps).
Proof. by destruct 1. Qed.

Lemma calm_tl id c (gaps : list (list (event num))) :
  Forall (calm id c) gaps -> Forall (calm id c) (tl gaps).
Proof. destruct 1; [constructor | done]. Qed.

Lemma weave_reading id c f l (w : world num) reads last gaps :
  live id c {| requestId := id; onChunk := f; suspended := AwaitRead l |}
       w ->
  Forall (calm id c) gaps ->
  settled (run w (weave c
                    (List.map (fun value => Read (Value value)) reads
                     ++ [Read (match last with
                               | Normal _ => Done
                               | Throw e => ReadError e
                               end)]) gaps)) !! c
  = Some (fst (agent_finish
                 (read_loop (Some (agent_callback f)) reads last l))).
Proof.
  revert l w gaps. induction reads as [|value reads IH];
    intros l w gaps Hw Hg.
  - cbn [List.map app]. rewrite weave_cons, run_app.
    pose proof (run_live id c _ w _ Hw (calm_hd id c gaps Hg))
      as ((Hc & _) & _ & Hp & Ha & _).
    cbn [run fold_left step]. unfold resume at 1.
    rewrite Hp. cbn [suspended onChunk].
    destruct last as [[]|e]; cbn [read_loop].
    + destruct (agent_finish (on_done (Some (agent_callback f)) l))
        as [res st]. cbn [fst]. by apply settle_returned.
    + cbn [agent_finish fst]. by apply settle_returned.
  - rewrite read_loop_cons. cbn [List.map app].
    rewrite weave_cons, run_app.
    pose proof (run_live id c _ w _ Hw (calm_hd id c gaps Hg)) as Hw'.
    pose proof Hw' as (_ & _ & Hp & Ha & _).
    cbn [run fold_left step]. unfold resume at 1.
    rewrite Hp. cbn [suspended onChunk].
    rewrite on_value_eq.
    apply (IH (feed_value (Some (agent_callback f)) l value)).
    + unfold feed_value. rewrite on_value_eq. cbn [snd].
      by apply (suspend_live id c _ _ _ Hw').
    + by apply calm_tl.
Qed.

(** X19.  Requests in flight together do not disturb one another.  Take
    a request started at any moment of any history of the page, and let
    its body be resumed with the outcome of its [fetch], then with each
    chunk of its stream, then with the end of the stream; between these
    resumptions let anything else happen on the page (other requests
    started, resumed, settled or aborted), short of an abort of this
    request or a second draw of its id.  Its promise then settles with
    the result its own exchange determines, the one of the exchange run
    alone. *)
Theorem concurrent_requests (id : jsstring) (f : option (listener num))
        (es : list (event num)) fetched reads last
        (gaps : list (list (event num))) :
  quiet id es ->
  let w0 := run page_load es in
  let c := controllers w0 in
  Forall (calm id c) gaps ->
  settled (run w0 (CallRunStream id (Normal tt) f
                   :: weave c (script fetched reads last) gaps)) !! c
  = Some (fst (runStream_body f fetched reads last)).
Proof.
  intros Hq w0 c Hg.
  assert (Hu : unused id w0)
    by (apply run_unused; [apply unused_page_load | done]).
  destruct (runStream_stage id f w0 Hu) as [Ht0 Hs0].
  set (w1 := snd (runStream id (Normal tt) f w0)).
  assert (Hw1 : live id c {| requestId := id; onChunk := f;
                             suspended := AwaitFetch |} w1).
  { fold c w1 in Ht0. split; [exact Ht0|].
    destruct Hu as (Hp & Hr & Hab & Hse).
    split; [apply lookup_insert_eq|]. split; [apply lookup_insert_eq|].
    split.
    - intros Hin. apply Hab in Hin. unfold c in Hin. lia.
    - simpl. destruct (settled w0 !! c) as [r|] eqn:E; [|done].
      apply Hse in E. unfold c in E. lia. }
  change (run w0 (CallRunStream id (Normal tt) f
                  :: weave c (script fetched reads last) gaps))
    with (run w1 (weave c (script fetched reads last) gaps)).
  unfold script. rewrite weave_cons, run_app.
  pose proof (run_live id c _ w1 _ Hw1 (calm_hd id c gaps Hg)) as Hw2.
  pose proof Hw2 as ((Hc & _) & _ & Hp & Ha & _).
  cbn [run fold_left step]. unfold resume at 1.
  rewrite Hp. cbn [suspended onChunk].
  unfold runStream_body, postSse, consumeSseResponse.
  destruct fetched as [r|e].
  - destruct (negb (ok r)).
    + by apply settle_returned.
    + destruct (negb (readable r)).
      * destruct (agent_finish (Normal [], sse_state (start agg_init [])))
          as [res st]. by apply settle_returned.
      * apply (weave_reading id c f); [|by apply calm_tl].
        by apply (suspend_live id c _ _ _ Hw2).
  - by apply settle_returned.
Qed.

End Isolation.

(** ** The further properties on concrete inputs *)

Module MoreExamples.
Import Examples.

#[local] Existing Instance Decimal.number.

Local Ltac absent :=
  let Hin := fresh "Hin" in
  intros Hin%list_elem_of_In; vm_compute in Hin; intuition discriminate.

(** Two records cut inside the blank line and inside a character of three
    bytes. *)
Definition cut_stream : list (list byte) :=
  [TextDecoder.wire "data: 1" ++ [x0a];
   [x0a] ++ TextDecoder.wire "data: '" ++ [xe4; xb8];
   [xad] ++ TextDecoder.wire "'" ++ [x0a; x0a]].

Lemma chunking_without_CR_witness :
  Forall (fun value => x0d ∉ value) cut_stream
  /\ consumeSseResponse no_callback ok_response cut_stream (Normal tt) tt []
     = consumeSseResponse no_callback ok_response [concat cut_stream]
         (Normal tt) tt [].
Proof.
  assert (H : Forall (fun value => x0d ∉ value) cut_stream)
    by (repeat constructor; absent).
  split; [exact H|].
  exact (chunking_without_CR no_callback ok_response cut_stream (Normal tt)
           tt [] H).
Defined.

Definition other_id : list N := js "agent_1700000000001_zzzz0000".

(** A request that runs to its end. *)
Definition finished : list (event Decimal.t) :=
  CallRunStream agent_id (Normal tt) None
  :: List.map (Resume 0) (script (Normal ok_response) [scenario_A] (Normal tt)).

Definition afterwards : list (event Decimal.t) :=
  [CallAbort agent_id (Normal ok_response) (Normal JNull);
   Resume 0 (Read Done);
   CallRunStream agent_id (Normal tt) None;
   Resume 0 (Fetched (Throw network_error))].

Lemma settles_once_witness :
  settled (run page_load finished) !! 0
  = Some (fst (runStream_body None (Normal ok_response) [scenario_A]
                 (Normal tt)))
  /\ settled (run page_load (finished ++ afterwards)) !! 0
     = Some (fst (runStream_body None (Normal ok_response) [scenario_A]
                    (Normal tt)))
  /\ pending (run page_load (finished ++ afterwards)) !! 0 = None.
Proof.
  assert (H : settled (run page_load finished) !! 0
              = Some (fst (runStream_body None (Normal ok_response)
                             [scenario_A] (Normal tt))))
    by (vm_compute; reflexivity).
  split; [exact H|].
  exact (settles_once finished afterwards 0 _ H).
Defined.

Definition two_requests : list (event Decimal.t) :=
  [CallRunStream agent_id (Normal tt) None;
   CallRunStream other_id (Normal tt) None;
   Resume 0 (Fetched (Normal ok_response))].

Lemma abort_spares_others_witness :
  agent_id <> other_id
  /\ activeAgentRequests (run page_load two_requests) !! agent_id = Some 0
  /\ activeAgentRequests
       (snd (abort other_id (Throw network_error) (Normal JNull)
               (run page_load two_requests))) !! agent_id = Some 0
  /\ (0 ∈ aborted (snd (abort other_id (Throw network_error) (Normal JNull)
                          (run page_load two_requests)))
      <-> 0 ∈ aborted (run page_load two_requests))
  /\ pending (snd (abort other_id (Throw network_error) (Normal JNull)
                     (run page_load two_requests))) !! 0
     = pending (run page_load two_requests) !! 0
  /\ settled (snd (abort other_id (Throw network_error) (Normal JNull)
                     (run page_load two_requests))) !! 0
     = settled (run page_load two_requests) !! 0.
Proof.
  assert (Hne : agent_id <> other_id) by discriminate.
  assert (Hl : activeAgentRequests (run page_load two_requests) !! agent_id
               = Some 0) by (vm_compute; reflexivity).
  split; [exact Hne|]. split; [exact Hl|].
  exact (abort_spares_others two_requests agent_id other_id 0
           (Throw network_error) (Normal JNull) Hne Hl).
Defined.

(** A keep-alive comment and a data line, ended by CR-LF. *)
Definition progress_lines : list wire_line :=
  [OtherLine (js ": ping");
   DataLine (js " ") (js "{'total_files': 4, 'done': false}")].

Lemma snapshot_reading_witness :
  progress_lines <> [] /\ Forall well_formed progress_lines
  /\ ok ok_response = true
  /\ readImportProgressSnapshot (num := Decimal.t) (Normal ok_response)
       (Normal (join [CR; LF] (List.map render progress_lines)))
     = Normal (JObj [(js "total_files",
                      JNum (Decimal.of_literal (js "4")));
                     (js "done", JBool false)]).
Proof.
  assert (Hne : progress_lines <> []) by discriminate.
  assert (Hwf : Forall well_formed progress_lines).
  { repeat constructor; try absent; reflexivity. }
  split; [exact Hne|]. split; [exact Hwf|]. split; [reflexivity|].
  refine (eq_trans
            (proj1 (snapshot_reading progress_lines [CR; LF] ok_response
                      Hne Hwf (or_intror eq_refl) eq_refl)) _).
  vm_compute. reflexivity.
Defined.

(** Two records and a last one that no blank line closes, cut inside the
    first blank line. *)
Definition record_stream : list (list byte) :=
  [TextDecoder.wire "data: 1" ++ [x0a];
   [x0a] ++ TextDecoder.wire ": ping" ++ [x0a; x0a]
   ++ TextDecoder.wire "data: 2"].

Definition record_texts : list jsstring := [js "data: 1"; js ": ping"].


Lemma read_failure_drops_partial_witness :
  Forall (fun value => x0d ∉ value) record_stream
  /\ Forall framed record_texts
  /\ decode (trim (js "data: 2")) = Some (JNum two)
  /\ consumeSseResponse no_callback ok_response record_stream
       (Throw network_error) tt []
     = (Throw network_error, emit_all no_callback [JNum one] (fresh tt [])).
Proof.
  assert (Hcr : Forall (fun value => x0d ∉ value) record_stream)
    by (repeat constructor; absent).
  assert (Hrec : Forall framed record_texts)
    by (repeat constructor; vm_compute; congruence).
  split; [exact Hcr|]. split; [exact Hrec|].
  split; [vm_compute; reflexivity|].
  refine (eq_trans
            (read_failure_drops_partial no_callback ok_response
               record_stream record_texts (js "data: 2")
               (fst (TextDecoder.decode_stream TextDecoder.create
                       (concat record_stream)))
               network_error tt [] eq_refl eq_refl Hcr _ Hrec _) _).
  - vm_compute. reflexivity.
  - vm_compute. reflexivity.
  - vm_compute. reflexivity.
Defined.

(** A request started while another one is in flight; between its
    resumptions the other one is started again under its id, resumed and
    aborted. *)
Definition before : list (event Decimal.t) :=
  [CallRunStream other_id (Normal tt) None].

Definition between : list (list (event Decimal.t)) :=
  [[Resume 0 (Fetched (Normal ok_response))];
   [CallAbort other_id (Throw network_error) (Normal JNull);
    Resume 0 (Read Done)];
   [CallRunStream other_id (Normal tt) None];
   [Resume 2 (Fetched (Throw network_error))]].

Lemma concurrent_requests_witness :
  quiet agent_id before /\ Forall (calm agent_id 1) between
  /\ settled (run (run page_load before)
                (CallRunStream agent_id (Normal tt) None
                 :: weave 1 (script (Normal ok_response) [scenario_A]
                               (Normal tt)) between)) !! 1
     = Some (fst (runStream_body None (Normal ok_response) [scenario_A]
                    (Normal tt))).
Proof.
  assert (Hq : quiet agent_id before) by reflexivity.
  assert (Hc : Forall (calm agent_id 1) between)
    by (repeat constructor).
  split; [exact Hq|]. split; [exact Hc|].
  exact (concurrent_requests agent_id None before (Normal ok_response)
           [scenario_A] (Normal tt) between Hq Hc).
Defined.




(** A record made of a comment and an [event:] field. *)
Definition keep_alive : jsstring := js ": ping" ++ [LF] ++ js "event: tick".

Lemma silent_records_witness :
  data_payloads keep_alive = []
  /\ emitBlock no_callback keep_alive empty_state = (Normal tt, empty_state).
Proof.
  assert (H : data_payloads keep_alive = []) by reflexivity.
  split; [exact H|].
  exact (proj2 (silent_records no_callback keep_alive empty_state)
           (or_introl H)).
Defined.

Definition not_found : response :=
  {| ok := false; status := 404; statusText := js "Not Found";
     readable := true |}.

Lemma agent_transport_failures_witness :
  ok not_found = false
  /\ runStream_body (num := Decimal.t) None (Normal not_found) []
       (Normal tt)
     = (AgentFailure (js "HTTP 404: Not Found"), fresh agg_init []).
Proof.
  split; [reflexivity|].
  exact (proj1 (proj2 (agent_transport_failures None [] (Normal tt)))
           not_found eq_refl).
Defined.

Lemma toCamelDeep_idempotent_witness :
  property_of (toCamelDeep wire_event) (js "items")
  = Some (JArr [JObj [(js "startTs", JNull)]])
  /\ toCamelDeep (JArr [JObj [(js "startTs", @JNull Decimal.t)]])
     = JArr [JObj [(js "startTs", JNull)]].
Proof.
  assert (H : property_of (toCamelDeep wire_event) (js "items")
              = Some (JArr [JObj [(js "startTs", JNull)]]))
    by reflexivity.
  split; [exact H|].
  exact (proj1 (proj2 toCamelDeep_idempotent) wire_event _ (js "items") H).
Defined.

(** A filter with one bound in each casing. *)
Definition mixed_filter : json Decimal.t :=
  JObj [(js "startTs", JNum (Decimal.of_literal (js "1700000000")));
        (js "end_ts", JNum (Decimal.of_literal (js "1700086400")))].

Lemma time_filter_casing_witness :
  normalizeTimeFilter (Some (normalizeTimeFilter (Some mixed_filter)))
  = normalizeTimeFilter (Some mixed_filter)
  /\ normalizeTimeFilter (num := Decimal.t)
       (Some (normalizeTimeFilter (Some JNull)))
     = JObj [(js "start_ts", JNull); (js "end_ts", JNull)]
  /\ normalizeTimeFilter (num := Decimal.t) (Some JNull) = JObj [].
Proof.
  split; [|split].
  - exact (proj2 (proj2 (proj2 time_filter_casing)) (Some mixed_filter)).
  - exact (proj2 (proj2 (proj2 time_filter_casing)) (Some JNull)).
  - exact (proj1 (proj2 (proj2 time_filter_casing)) (Some JNull) eq_refl).
Defined.

(** An id with a slash and a question mark. *)
Definition slash_id : list N := js "a/b?c".

Lemma abort_path_segment_witness :
  abort_path slash_id = Some (js "/agent/abort/a%2Fb%3Fc")
  /\ Forall (fun c => (c < 65536)%N) slash_id
  /\ url_path (js "/api" ++ js "/agent/abort/a%2Fb%3Fc")
     = Some [js "api"; js "agent"; js "abort"; js "a%2Fb%3Fc"].
Proof.
  assert (Hp : abort_path slash_id = Some (js "/agent/abort/a%2Fb%3Fc"))
    by reflexivity.
  assert (Hu : Forall (fun c => (c < 65536)%N) slash_id)
    by (repeat constructor).
  split; [exact Hp|]. split; [exact Hu|].
  destruct (proj1 (abort_path_segment (num := Decimal.t) slash_id) _ Hp)
    as (segment & Heq & _ & _ & _ & _ & Hurl).
  apply (app_inv_head (js "/agent/abort/")) in Heq. subst segment.
  apply (Hurl Hu); discriminate.
Defined.

(** The properties of [{limit: 20, tags: ['a b', null, 'c&d'], cursor:
    undefined}]. *)
Definition page_params : list (jsstring * option (json Decimal.t)) :=
  [(js "limit", Some (JNum (Decimal.of_literal (js "20"))));
   (js "tags", Some (JArr [JStr (js "a b"); JNull; JStr (js "c&d")]));
   (js "cursor", None)].

Lemma toQuery_pairs_witness :
  NoDup (List.map (fun e => scalar_values (fst e)) page_params)
  /\ toQuery page_params = Normal (js "?limit=20&tags=a+b&tags=c%26d").
Proof.
  assert (H : NoDup (List.map (fun e => scalar_values (fst e)) page_params)).
  { repeat (apply NoDup_cons; split; [absent|]). apply NoDup_nil_2. }
  split; [exact H|].
  refine (eq_trans (proj2 (toQuery_pairs page_params) H) _).
  vm_compute. reflexivity.
Defined.

Lemma time_filter_query_witness :
  truthy mixed_filter = true
  /\ toQuery (entries (normalizeTimeFilter (Some mixed_filter)))
     = Normal (js "?start_ts=1700000000&end_ts=1700086400").
Proof.
  split; [reflexivity|].
  refine (eq_trans
            (proj1 (proj2 time_filter_query) mixed_filter eq_refl I I) _).
  vm_compute. reflexivity.
Defined.

Lemma parseAliases_strings_witness :
  parseAliases (num := Decimal.t) (Some (JStr (js "['bob', 3, 'al']")))
  = [JStr (js "bob"); JStr (js "al")].
Proof.
  refine (eq_trans
            (proj1 (proj2 (proj2 (proj2
                                    (parseAliases_strings
                                       (Some (JStr
                                                (js "['bob', 3, 'al']")))))))
               _ eq_refl) _).
  vm_compute. reflexivity.
Defined.

(** A listener that throws on its second delivery. *)
Definition fussy : listener Decimal.t :=
  fun seen => if Nat.eqb (length seen) 2 then Some network_error else None.

Lemma export_progress_subscription_witness :
  stream_outcome (Normal ok_response) [scenario_A] (Normal tt)
  = Normal scenario_A_events
  /\ onExportProgress (Some fussy) (Normal ok_response) [scenario_A]
       (Normal tt)
     = {| chunks := scenario_A_events; observer := scenario_A_events;
          console := [network_error] |}.
Proof.
  assert (H : stream_outcome (Normal ok_response) [scenario_A] (Normal tt)
              = Normal scenario_A_events) by (vm_compute; reflexivity).
  split; [exact H|].
  destruct (export_progress_subscription fussy (Normal ok_response)
              [scenario_A] (Normal tt)) as (events & Hr & He).
  rewrite He, <- (Hr _ H), H. reflexivity.
Defined.

End MoreExamples.
